(** * The scene graph object model of Util/SceneGraph.cpp

    A shallow embedding of the scene graph of src/Util/SceneGraph.cpp and of
    the box generator of src/Util/MeshGenerator.cpp: objects live in a store
    indexed by their address, every member function is a computation over
    that store, and the two signals of SgObject are recorded in an event
    log. *)

From stdpp Require Import gmap strings list fin_maps.
From Stdlib Require Import PrimFloat SpecFloat FloatOps.



(** ** Numbers and vectors *)

(** A C++ [double] is a binary64 value. *)
Abbreviation double := float (only parsing).

(** A C++ [float] is held as the binary64 value of the same magnitude;
    [to_single] is the narrowing conversion [double -> float]
    (round to nearest binary32). *)
Definition to_single (d : double) : float :=
  match Prim2SF d with
  | S754_finite s m e =>
      SF2Prim (binary_normalize 24 128 (if s then Zneg m else Zpos m) e s)
  | _ => d
  end.

Record Vector3 := mkVector3 { vx : double; vy : double; vz : double }.
Record Vector3f := mkVector3f { fx : float; fy : float; fz : float }.
Record Vector2f := mkVector2f { tx : float; ty : float }.

(** Object identity: the address of an SgObject. A nullable pointer is an
    [option ptr]. *)
Abbreviation ptr := positive (only parsing).

(** ** Types declared outside the sources

    BoundingBox, BoundingBoxf and Affine3 are declared in headers that are
    not part of the sources at hand; the model takes them, with the member
    functions SceneGraph.cpp calls, as an interface. *)
Class Geometry := {
  BoundingBox : Type;
  (** the default-constructed box, which is also the result of clear() *)
  BoundingBox_clear : BoundingBox;
  (** [a.expandBy(b)] *)
  BoundingBox_expandBy : BoundingBox → BoundingBox → BoundingBox;
  Affine3 : Type;
  Affine3_Identity : Affine3;
  (** [Affine3(scale.asDiagonal())] *)
  Affine3_asDiagonal : Vector3 → Affine3;
  (** [a.transform(T)] *)
  BoundingBox_transform : BoundingBox → Affine3 → BoundingBox;
  BoundingBoxf : Type;
  BoundingBoxf_clear : BoundingBoxf;
  (** [a.expandBy(v)] for a vertex [v] *)
  BoundingBoxf_expandBy : BoundingBoxf → Vector3f → BoundingBoxf;
  (** the conversion of [bbox = bboxf] *)
  BoundingBox_of_f : BoundingBoxf → BoundingBox;
}.

(** ** A small state-and-failure monad

    A computation either returns a value and a new state, or has no defined
    result ([None]): a null or dangling pointer was dereferenced, an index
    was out of range, or a recursive walk ran out of fuel. *)
Definition M (Σ A : Type) : Type := Σ → option (A * Σ).

Definition ret {Σ A} (a : A) : M Σ A := λ s, Some (a, s).
Definition bind {Σ A B} (m : M Σ A) (k : A → M Σ B) : M Σ B :=
  λ s, match m s with Some (a, s') => k a s' | None => None end.
Definition fail {Σ A} : M Σ A := λ _, None.
Definition gets {Σ A} (f : Σ → A) : M Σ A := λ s, Some (f s, s).
Definition modify {Σ} (f : Σ → Σ) : M Σ unit := λ s, Some (tt, f s).

#[global] Instance M_ret {Σ} : MRet (M Σ) := λ A, ret.
#[global] Instance M_bind {Σ} : MBind (M Σ) := λ A B k m, bind m k.

(** A [for] loop from [l.begin()] to [l.end()] over a container that the
    body leaves alone. *)
Fixpoint forM_ {Σ A} (l : list A) (f : A → M Σ unit) : M Σ unit :=
  match l with
  | [] => mret tt
  | a :: l' => f a;; forM_ l' f
  end.

Fixpoint mapM_list {Σ A B} (f : A → M Σ B) (l : list A) : M Σ (list B) :=
  match l with
  | [] => mret []
  | a :: l' => b ← f a; bs ← mapM_list f l'; mret (b :: bs)
  end.

Definition when {Σ} (b : bool) (m : M Σ unit) : M Σ unit :=
  if b then m else mret tt.

(** ** Update descriptors and signals *)

(** The action tag of SgUpdate. *)
Inductive Action := NONE | ADDED | REMOVED | BBOX_UPDATED | MODIFIED.

(** SgUpdate: the action and the path of objects the update went through,
    [push] appending and [pop] dropping the last one. *)
Record SgUpdate := mkUpdate { action : Action; path : list ptr }.

Definition SgUpdate_new (a : Action) : SgUpdate := mkUpdate a [].
Definition push (p : ptr) (u : SgUpdate) : SgUpdate :=
  mkUpdate (action u) (path u ++ [p]).
Definition pop (u : SgUpdate) : SgUpdate :=
  mkUpdate (action u) (removelast (path u)).

(** An emission of one of the two signals of an SgObject. *)
Inductive Event :=
| SigUpdated (obj : ptr) (update : SgUpdate)
| SigGraphConnection (obj : ptr) (on : bool).


Section Model.
Context `{Geometry}.

(** ** Objects

    One record per class layer of the hierarchy: the fields of SgObject are
    common to every object, the rest depends on the dynamic type. *)

(** The members of SgGroup. *)
Record SgGroupData := mkGroup {
  children : list ptr;
  isBboxCacheValid : bool;
  bboxCache : BoundingBox;
}.

(** The classes deriving from SgGroup that use its boundingBox(). *)
Inductive GroupKind := KGroup | KInvariantGroup | KUnpickableGroup | KOverlay.

(** The two concrete SgTransform classes, with their own member. *)
Inductive TransformKind :=
| KPosTransform (T_ : Affine3)
| KScaleTransform (scale_ : Vector3).

Record SgMaterialData := mkMaterial {
  ambientIntensity_ : float;
  diffuseColor_ : Vector3f;
  emissiveColor_ : Vector3f;
  specularColor_ : Vector3f;
  shininess_ : float;
  transparency_ : float;
}.

Record SgTextureTransformData := mkTextureTransform {
  center_ : Vector2f;
  rotation_ : double;
  ttscale_ : Vector2f;
  translation_ : Vector2f;
}.

Record SgTextureData := mkTexture {
  image_ : option ptr;
  textureTransform_ : option ptr;
  repeatS_ : bool;
  repeatT_ : bool;
}.

(** The members of SgMeshBase. *)
Record SgMeshBaseData := mkMeshBase {
  vertices_ : option ptr;
  normals_ : option ptr;
  colors_ : option ptr;
  texCoords_ : option ptr;
  normalIndices_ : list Z;
  colorIndices_ : list Z;
  isSolid_ : bool;
  bbox : BoundingBox;
}.

(** SgMesh::Primitive, a variant over the primitive shapes. *)
Inductive Primitive :=
| Mesh
| Box (size : Vector3)
| Sphere (radius : double)
| Cylinder (radius height : double)
| Cone (radius height : double).

Record SgShapeData := mkShape {
  mesh_ : option ptr;
  material_ : option ptr;
  texture_ : option ptr;
}.

(** The members of SgPlot. *)
Record SgPlotData := mkPlot {
  pvertices_ : option ptr;
  pnormals_ : option ptr;
  pcolors_ : option ptr;
  pmaterial_ : option ptr;
  pnormalIndices_ : list Z;
  pcolorIndices_ : list Z;
  pbbox : BoundingBox;
}.

(** SgPointSet has pointSize_, SgLineSet has lineWidth_. *)
Inductive PlotKind := KPointSet (pointSize_ : double) | KLineSet (lineWidth_ : double).

Record SgLightData := mkLight {
  on_ : bool;
  color_ : Vector3f;
  intensity_ : float;
  lambientIntensity_ : float;
}.

Record SgPointLightData := mkPointLight {
  constantAttenuation_ : float;
  linearAttenuation_ : float;
  quadraticAttenuation_ : float;
}.

Inductive LightKind :=
| KLight
| KDirectionalLight (direction_ : Vector3)
| KPointLight (pl : SgPointLightData)
| KSpotLight (pl : SgPointLightData) (direction_ : Vector3)
    (beamWidth_ cutOffAngle_ : float).

Inductive CameraKind :=
| KPerspectiveCamera (fieldOfView_ : double)
| KOrthographicCamera (height_ : double).

(** The fields an object has beyond those of SgObject, by dynamic type. *)
Inductive SgData :=
| DObject
| DNode
| DGroup (k : GroupKind) (g : SgGroupData)
| DTransform (k : TransformKind) (g : SgGroupData)
    (untransformedBboxCache : BoundingBox)
| DMaterial (m : SgMaterialData)
| DImage (image : positive)
| DTextureTransform (t : SgTextureTransformData)
| DTexture (t : SgTextureData)
| DVertexArray (v : list Vector3f)
| DNormalArray (v : list Vector3f)
| DColorArray (v : list Vector3f)
| DTexCoordArray (v : list Vector2f)
| DMesh (mb : SgMeshBaseData) (triangleVertices_ : list Z)
    (primitive_ : Primitive)
| DPolygonMesh (mb : SgMeshBaseData) (polygonVertices_ : list Z)
| DShape (sh : SgShapeData)
| DPlot (k : PlotKind) (pl : SgPlotData)
| DPreprocessed
| DLight (k : LightKind) (l : SgLightData)
| DCamera (k : CameraKind) (nearDistance_ farDistance_ : double)
| DFog.

(** An object: the members of SgObject (the signals are in the event log)
    and the members of its class.

    Modelled from the spec: the owner container, declared in SceneGraph.h,
    is a multiset of owner back-references. It is kept in iteration order;
    [insert] adds one occurrence, [erase(key)] removes every occurrence
    of the key. *)
Record SgObj := mkObj {
  name_ : string;
  owners : list ptr;
  data : SgData;
}.

Definition with_owners (f : list ptr → list ptr) (o : SgObj) : SgObj :=
  mkObj (name_ o) (f (owners o)) (data o).
Definition with_data (d : SgData) (o : SgObj) : SgObj :=
  mkObj (name_ o) (owners o) d.

(** [owners.insert(node)] on the ordered multiset. *)
Fixpoint owners_insert (node : ptr) (l : list ptr) : list ptr :=
  match l with
  | [] => [node]
  | q :: l' => if (node <? q)%positive then node :: l
               else q :: owners_insert node l'
  end.

(** [owners.erase(node)]. *)
Definition owners_erase (node : ptr) (l : list ptr) : list ptr :=
  filter (λ q, q ≠ node) l.

(** ** The store *)

Record State := mkState {
  heap : gmap ptr SgObj;
  events : list Event;   (* in order of emission *)
}.

Abbreviation Sg := (M State).

(** [new C(...)]: a fresh address is bound to the constructed object. *)
Definition new (o : SgObj) : Sg ptr := λ s,
  let p := fresh (dom (heap s)) in
  Some (p, mkState (<[p := o]> (heap s)) (events s)).

(** Dereferencing [p]; a dangling pointer has no defined result. *)
Definition getObj (p : ptr) : Sg SgObj := λ s,
  match heap s !! p with
  | Some o => Some (o, s)
  | None => None
  end.

Definition putObj (p : ptr) (o : SgObj) : Sg unit :=
  modify (λ s, mkState (<[p := o]> (heap s)) (events s)).

(** Emitting a signal. *)
Definition emit (e : Event) : Sg unit :=
  modify (λ s, mkState (heap s) (events s ++ [e])).

(** The members of SgGroup of a group or transform object. *)
Definition groupData (d : SgData) : option SgGroupData :=
  match d with
  | DGroup _ g | DTransform _ g _ => Some g
  | _ => None
  end.

Definition with_groupData (g : SgGroupData) (d : SgData) : SgData :=
  match d with
  | DGroup k _ => DGroup k g
  | DTransform k _ u => DTransform k g u
  | _ => d
  end.

Definition getGroup (p : ptr) : Sg SgGroupData :=
  o ← getObj p;
  match groupData (data o) with
  | Some g => mret g
  | None => fail
  end.

Definition putGroup (p : ptr) (g : SgGroupData) : Sg unit :=
  o ← getObj p;
  putObj p (with_data (with_groupData g (data o)) o).

(** ** SgObject *)

(** Modelled from the spec: invalidateBoundingBox(), inline in
    SceneGraph.h, sets the cache not-valid. *)
Definition invalidateBoundingBox (this : ptr) : Sg unit :=
  g ← getGroup this;
  putGroup this (mkGroup (children g) false (bboxCache g)).

(** SgObject::transferUpdate, and its override SgGroup::transferUpdate for
    the classes deriving from SgGroup, which invalidates the cache first.
    [fuel] bounds the depth of the walk up the owners. *)
Fixpoint transferUpdate (fuel : nat) (this : ptr) (update : SgUpdate)
  : Sg unit :=
  match fuel with
  | O => fail
  | S fuel' =>
      o ← getObj this;
      when (bool_decide (is_Some (groupData (data o))))
           (invalidateBoundingBox this);;
      let update := push this update in
      emit (SigUpdated this update);;
      o ← getObj this;
      forM_ (owners o) (λ p, transferUpdate fuel' p update)
  end.

(** Modelled from the spec: notifyUpdate, inline in SceneGraph.h, announces
    a mutation by walking up from this object with a descriptor carrying
    the action. *)
Definition notifyUpdate (fuel : nat) (this : ptr) (a : Action) : Sg unit :=
  transferUpdate fuel this (SgUpdate_new a).

(** SgObject::addOwner(SgObject* node) *)
Definition addOwner (this node : ptr) : Sg unit :=
  o ← getObj this;
  putObj this (with_owners (owners_insert node) o);;
  o ← getObj this;
  when (bool_decide (length (owners o) = 1))
       (emit (SigGraphConnection this true)).

(** SgObject::addOwner(SgObject* node, SgUpdate& update) *)
Definition addOwner_update (fuel : nat) (this node : ptr) (update : SgUpdate)
  : Sg unit :=
  o ← getObj this;
  putObj this (with_owners (owners_insert node) o);;
  transferUpdate fuel this update;;
  o ← getObj this;
  when (bool_decide (length (owners o) = 1))
       (emit (SigGraphConnection this true)).

(** SgObject::removeOwner *)
Definition removeOwner (this node : ptr) : Sg unit :=
  o ← getObj this;
  putObj this (with_owners (owners_erase node) o);;
  o ← getObj this;
  when (bool_decide (owners o = []))
       (emit (SigGraphConnection this false)).

(** ** SgNode, SgGroup and SgTransform *)

(** [bboxCache.expandBy(b)] on the cache of [this]. *)
Definition expandCache (this : ptr) (b : BoundingBox) : Sg unit :=
  g ← getGroup this;
  putGroup this (mkGroup (children g) (isBboxCacheValid g)
                         (BoundingBox_expandBy (bboxCache g) b)).

(** The virtual boundingBox() of a node: SgNode::boundingBox (the empty
    box), SgGroup::boundingBox, SgPosTransform::boundingBox,
    SgScaleTransform::boundingBox, SgShape::boundingBox (the box of the
    mesh, SgMeshBase::boundingBox) and SgPlot::boundingBox. [fuel] bounds
    the depth of the walk down the children. *)
Fixpoint boundingBox (fuel : nat) (this : ptr) : Sg BoundingBox :=
  match fuel with
  | O => fail
  | S fuel' =>
      o ← getObj this;
      match data o with
      | DGroup _ g =>
          if isBboxCacheValid g then mret (bboxCache g)
          else
            putGroup this (mkGroup (children g) false BoundingBox_clear);;
            forM_ (children g)
              (λ p, b ← boundingBox fuel' p; expandCache this b);;
            g ← getGroup this;
            putGroup this (mkGroup (children g) true (bboxCache g));;
            mret (bboxCache g)
      | DTransform k g _ =>
          if isBboxCacheValid g then mret (bboxCache g)
          else
            putGroup this (mkGroup (children g) false BoundingBox_clear);;
            forM_ (children g)
              (λ p, b ← boundingBox fuel' p; expandCache this b);;
            g ← getGroup this;
            let T := match k with
                     | KPosTransform T_ => T_
                     | KScaleTransform scale_ => Affine3_asDiagonal scale_
                     end in
            let b := BoundingBox_transform (bboxCache g) T in
            o ← getObj this;
            putObj this
              (with_data (DTransform k (mkGroup (children g) true b)
                                     (bboxCache g)) o);;
            mret b
      | DShape sh =>
          match mesh_ sh with
          | Some m =>
              om ← getObj m;
              match data om with
              | DMesh mb _ _ => mret (bbox mb)
              | _ => fail
              end
          | None => mret BoundingBox_clear
          end
      | DPlot _ pl => mret (pbbox pl)
      | DNode | DPreprocessed | DLight _ _ | DCamera _ _ _ | DFog =>
          mret BoundingBox_clear
      | _ => fail
      end
  end.

(** SgTransform::untransformedBoundingBox *)
Definition untransformedBoundingBox (fuel : nat) (this : ptr)
  : Sg BoundingBox :=
  o ← getObj this;
  match data o with
  | DTransform _ g _ =>
      when (negb (isBboxCacheValid g)) (boundingBox fuel this;; mret tt);;
      o ← getObj this;
      match data o with
      | DTransform _ _ u => mret u
      | _ => fail
      end
  | _ => fail
  end.

(** SgGroup::contains *)
Definition contains (this node : ptr) : Sg bool :=
  g ← getGroup this;
  mret (bool_decide (node ∈ children g)).

(** SgGroup::clearChildren *)
Definition clearChildren (fuel : nat) (this : ptr) (doNotify : bool)
  : Sg unit :=
  g ← getGroup this;
  when doNotify
    (forM_ (children g) (λ p, transferUpdate fuel p (SgUpdate_new REMOVED)));;
  g ← getGroup this;
  putGroup this (mkGroup [] (isBboxCacheValid g) (bboxCache g)).

(** SgGroup::addChild; [node] may be the null pointer. [fuel] is for the
    notification and is not used when [doNotify] is false. *)
Definition addChild (fuel : nat) (this : ptr) (node : option ptr)
    (doNotify : bool) : Sg unit :=
  match node with
  | Some n =>
      g ← getGroup this;
      putGroup this (mkGroup (children g ++ [n]) (isBboxCacheValid g)
                             (bboxCache g));;
      if doNotify then addOwner_update fuel n this (SgUpdate_new ADDED)
      else addOwner n this
  | None => mret tt
  end.

(** [children.erase(p)] *)
Definition eraseChildAt (this : ptr) (i : nat) : Sg unit :=
  g ← getGroup this;
  putGroup this (mkGroup (delete i (children g)) (isBboxCacheValid g)
                         (bboxCache g)).

(** The loop of SgGroup::removeChild, with the iterator [p] as an index
    into the child vector. Every turn either erases an element or advances
    [p], so [n] turns suffice for a vector of [n] elements past [p]. *)
Fixpoint removeChild_loop (n : nat) (fuel : nat) (this node : ptr)
    (doNotify : bool) (p : nat) (removed : bool) : Sg bool :=
  g ← getGroup this;
  match children g !! p with
  | None => mret removed                     (* p == children.end() *)
  | Some child =>
      match n with
      | O => fail
      | S n' =>
          if bool_decide (child = node) then
            when doNotify (notifyUpdate fuel child REMOVED);;
            eraseChildAt this p;;
            removeOwner child this;;
            removeChild_loop n' fuel this node doNotify p true
          else
            removeChild_loop n' fuel this node doNotify (S p) removed
      end
  end.

(** SgGroup::removeChild *)
Definition removeChild (fuel : nat) (this node : ptr) (doNotify : bool)
  : Sg bool :=
  g ← getGroup this;
  removeChild_loop (length (children g)) fuel this node doNotify 0 false.

(** SgGroup::removeChildAt; an index outside the vector has no defined
    result. *)
Definition removeChildAt (fuel : nat) (this : ptr) (index : Z)
    (doNotify : bool) : Sg unit :=
  g ← getGroup this;
  if bool_decide (0 ≤ index)%Z then
    match children g !! Z.to_nat index with
    | Some child =>
        when doNotify (notifyUpdate fuel child REMOVED);;
        removeOwner child this;;
        eraseChildAt this (Z.to_nat index)
    | None => fail
    end
  else fail.

(** ** Members that reference payload

    SgTexture, SgMeshBase, SgShape and SgPlot hold reference-counted
    pointers to other objects; the setter of each such member has the same
    body up to the member it assigns. *)
Inductive Member :=
| texture_image | texture_textureTransform
| meshBase_vertices | meshBase_normals | meshBase_colors | meshBase_texCoords
| shape_mesh | shape_material | shape_texture
| plot_vertices | plot_normals | plot_colors | plot_material.

(** Reading a member; [None] when the class of the object has no such
    member. *)
Definition getMember (f : Member) (d : SgData) : option (option ptr) :=
  match f, d with
  | texture_image, DTexture t => Some (image_ t)
  | texture_textureTransform, DTexture t => Some (textureTransform_ t)
  | meshBase_vertices, (DMesh mb _ _ | DPolygonMesh mb _) => Some (vertices_ mb)
  | meshBase_normals, (DMesh mb _ _ | DPolygonMesh mb _) => Some (normals_ mb)
  | meshBase_colors, (DMesh mb _ _ | DPolygonMesh mb _) => Some (colors_ mb)
  | meshBase_texCoords, (DMesh mb _ _ | DPolygonMesh mb _) =>
      Some (texCoords_ mb)
  | shape_mesh, DShape sh => Some (mesh_ sh)
  | shape_material, DShape sh => Some (material_ sh)
  | shape_texture, DShape sh => Some (texture_ sh)
  | plot_vertices, DPlot _ pl => Some (pvertices_ pl)
  | plot_normals, DPlot _ pl => Some (pnormals_ pl)
  | plot_colors, DPlot _ pl => Some (pcolors_ pl)
  | plot_material, DPlot _ pl => Some (pmaterial_ pl)
  | _, _ => None
  end.

Definition meshBase_set (f : Member) (x : option ptr) (mb : SgMeshBaseData)
  : SgMeshBaseData :=
  match f with
  | meshBase_vertices =>
      mkMeshBase x (normals_ mb) (colors_ mb) (texCoords_ mb)
                 (normalIndices_ mb) (colorIndices_ mb) (isSolid_ mb) (bbox mb)
  | meshBase_normals =>
      mkMeshBase (vertices_ mb) x (colors_ mb) (texCoords_ mb)
                 (normalIndices_ mb) (colorIndices_ mb) (isSolid_ mb) (bbox mb)
  | meshBase_colors =>
      mkMeshBase (vertices_ mb) (normals_ mb) x (texCoords_ mb)
                 (normalIndices_ mb) (colorIndices_ mb) (isSolid_ mb) (bbox mb)
  | meshBase_texCoords =>
      mkMeshBase (vertices_ mb) (normals_ mb) (colors_ mb) x
                 (normalIndices_ mb) (colorIndices_ mb) (isSolid_ mb) (bbox mb)
  | _ => mb
  end.

Definition plot_set (f : Member) (x : option ptr) (pl : SgPlotData)
  : SgPlotData :=
  match f with
  | plot_vertices =>
      mkPlot x (pnormals_ pl) (pcolors_ pl) (pmaterial_ pl)
             (pnormalIndices_ pl) (pcolorIndices_ pl) (pbbox pl)
  | plot_normals =>
      mkPlot (pvertices_ pl) x (pcolors_ pl) (pmaterial_ pl)
             (pnormalIndices_ pl) (pcolorIndices_ pl) (pbbox pl)
  | plot_colors =>
      mkPlot (pvertices_ pl) (pnormals_ pl) x (pmaterial_ pl)
             (pnormalIndices_ pl) (pcolorIndices_ pl) (pbbox pl)
  | plot_material =>
      mkPlot (pvertices_ pl) (pnormals_ pl) (pcolors_ pl) x
             (pnormalIndices_ pl) (pcolorIndices_ pl) (pbbox pl)
  | _ => pl
  end.

(** Assigning a member. *)
Definition assignMember (f : Member) (x : option ptr) (d : SgData) : SgData :=
  match f, d with
  | texture_image, DTexture t =>
      DTexture (mkTexture x (textureTransform_ t) (repeatS_ t) (repeatT_ t))
  | texture_textureTransform, DTexture t =>
      DTexture (mkTexture (image_ t) x (repeatS_ t) (repeatT_ t))
  | (meshBase_vertices | meshBase_normals | meshBase_colors
     | meshBase_texCoords), DMesh mb tv pr =>
      DMesh (meshBase_set f x mb) tv pr
  | (meshBase_vertices | meshBase_normals | meshBase_colors
     | meshBase_texCoords), DPolygonMesh mb pv =>
      DPolygonMesh (meshBase_set f x mb) pv
  | shape_mesh, DShape sh => DShape (mkShape x (material_ sh) (texture_ sh))
  | shape_material, DShape sh => DShape (mkShape (mesh_ sh) x (texture_ sh))
  | shape_texture, DShape sh => DShape (mkShape (mesh_ sh) (material_ sh) x)
  | (plot_vertices | plot_normals | plot_colors | plot_material),
    DPlot k pl =>
      DPlot k (plot_set f x pl)
  | _, _ => d
  end.

(** The setters SgTexture::setImage, SgTexture::setTextureTransform,
    SgMeshBase::setVertices, setNormals, setColors, setTexCoords,
    SgShape::setMesh, setMaterial, setTexture, and SgPlot::setVertices,
    setNormals, setMaterial, setColors: release the old referent, assign,
    register with the new one, return the argument. *)
Definition setMember (f : Member) (this : ptr) (x : option ptr)
  : Sg (option ptr) :=
  o ← getObj this;
  match getMember f (data o) with
  | None => fail
  | Some old =>
      match old with
      | Some q => removeOwner q this
      | None => mret tt
      end;;
      o ← getObj this;
      putObj this (with_data (assignMember f x (data o)) o);;
      match x with
      | Some q => addOwner q this
      | None => mret tt
      end;;
      mret x
  end.

(** ** SgCloneMap and cloning *)

Record SgCloneMap := mkCloneMap {
  cloneMap : gmap ptr ptr;
  isNonNodeCloningEnabled_ : bool;
}.

(** SgCloneMap::SgCloneMap() *)
Definition SgCloneMap_new : SgCloneMap := mkCloneMap ∅ true.

(** setNonNodeCloning(on), inline in SceneGraph.h. *)
Definition setNonNodeCloning (on : bool) (cm : SgCloneMap) : SgCloneMap :=
  mkCloneMap (cloneMap cm) on.

(** SgCloneMap::clear *)
Definition SgCloneMap_clear (cm : SgCloneMap) : SgCloneMap :=
  mkCloneMap ∅ (isNonNodeCloningEnabled_ cm).

(** Computations that also hold a clone map. *)
Abbreviation Cl := (M (SgCloneMap * State)).

Definition liftSg {X A} (m : Sg A) : M (X * State) A := λ cs,
  match m cs.2 with
  | Some (a, s') => Some (a, (cs.1, s'))
  | None => None
  end.

(** The object constructed by [SgObject(const SgObject& org)], with the
    members [d] of the derived class: the name is copied, the owner set
    starts empty. *)
Definition SgObject_copy (org : SgObj) (d : SgData) : SgObj :=
  mkObj (name_ org) [] d.

(** The body of SgGroup::SgGroup(const SgGroup& org): the children of
    [org] are added to the new group [this], which takes the cache of
    [org] and declares it valid. *)
Definition SgGroup_copy_ctor (this org : ptr) : Sg unit :=
  g ← getGroup org;
  forM_ (children g) (λ p, addChild O this (Some p) false);;
  gorg ← getGroup org;
  g ← getGroup this;
  putGroup this (mkGroup (children g) true (bboxCache gorg)).

(** The data of a freshly allocated group before the constructor body has
    run: no children; the flag, not yet assigned, is taken as false. *)
Definition SgGroup_blank : SgGroupData := mkGroup [] false BoundingBox_clear.

Section Clone.
(** [cloneMap.getClone<T>(org)], which is findOrCreateClone. *)
Variable getClone : ptr → Cl ptr.

(** The body of SgGroup::SgGroup(const SgGroup& org, SgCloneMap& cloneMap) *)
Definition SgGroup_clone_ctor (this org : ptr) : Cl unit :=
  g ← liftSg (getGroup org);
  forM_ (children g)
    (λ p, c ← getClone p; liftSg (addChild O this (Some c) false));;
  gorg ← liftSg (getGroup org);
  g ← liftSg (getGroup this);
  liftSg (putGroup this (mkGroup (children g) true (bboxCache gorg))).

(** One member [f] of the new object [this] filled from [org] in a
    cloning constructor: with non-node cloning enabled a non-null member is
    cloned through the map, otherwise the pointer of [org] is taken as it
    is. *)
Definition cloneMember (enabled : bool) (this org : ptr) (f : Member)
  : Cl unit :=
  o ← liftSg (getObj org);
  match getMember f (data o) with
  | None => fail
  | Some x =>
      if enabled then
        match x with
        | Some q => c ← getClone q;
                    liftSg (setMember f this (Some c));; mret tt
        | None => mret tt
        end
      else liftSg (setMember f this x);; mret tt
  end.

(** The part of the cloning constructors of SgTexture, SgMeshBase, SgShape
    and SgPlot that fills the members [fs] of the new object [this] from
    [org], after one test of isNonNodeCloningEnabled(). *)
Definition cloneMembers (fs : list Member) (this org : ptr) : Cl unit :=
  enabled ← gets (λ cs, isNonNodeCloningEnabled_ cs.1);
  forM_ fs (cloneMember enabled this org).

(** The virtual clone(cloneMap) of every class: [new C( *this, cloneMap)]
    for the classes with children or payload, [new C( *this)] for the
    others. *)
Definition clone (org : ptr) : Cl ptr :=
  o ← liftSg (getObj org);
  match data o with
  | DGroup k g =>
      this ← liftSg (new (SgObject_copy o (DGroup k SgGroup_blank)));
      SgGroup_clone_ctor this org;;
      mret this
  | DTransform k g u =>
      this ← liftSg (new (SgObject_copy o
                            (DTransform k SgGroup_blank BoundingBox_clear)));
      SgGroup_clone_ctor this org;;
      (* untransformedBboxCache = org.untransformedBboxCache *)
      oorg ← liftSg (getObj org);
      othis ← liftSg (getObj this);
      match data oorg, data othis with
      | DTransform _ _ uorg, DTransform kt gt _ =>
          liftSg (putObj this (with_data (DTransform kt gt uorg) othis))
      | _, _ => fail
      end;;
      mret this
  | DTexture t =>
      this ← liftSg (new (SgObject_copy o
                 (DTexture (mkTexture None None (repeatS_ t) (repeatT_ t)))));
      cloneMembers [texture_image; texture_textureTransform] this org;;
      mret this
  | DMesh mb tv pr =>
      this ← liftSg (new (SgObject_copy o
                 (DMesh (mkMeshBase None None None None (normalIndices_ mb)
                           (colorIndices_ mb) (isSolid_ mb) (bbox mb)) tv pr)));
      cloneMembers [meshBase_vertices; meshBase_normals; meshBase_colors]
                   this org;;
      mret this
  | DPolygonMesh mb pv =>
      this ← liftSg (new (SgObject_copy o
                 (DPolygonMesh (mkMeshBase None None None None
                           (normalIndices_ mb) (colorIndices_ mb)
                           (isSolid_ mb) (bbox mb)) pv)));
      cloneMembers [meshBase_vertices; meshBase_normals; meshBase_colors]
                   this org;;
      mret this
  | DShape sh =>
      this ← liftSg (new (SgObject_copy o (DShape (mkShape None None None))));
      cloneMembers [shape_mesh; shape_material; shape_texture] this org;;
      mret this
  | DPlot k pl =>
      this ← liftSg (new (SgObject_copy o
                 (DPlot k (mkPlot None None None None (pnormalIndices_ pl)
                             (pcolorIndices_ pl) (pbbox pl)))));
      cloneMembers [plot_vertices; plot_colors; plot_material] this org;;
      mret this
  | d => liftSg (new (SgObject_copy o d))
  end.

End Clone.

(** SgCloneMap::findOrCreateClone; [fuel] bounds the depth of the
    recursion through clone(). *)
Fixpoint findOrCreateClone (fuel : nat) (org : ptr) : Cl ptr :=
  match fuel with
  | O => fail
  | S fuel' =>
      m ← gets (λ cs, cloneMap cs.1);
      match m !! org with
      | None =>
          c ← clone (findOrCreateClone fuel') org;
          modify (λ cs, (mkCloneMap (<[org := c]> (cloneMap cs.1))
                                    (isNonNodeCloningEnabled_ cs.1), cs.2));;
          mret c
      | Some c => mret c
      end
  end.

(** ** SceneVisitor and accept *)

(** The visit functions of SceneVisitor that SceneGraph.cpp calls. *)
Inductive VisitMethod :=
| visitNode | visitGroup | visitInvariantGroup | visitPosTransform
| visitScaleTransform | visitUnpickableGroup | visitShape | visitPointSet
| visitLineSet | visitPreprocessed | visitLight | visitCamera | visitOverlay.

(** A visitor: an object with a state of its own, whose visit functions
    act on that state and on the scene. *)
Class SceneVisitor (V : Type) := {
  visit : VisitMethod → ptr → M (V * State) unit;
}.

(** The virtual accept(visitor) of every node class. An object that is not
    an SgNode has none. *)
Definition accept {V} {visitor : SceneVisitor V} (this : ptr)
  : M (V * State) unit :=
  o ← liftSg (getObj this);
  match data o with
  | DNode => visit visitNode this
  | DGroup KGroup _ => visit visitGroup this
  | DGroup KInvariantGroup _ => visit visitInvariantGroup this
  | DGroup KUnpickableGroup _ => visit visitUnpickableGroup this
  | DGroup KOverlay _ => visit visitOverlay this
  | DTransform (KPosTransform _) _ _ => visit visitPosTransform this
  | DTransform (KScaleTransform _) _ _ => visit visitScaleTransform this
  | DShape _ => visit visitShape this
  | DPlot (KPointSet _) _ => visit visitPointSet this
  | DPlot (KLineSet _) _ => visit visitLineSet this
  | DPreprocessed => visit visitPreprocessed this
  | DLight _ _ => visit visitLight this
  | DCamera _ _ _ => visit visitCamera this
  | DFog => mret tt
  | _ => fail
  end.

(** A visitor that only records the calls it receives. *)
#[local] Instance recorder : SceneVisitor (list (VisitMethod * ptr)) := {
  visit m p := modify (λ vs, (vs.1 ++ [(m, p)], vs.2));
}.

(** ** SgMesh and MeshGenerator *)

(** MeshNormalGenerator::generateNormals(mesh, creaseAngle) is defined in
    MeshNormalGenerator.cpp, outside the sources at hand: it is taken as a
    function that returns, with an effect on the store that is left
    open. *)
Class MeshNormals := {
  MeshNormalGenerator_generateNormals : ptr → double → State → State;
}.
Context `{MeshNormals}.

(** [new SgVertexArray()] *)
Definition SgVertexArray_new : Sg ptr := new (mkObj "" [] (DVertexArray [])).

(** [new SgMesh]: SgMeshBase() clears isSolid_, the pointers are null and
    the box and the primitive are default-constructed. *)
Definition SgMesh_new : Sg ptr :=
  new (mkObj "" []
         (DMesh (mkMeshBase None None None None [] [] false BoundingBox_clear)
                [] Mesh)).

(** [vertices.push_back(v)] on an SgVertexArray *)
Definition push_back (this : ptr) (v : Vector3f) : Sg unit :=
  o ← getObj this;
  match data o with
  | DVertexArray l => putObj this (with_data (DVertexArray (l ++ [v])) o)
  | _ => fail
  end.

(** Assignment to the members triangleVertices_ and primitive_ of an
    SgMesh. *)
Definition modifyMesh (this : ptr)
    (f : list Z → Primitive → list Z * Primitive) : Sg unit :=
  o ← getObj this;
  match data o with
  | DMesh mb tv pr =>
      putObj this (with_data (DMesh mb (f tv pr).1 (f tv pr).2) o)
  | _ => fail
  end.

(** [triangleVertices_.clear()] *)
Definition clearTriangles (this : ptr) : Sg unit :=
  modifyMesh this (λ _ pr, ([], pr)).

(** addTriangle(v0, v1, v2), inline in SceneShape.h, appends the three
    indices to triangleVertices_. *)
Definition addTriangle (this : ptr) (v0 v1 v2 : Z) : Sg unit :=
  modifyMesh this (λ tv pr, (tv ++ [v0; v1; v2], pr)).

(** setPrimitive(p), and the assignment [primitive_ = p] *)
Definition setPrimitive (this : ptr) (p : Primitive) : Sg unit :=
  modifyMesh this (λ tv _, (tv, p)).

(** SgMeshBase::updateBoundingBox *)
Definition updateBoundingBox (this : ptr) : Sg unit :=
  o ← getObj this;
  match getMember meshBase_vertices (data o) with
  | Some vs =>
      b ← match vs with
          | None => mret BoundingBox_clear
          | Some v =>
              ov ← getObj v;
              match data ov with
              | DVertexArray l =>
                  mret (BoundingBox_of_f
                          (fold_left BoundingBoxf_expandBy l BoundingBoxf_clear))
              | _ => fail
              end
          end;
      o ← getObj this;
      match data o with
      | DMesh mb tv pr =>
          putObj this
            (with_data (DMesh (mkMeshBase (vertices_ mb) (normals_ mb)
                (colors_ mb) (texCoords_ mb) (normalIndices_ mb)
                (colorIndices_ mb) (isSolid_ mb) b) tv pr) o)
      | DPolygonMesh mb pv =>
          putObj this
            (with_data (DPolygonMesh (mkMeshBase (vertices_ mb) (normals_ mb)
                (colors_ mb) (texCoords_ mb) (normalIndices_ mb)
                (colorIndices_ mb) (isSolid_ mb) b) pv) o)
      | _ => fail
      end
  | None => fail
  end.

(** The test [size.x() < 0.0 || size.y() < 0.0 || size.z() < 0.0]. *)
Definition negative_size (size : Vector3) : bool :=
  (vx size <? 0)%float || (vy size <? 0)%float || (vz size <? 0)%float.

(** The eight corners pushed by setBox and generateBox, from the half
    extents narrowed to [float]. *)
Definition box_corners (size : Vector3) : list Vector3f :=
  let x := to_single (vx size * 0.5)%float in
  let y := to_single (vy size * 0.5)%float in
  let z := to_single (vz size * 0.5)%float in
  [ mkVector3f x y z;       mkVector3f (-x) y z;
    mkVector3f (-x) (-y) z; mkVector3f x (-y) z;
    mkVector3f x y (-z);    mkVector3f (-x) y (-z);
    mkVector3f (-x) (-y) (-z); mkVector3f x (-y) (-z) ]%float.

(** The twelve triangles of a box, in the order they are added. *)
Definition box_triangles : list (Z * Z * Z) :=
  [ (0,1,2); (2,3,0); (0,5,1); (0,4,5); (1,5,6); (1,6,2);
    (2,6,7); (2,7,3); (3,7,4); (3,4,0); (4,6,5); (4,7,6) ]%Z.

(** SgMesh::setBox *)
Definition setBox (this : ptr) (size : Vector3) : Sg bool :=
  if negative_size size then mret false
  else
    v ← SgVertexArray_new;
    setMember meshBase_vertices this (Some v);;
    forM_ (box_corners size) (push_back v);;
    clearTriangles this;;
    forM_ box_triangles (λ t, addTriangle this t.1.1 t.1.2 t.2);;
    setPrimitive this (Box size);;
    modify (MeshNormalGenerator_generateNormals this 0%float);;
    updateBoundingBox this;;
    mret true.

(** The members of MeshGenerator; [normalGenerator] tells whether the
    generator object has been created. *)
Record MeshGenerator := mkMeshGenerator {
  isNormanGenerationEnabled_ : bool;
  normalGenerator : bool;
  divisionNumber_ : Z;
}.

(** MeshGenerator::MeshGenerator() *)
Definition MeshGenerator_new : MeshGenerator := mkMeshGenerator true false 20.

(** MeshGenerator::generateNormals *)
Definition MeshGenerator_generateNormals (mesh : ptr) (creaseAngle : double)
  : M (MeshGenerator * State) unit :=
  mg ← gets fst;
  if isNormanGenerationEnabled_ mg then
    modify (λ gs, (mkMeshGenerator (isNormanGenerationEnabled_ gs.1) true
                                   (divisionNumber_ gs.1), gs.2));;
    liftSg (modify (MeshNormalGenerator_generateNormals mesh creaseAngle))
  else mret tt.

(** MeshGenerator::generateBox; the result is the null pointer or the new
    mesh. *)
Definition generateBox (size : Vector3) : M (MeshGenerator * State) (option ptr) :=
  if negative_size size then mret None
  else
    mesh ← liftSg SgMesh_new;
    v ← liftSg SgVertexArray_new;
    liftSg (setMember meshBase_vertices mesh (Some v));;
    liftSg (forM_ (box_corners size) (push_back v));;
    liftSg (forM_ box_triangles (λ t, addTriangle mesh t.1.1 t.1.2 t.2));;
    liftSg (setPrimitive mesh (Box size));;
    liftSg (updateBoundingBox mesh);;
    MeshGenerator_generateNormals mesh 0%float;;
    mret (Some mesh).

End Model.

Arguments SgObj {_}.
Arguments State {_}.
Arguments SgData {_}.
Arguments SgGroupData {_}.
Arguments MeshNormals {_}.
Arguments SceneVisitor {_} _.

Abbreviation Sg := (M State).
Abbreviation Cl := (M (SgCloneMap * State)).

(** ** A sample geometry

    Boxes as an optional pair of corners, and affine maps with a diagonal
    linear part and a translation. It serves to run the model on concrete
    scenes; the theorems below hold for every geometry. *)
Module Sample.

Definition fmin (a b : float) : float := if (b <? a)%float then b else a.
Definition fmax (a b : float) : float := if (a <? b)%float then b else a.

Definition Box3 : Type := option (Vector3 * Vector3).

Definition expandBy (a b : Box3) : Box3 :=
  match a, b with
  | None, _ => b
  | _, None => a
  | Some (lo, hi), Some (lo', hi') =>
      Some (mkVector3 (fmin (vx lo) (vx lo')) (fmin (vy lo) (vy lo'))
                      (fmin (vz lo) (vz lo')),
            mkVector3 (fmax (vx hi) (vx hi')) (fmax (vy hi) (vy hi'))
                      (fmax (vz hi) (vz hi')))
  end.

(** diagonal of the linear part, translation *)
Definition Affine : Type := Vector3 * Vector3.

Definition apply_affine (T : Affine) (v : Vector3) : Vector3 :=
  mkVector3 (vx T.1 * vx v + vx T.2) (vy T.1 * vy v + vy T.2)
            (vz T.1 * vz v + vz T.2)%float.

Definition transform (a : Box3) (T : Affine) : Box3 :=
  match a with
  | None => None
  | Some (lo, hi) => expandBy (Some (apply_affine T lo, apply_affine T lo))
                              (Some (apply_affine T hi, apply_affine T hi))
  end.

Definition expandByPoint (a : Box3) (v : Vector3f) : Box3 :=
  let p := mkVector3 (fx v) (fy v) (fz v) in expandBy a (Some (p, p)).

#[global] Instance geometry : Geometry := {
  BoundingBox := Box3;
  BoundingBox_clear := None;
  BoundingBox_expandBy := expandBy;
  Affine3 := Affine;
  Affine3_Identity := (mkVector3 1 1 1, mkVector3 0 0 0);
  Affine3_asDiagonal := λ s, (s, mkVector3 0 0 0);
  BoundingBox_transform := transform;
  BoundingBoxf := Box3;
  BoundingBoxf_clear := None;
  BoundingBoxf_expandBy := expandByPoint;
  BoundingBox_of_f := λ b, b;
}.

(** A normal generator that leaves the store as it is. *)
#[global] Instance normals : MeshNormals := {
  MeshNormalGenerator_generateNormals := λ _ _ s, s;
}.

(** The store with no object. *)
Definition no_object : State := mkState ∅ [].

(** [new SgGroup] and [new SgShape] *)
Definition SgGroup_new : Sg ptr :=
  new (mkObj "" [] (DGroup KGroup SgGroup_blank)).
Definition SgShape_new : Sg ptr :=
  new (mkObj "" [] (DShape (mkShape None None None))).
Definition SgPosTransform_new (T : Affine) : Sg ptr :=
  new (mkObj "" [] (DTransform (KPosTransform T) SgGroup_blank None)).

(** The store after a computation, or the store as it was if there is no
    result. *)
Definition after {A} (m : Sg A) (s : State) : State :=
  match m s with
  | Some (_, s') => s'
  | None => s
  end.

(** A shape over a new box mesh of size 2 x 2 x 2. *)
Definition new_box_shape : Sg ptr :=
  sh ← SgShape_new;
  m ← SgMesh_new;
  setBox m (mkVector3 2 2 2);;
  setMember shape_mesh sh (Some m);;
  mret sh.

(** A new group (address 1) whose box has been asked for, and a box shape
    (address 2, its mesh at 3) not yet added to it. *)
Definition valid_group_and_shape : State :=
  after (g ← SgGroup_new; boundingBox 1 g;; new_box_shape) no_object.

(** The same after [addChild(shape, false)]. *)
Definition stale_group : State :=
  after (addChild 0 1 (Some 2%positive) false) valid_group_and_shape.

(** A new group with the box shape added, the cache not yet computed. *)
Definition fresh_group : State :=
  after (g ← SgGroup_new; sh ← new_box_shape; addChild 3 g (Some sh) true)
        no_object.

(** The translation by (1, 0, 0). *)
Definition shift_x : Affine := (mkVector3 1 1 1, mkVector3 1 0 0).

(** A position transform (address 1) whose box has been asked for, then
    given the box shape by [addChild(shape, false)]. *)
Definition stale_transform : State :=
  after (t ← SgPosTransform_new shift_x; boundingBox 1 t;;
         sh ← new_box_shape; addChild 0 t (Some sh) false) no_object.

(** A position transform with the box shape added, the cache not yet
    computed. *)
Definition fresh_transform : State :=
  after (t ← SgPosTransform_new shift_x; sh ← new_box_shape;
         addChild 3 t (Some sh) true) no_object.

(** A ranking for stores whose children have higher addresses. *)
Definition rank_by_depth (p : ptr) : nat := 10 - Pos.to_nat p.

(** A ranking for stores whose owners have lower addresses. *)
Definition rank_by_address (p : ptr) : nat := Pos.to_nat p.

(** [new SgNode] *)
Definition plain_node : SgObj := mkObj "" [] DNode.

(** A store with a group at address 1 and a node without owner at 2. *)
Definition group_and_node : State :=
  mkState (<[1%positive := mkObj "" [] (DGroup KGroup SgGroup_blank)]>
            (<[2%positive := plain_node]> ∅)) [].

(** A group at address 1 whose children are the nodes 2, 3 and again 2. *)
Definition twice_child : State :=
  mkState (<[1%positive := mkObj "" []
               (DGroup KGroup (mkGroup [2; 3; 2]%positive false None))]>
          (<[2%positive := mkObj "" [1; 1]%positive DNode]>
          (<[3%positive := mkObj "" [1%positive] DNode]> ∅))) [].

(** A store with an SgFog at address 1 and an SgShape at address 2. *)
Definition fog_and_shape : State :=
  mkState (<[1%positive := mkObj "" [] DFog]>
          (<[2%positive := mkObj "" [] (DShape (mkShape None None None))]> ∅))
          [].

(** A store with one SgMesh, as [new SgMesh] leaves it, at address 1. *)
Definition one_mesh : State :=
  mkState (<[1%positive := mkObj "" []
               (DMesh (mkMeshBase None None None None [] [] false None)
                      [] Mesh)]> ∅) [].

Definition size_2_m1_3 : Vector3 := mkVector3 2 (-1) 3.
Definition size_2_2_2 : Vector3 := mkVector3 2 2 2.

(** Two shapes (addresses 1 and 2) over one box mesh (address 3, its
    vertex array at 4). *)
Definition two_shapes : State :=
  after (a ← SgShape_new; b ← SgShape_new; m ← SgMesh_new;
         setBox m size_2_2_2;;
         setMember shape_mesh a (Some m);;
         setMember shape_mesh b (Some m)) no_object.

(** A shape (address 1) over a new mesh (address 2). *)
Definition shape_over_mesh : State :=
  after (sh ← SgShape_new; m ← SgMesh_new;
         setMember shape_mesh sh (Some m)) no_object.

End Sample.

(** ** Observations used in the statements *)

(** The connectivity notifications in an event log: object and value. *)
Definition connections (evs : list Event) : list (ptr * bool) :=
  omap (λ e, match e with
             | SigGraphConnection p b => Some (p, b)
             | SigUpdated _ _ => None
             end) evs.

(** An object after invalidateBoundingBox(): the same object, the cache
    of a group declared not valid. *)
Definition invalidated `{Geometry} (o : SgObj) : SgObj :=
  match groupData (data o) with
  | Some g =>
      with_data (with_groupData (mkGroup (children g) false (bboxCache g))
                                (data o)) o
  | None => o
  end.

(** The relation between the stores before and after a walk of
    transferUpdate: each object is as it was or has its cache invalidated,
    and no connectivity notification was emitted. *)
Definition walked `{Geometry} (s s' : State) : Prop :=
  (∀ q, heap s' !! q = heap s !! q ∨
        heap s' !! q = invalidated <$> heap s !! q) ∧
  connections (events s') = connections (events s).

(** The owner links of a store form a DAG: every owner of an object is in
    the store, strictly lower in the ranking [rank] (the roots are lowest). *)
Definition owners_ranked `{Geometry} (rank : ptr → nat) (s : State) : Prop :=
  ∀ p o q, heap s !! p = Some o → q ∈ owners o →
           is_Some (heap s !! q) ∧ rank q < rank p.

(** The same as a check that can be run on a given store. *)
Definition owners_rankedb `{Geometry} (rank : ptr → nat) (s : State) : bool :=
  bool_decide (map_Forall (λ p o,
    Forall (λ q, is_Some (heap s !! q) ∧ rank q < rank p) (owners o)) (heap s)).

(** The connectivity notifications emitted between [s] and [s'] are
    exactly [l]. *)
Definition fires `{Geometry} (s s' : State) (l : list (ptr * bool)) : Prop :=
  connections (events s') = connections (events s) ++ l.

(** [this] is a group or transform of the store with children [cs]. *)
Definition has_children `{Geometry} (s : State) (this : ptr) (cs : list ptr)
  : Prop :=
  ∃ o g, heap s !! this = Some o ∧ groupData (data o) = Some g ∧
         children g = cs.

(** The position of the first occurrence of [node] in [l]. *)
Fixpoint first_index (node : ptr) (l : list ptr) : nat :=
  match l with
  | [] => 0
  | x :: l' => if decide (x = node) then 0 else S (first_index node l')
  end.

(** The removal of one occurrence of the child [node] of [this], as
    removeChild does it: the notification if asked for, the erasure of the
    first occurrence, one call of removeOwner. *)
Definition removeChild_step `{Geometry} (fuel : nat) (this node : ptr)
    (doNotify : bool) : Sg unit :=
  when doNotify (notifyUpdate fuel node REMOVED);;
  g ← getGroup this;
  eraseChildAt this (first_index node (children g));;
  removeOwner node this.

(** [k] times the computation [m]. *)
Fixpoint iterM {Σ} (k : nat) (m : M Σ unit) : M Σ unit :=
  match k with
  | O => mret tt
  | S k' => m;; iterM k' m
  end.

(** The number of occurrences of [node] in [l]. *)
Definition occurrences (node : ptr) (l : list ptr) : nat :=
  length (filter (λ c, c = node) l).

(** The classes that derive from SgNode. *)
Definition is_node `{Geometry} (d : SgData) : bool :=
  match d with
  | DNode | DGroup _ _ | DTransform _ _ _ | DShape _ | DPlot _ _
  | DPreprocessed | DLight _ _ | DCamera _ _ _ | DFog => true
  | _ => false
  end.

(** A [double] that compares below zero. *)
Definition negative (d : double) : Prop := (d <? 0)%float = true.

(** [this] is an SgMesh whose vertices_ is [v], an SgVertexArray of the
    store. *)
Definition mesh_with_vertices_at `{Geometry} (s : State) (this v : ptr)
  : Prop :=
  ∃ o mb tv pr ov l,
    heap s !! this = Some o ∧ data o = DMesh mb tv pr ∧
    vertices_ mb = Some v ∧ heap s !! v = Some ov ∧ data ov = DVertexArray l.

Definition mesh_with_vertices `{Geometry} (s : State) (this : ptr) : Prop :=
  ∃ v, mesh_with_vertices_at s this v.

(** [this] is an SgMesh whose vertices_, if not null, points into the
    store. *)
Definition mesh_in_store `{Geometry} (s : State) (this : ptr) : Prop :=
  ∃ o mb tv pr,
    heap s !! this = Some o ∧ data o = DMesh mb tv pr ∧
    ∀ v, vertices_ mb = Some v → is_Some (heap s !! v).

(** Total correctness: from a state in [P] the computation returns, with
    a result and a state in [Q]. *)
Definition returns {Σ A} (P : Σ → Prop) (m : M Σ A) (Q : A → Σ → Prop)
  : Prop :=
  ∀ s, P s → ∃ a s', m s = Some (a, s') ∧ Q a s'.

(** The loop of SgGroup::boundingBox over the children [cs] of [this],
    returning the boxes that the calls of boundingBox() on the children
    returned. *)
Fixpoint childBoxes `{Geometry} (fuel : nat) (this : ptr) (cs : list ptr)
  : Sg (list BoundingBox) :=
  match cs with
  | [] => mret []
  | c :: cs' =>
      b ← boundingBox fuel c;
      expandCache this b;;
      bs ← childBoxes fuel this cs';
      mret (b :: bs)
  end.

(** The union of boxes, as SgGroup::boundingBox accumulates it. *)
Definition union_boxes `{Geometry} (bs : list BoundingBox) : BoundingBox :=
  fold_left BoundingBox_expandBy bs BoundingBox_clear.

(** An object without what it caches: the boxes of a group are cleared and
    its flag is lowered. *)
Definition uncached `{Geometry} (o : SgObj) : SgObj :=
  match data o with
  | DGroup k g =>
      with_data (DGroup k (mkGroup (children g) false BoundingBox_clear)) o
  | DTransform k g _ =>
      with_data (DTransform k (mkGroup (children g) false BoundingBox_clear)
                            BoundingBox_clear) o
  | _ => o
  end.

(** The relation between the stores before and after a call of
    boundingBox(): the objects differ in their caches at most. *)
Definition cached `{Geometry} (s s' : State) : Prop :=
  (∀ q, uncached <$> heap s' !! q = uncached <$> heap s !! q) ∧
  events s' = events s.

(** The child links of a store form a DAG: every child of a group is
    strictly lower in the ranking (the leaves are lowest). *)
Definition children_ranked `{Geometry} (rank : ptr → nat) (s : State) : Prop :=
  ∀ p cs c, has_children s p cs → c ∈ cs → rank c < rank p.

(** [p] is a node of the store and, if it is a shape with a mesh, the mesh
    is an SgMesh of the store. *)
Definition boxable `{Geometry} (s : State) (p : ptr) : Prop :=
  ∃ o, heap s !! p = Some o ∧ is_node (data o) = true ∧
       ∀ sh m, data o = DShape sh → mesh_ sh = Some m →
               ∃ om mb tv pr, heap s !! m = Some om ∧ data om = DMesh mb tv pr.

(** Every child of every group is such a node. *)
Definition scene_ok `{Geometry} (s : State) : Prop :=
  ∀ p cs c, has_children s p cs → c ∈ cs → boxable s c.

(** The flag and the boxes of a group or transform at [p]. *)
Definition cache_valid `{Geometry} (s : State) (p : ptr) : option bool :=
  o ← heap s !! p; g ← groupData (data o); Some (isBboxCacheValid g).

(** boundingBox() with fuel [n] returns on the nodes of rank below [n],
    changes caches only, and leaves every object of higher rank than the
    node as it was. *)
Definition boundingBox_total `{Geometry} (rank : ptr → nat) (n : nat) : Prop :=
  ∀ p s, children_ranked rank s → scene_ok s → boxable s p → rank p < n →
         ∃ b s', boundingBox n p s = Some (b, s') ∧ cached s s' ∧
                 ∀ q, rank p < rank q → heap s' !! q = heap s !! q.

(** The same conditions as checks that can be run on a given store. *)
Definition children_rankedb `{Geometry} (rank : ptr → nat) (s : State) : bool :=
  bool_decide (map_Forall (λ p o,
    Forall (λ c, rank c < rank p)
           (default [] (children <$> groupData (data o)))) (heap s)).

Definition boxableb `{Geometry} (s : State) (p : ptr) : bool :=
  match heap s !! p with
  | Some o =>
      is_node (data o) &&
      match data o with
      | DShape sh =>
          match mesh_ sh with
          | Some m =>
              match data <$> heap s !! m with
              | Some (DMesh _ _ _) => true
              | _ => false
              end
          | None => true
          end
      | _ => true
      end
  | None => false
  end.

Definition scene_okb `{Geometry} (s : State) : bool :=
  bool_decide (map_Forall (λ p o,
    Forall (λ c, boxableb s c = true)
           (default [] (children <$> groupData (data o)))) (heap s)).

(** The child list of a group and the owner set of an object, empty when
    there is no such group or object. *)
Definition childrenOf `{Geometry} (s : State) (G : ptr) : list ptr :=
  default [] (children <$> (heap s !! G ≫= λ o, groupData (data o))).
Definition ownersOf `{Geometry} (s : State) (N : ptr) : list ptr :=
  default [] (owners <$> heap s !! N).
Definition is_group `{Geometry} (s : State) (G : ptr) : Prop :=
  is_Some (heap s !! G ≫= λ o, groupData (data o)).

(** Owner/child symmetry: for every group G and object N, N occurs in the
    child list of G exactly when G occurs in the owner set of N. *)
Definition owner_child_symmetric `{Geometry} (s : State) : Prop :=
  ∀ G N, is_group s G → (N ∈ childrenOf s G ↔ G ∈ ownersOf s N).

Definition owner_child_symmetricb `{Geometry} (s : State) : bool :=
  bool_decide (map_Forall (λ G o,
    is_Some (groupData (data o)) →
    Forall (λ N, G ∈ ownersOf s N) (childrenOf s G) ∧
    map_Forall (λ N oN, G ∈ owners oN → N ∈ childrenOf s G) (heap s))
    (heap s)).

(** ** Observations on clones *)

(** The members that the cloning constructor of the class carries over. *)
Definition cloned_members `{Geometry} (d : SgData) : list Member :=
  match d with
  | DTexture _ => [texture_image; texture_textureTransform]
  | DMesh _ _ _ | DPolygonMesh _ _ =>
      [meshBase_vertices; meshBase_normals; meshBase_colors]
  | DShape _ => [shape_mesh; shape_material; shape_texture]
  | DPlot _ _ => [plot_vertices; plot_colors; plot_material]
  | _ => []
  end.

(** [d] references [x]: as a child, or through a member that cloning
    carries over. *)
Definition references `{Geometry} (d : SgData) (x : ptr) : Prop :=
  (∃ g, groupData d = Some g ∧ x ∈ children g) ∨
  (∃ f, f ∈ cloned_members d ∧ getMember f d = Some (Some x)).

(** The value [v'] of a member of a clone, for the value [v] in the
    original: the clone held by the map when non-node cloning is enabled,
    the same pointer when it is not. *)
Definition member_clone (cm : SgCloneMap) (v v' : option ptr) : Prop :=
  match v with
  | None => v' = None
  | Some x =>
      if isNonNodeCloningEnabled_ cm
      then ∃ x', cloneMap cm !! x = Some x' ∧ v' = Some x'
      else v' = Some x
  end.

(** [d'] are the members of a clone of an object with members [d]: a
    group has for children the clones, held by the map, of the children of
    the original, in order; an object with payload has its members related
    by [member_clone]; any other object is a copy. *)
Definition clone_of `{Geometry} (cm : SgCloneMap) (d d' : SgData) : Prop :=
  match groupData d with
  | Some g =>
      ∃ g', groupData d' = Some g' ∧
            Forall2 (λ x x', cloneMap cm !! x = Some x')
                    (children g) (children g')
  | None =>
      cloned_members d' = cloned_members d ∧
      (cloned_members d = [] → d' = d) ∧
      ∀ f, f ∈ cloned_members d →
           ∃ v v', getMember f d = Some v ∧ getMember f d' = Some v' ∧
                   member_clone cm v v'
  end.

(** The store [s'] has every object of [s] other than [this], with its
    name and members; the owner sets may differ. *)
Definition grown `{Geometry} (this : option ptr) (s s' : State) : Prop :=
  ∀ p o, heap s !! p = Some o → Some p ≠ this →
         ∃ o', heap s' !! p = Some o' ∧ data o' = data o ∧ name_ o' = name_ o.

(** The invariant of a cloning operation that started in the store [s0]:
    the originals are as they were, and every entry of the map sends an
    original to an object that did not exist in [s0] and is a clone of
    it. *)
Definition clone_inv `{Geometry} (s0 : State) (st : SgCloneMap * State)
  : Prop :=
  grown None s0 st.2 ∧
  ∀ k c, cloneMap st.1 !! k = Some c →
         heap s0 !! c = None ∧
         ∃ ok oc, heap s0 !! k = Some ok ∧ heap st.2 !! c = Some oc ∧
                  clone_of st.1 (data ok) (data oc).

(** What a step of a cloning operation that builds the clone [this] of an
    original of rank [r] may do: keep the invariant, keep every object but
    [this], extend the map by originals of rank below [r] and by clones
    that did not exist before, none of them [this], and keep the flag. *)
Definition clone_step `{Geometry} (s0 : State) (rank : ptr → nat) (r : nat)
    (this : option ptr) (st st' : SgCloneMap * State) : Prop :=
  clone_inv s0 st' ∧
  grown this st.2 st'.2 ∧
  cloneMap st.1 ⊆ cloneMap st'.1 ∧
  isNonNodeCloningEnabled_ st'.1 = isNonNodeCloningEnabled_ st.1 ∧
  (∀ k, is_Some (cloneMap st'.1 !! k) →
        is_Some (cloneMap st.1 !! k) ∨ rank k < r) ∧
  (∀ k c, cloneMap st'.1 !! k = Some c →
          cloneMap st.1 !! k = Some c ∨ heap st.2 !! c = None) ∧
  (∀ k c, cloneMap st'.1 !! k = Some c → Some c ≠ this).

(** The references of the originals form a DAG inside the store [s0]:
    every child and every member that cloning carries over is in [s0],
    strictly lower in the ranking. *)
Definition refs_ranked `{Geometry} (rank : ptr → nat) (s0 : State) : Prop :=
  ∀ p o x, heap s0 !! p = Some o → references (data o) x →
           is_Some (heap s0 !! x) ∧ rank x < rank p.

Definition refs_rankedb `{Geometry} (rank : ptr → nat) (s0 : State) : bool :=
  bool_decide (map_Forall (λ p o,
    Forall (λ x, is_Some (heap s0 !! x) ∧ rank x < rank p)
      (default [] (children <$> groupData (data o)) ++
       omap (λ f, default None (getMember f (data o)))
            (cloned_members (data o)))) (heap s0)).

(** [d] references [x] in a way that cloning follows through the map: as
    a child, or, when non-node cloning is enabled, through a member. *)
Definition cloned_reference `{Geometry} (enabled : bool) (d : SgData)
    (x : ptr) : Prop :=
  (∃ g, groupData d = Some g ∧ x ∈ children g) ∨
  (enabled = true ∧
   ∃ f, f ∈ cloned_members d ∧ getMember f d = Some (Some x)).

(** The object behind the member [f] of [this]. *)
Definition payload `{Geometry} (s : State) (this : ptr) (f : Member)
  : option SgObj :=
  o ← heap s !! this; v ← getMember f (data o); x ← v; heap s !! x.

(** The store after a write of [o'] through the pointer [p]. *)
Definition written `{Geometry} (p : ptr) (o' : SgObj) (s : State) : State :=
  mkState (<[p := o']> (heap s)) (events s).

(** What is asked of [getClone] when it is used to build the clone of an
    original of rank [r]. *)
Definition getClone_ok `{Geometry} (s0 : State) (rank : ptr → nat) (r : nat)
    (getClone : ptr → Cl ptr) : Prop :=
  ∀ y st, is_Some (heap s0 !! y) → clone_inv s0 st → rank y < r →
          ∃ c st', getClone y st = Some (c, st') ∧
                   clone_step s0 rank (S (rank y)) None st st' ∧
                   cloneMap st'.1 !! y = Some c.

(** accept(visitor) on the node [this] is one call of the visit function
    [m] with [this] for argument: whatever the visitor, accept is that
    call, and a visitor that records its calls has recorded exactly that
    one. *)
Definition calls `{Geometry} (s : State) (this : ptr) (m : VisitMethod)
  : Prop :=
  (∀ V (vis : SceneVisitor V) (v : V),
     accept this (v, s) = visit m this (v, s)) ∧
  accept (visitor := recorder) this ([], s) = Some (tt, ([(m, this)], s)).

(** The indices that addTriangle appends for the triangles [ts], in
    order. *)
Definition triangle_indices (ts : list (Z * Z * Z)) : list Z :=
  flat_map (λ t, [t.1.1; t.1.2; t.2]) ts.

(** The store [s1] is the store [s] with two more objects, at the
    addresses [mesh] and [v] that [s] does not use: at [mesh] an SgMesh
    with no name and no owner, the box [bb], the triangle indices [tv] and
    the primitive [pr], whose vertices_ is [v] and whose other pointers are
    null; at [v] an SgVertexArray with the vertices [l], whose only owner
    is [mesh]. Every other address holds what it held, and the one signal
    emitted since [s] is the connectivity notification of [v]. *)
Definition mesh_built `{Geometry} (s s1 : State) (mesh v : ptr)
    (bb : BoundingBox) (tv : list Z) (pr : Primitive) (l : list Vector3f)
  : Prop :=
  heap s !! mesh = None ∧ heap s !! v = None ∧ mesh ≠ v ∧
  heap s1 !! mesh
  = Some (mkObj "" []
            (DMesh (mkMeshBase (Some v) None None None [] [] false bb) tv pr)) ∧
  heap s1 !! v = Some (mkObj "" [mesh] (DVertexArray l)) ∧
  (∀ p, p ≠ mesh → p ≠ v → heap s1 !! p = heap s !! p) ∧
  events s1 = events s ++ [SigGraphConnection v true].

(** * Properties *)

(** ** The monad *)

Section Monad.
Context {Σ : Type}.
Implicit Types s : Σ.

Lemma bind_unfold {A B} (m : M Σ A) (k : A → M Σ B) s :
  (m ≫= k) s = match m s with Some (a, s') => k a s' | None => None end.
Proof. reflexivity. Qed.

Lemma bind_Some {A B} (m : M Σ A) (k : A → M Σ B) s r :
  (m ≫= k) s = Some r ↔ ∃ a s', m s = Some (a, s') ∧ k a s' = Some r.
Proof.
  rewrite bind_unfold. destruct (m s) as [[a s']|]; split.
  - eauto.
  - by intros (? & ? & [= <- <-] & ?).
  - done.
  - by intros (? & ? & ? & ?).
Qed.

Lemma bind_step {A B} (m : M Σ A) (k : A → M Σ B) s a s' :
  m s = Some (a, s') → (m ≫= k) s = k a s'.
Proof. intros Hm. by rewrite bind_unfold, Hm. Qed.

Lemma bind_assoc {A B C} (m : M Σ A) (k : A → M Σ B) (k' : B → M Σ C) s :
  ((m ≫= k) ≫= k') s = (m ≫= λ a, k a ≫= k') s.
Proof. rewrite !bind_unfold. by destruct (m s) as [[a s']|]. Qed.

Lemma mret_unfold {A} (a : A) s : (mret a : M Σ A) s = Some (a, s).
Proof. reflexivity. Qed.

Lemma when_true (m : M Σ unit) : when true m = m.
Proof. reflexivity. Qed.

Lemma when_false (m : M Σ unit) s : when false m s = Some (tt, s).
Proof. reflexivity. Qed.

Lemma forM__app {A} (l1 l2 : list A) (f : A → M Σ unit) s :
  forM_ (l1 ++ l2) f s = (forM_ l1 f;; forM_ l2 f) s.
Proof.
  revert s. induction l1 as [|a l1 IH]; intros s; simpl.
  - reflexivity.
  - rewrite !bind_unfold. destruct (f a s) as [[[] s1]|]; [|done].
    rewrite IH. by rewrite bind_unfold.
Qed.

Lemma returns_ret {A} (P : Σ → Prop) (a : A) (Q : A → Σ → Prop) :
  (∀ s, P s → Q a s) → returns P (mret a) Q.
Proof. intros HQ s Hs. exists a, s. split; [done|]. by apply HQ. Qed.

Lemma returns_bind {A B} (P : Σ → Prop) (m : M Σ A) (R : A → Σ → Prop)
    (k : A → M Σ B) (Q : B → Σ → Prop) :
  returns P m R → (∀ a, returns (R a) (k a) Q) → returns P (m ≫= k) Q.
Proof.
  intros Hm Hk s Hs. destruct (Hm s Hs) as (a & s1 & Hrun & HR).
  destruct (Hk a s1 HR) as (b & s2 & Hrun' & HQ).
  exists b, s2. split; [|done]. by rewrite (bind_step _ _ _ _ _ Hrun).
Qed.

Lemma returns_weaken {A} (P P' : Σ → Prop) (m : M Σ A) (Q Q' : A → Σ → Prop) :
  returns P' m Q' → (∀ s, P s → P' s) → (∀ a s, Q' a s → Q a s) →
  returns P m Q.
Proof.
  intros Hm HP HQ s Hs. destruct (Hm s (HP s Hs)) as (a & s' & Hrun & Hq).
  eauto.
Qed.

Lemma returns_modify (P : Σ → Prop) (f : Σ → Σ) (Q : unit → Σ → Prop) :
  (∀ s, P s → Q tt (f s)) → returns P (modify f) Q.
Proof. intros HQ s Hs. exists tt, (f s). split; [done|]. by apply HQ. Qed.

(** A loop whose body keeps the invariant [I] returns and keeps it. *)
Lemma returns_forM_ {A} (I : Σ → Prop) (l : list A) (f : A → M Σ unit) :
  (∀ a, a ∈ l → returns I (f a) (λ _, I)) →
  returns I (forM_ l f) (λ _, I).
Proof.
  induction l as [|a l IH]; intros Hf; simpl.
  - by apply returns_ret.
  - eapply returns_bind; [apply Hf; set_solver|].
    intros []. apply IH. intros b Hb. apply Hf. set_solver.
Qed.

End Monad.

(** ** The store and SgObject *)

Section SgObject.
Context `{Geometry}.
Implicit Types (s : State) (o : SgObj) (p q this node : ptr).

Lemma getObj_lookup p s o : heap s !! p = Some o → getObj p s = Some (o, s).
Proof. unfold getObj. by intros ->. Qed.

Lemma getObj_Some p s o s' :
  getObj p s = Some (o, s') ↔ heap s !! p = Some o ∧ s' = s.
Proof.
  unfold getObj. destruct (heap s !! p); split; try naive_solver.
Qed.

Lemma getObj_None p s : heap s !! p = None → getObj p s = None.
Proof. unfold getObj. by intros ->. Qed.

Lemma getGroup_Some p s g s' :
  getGroup p s = Some (g, s') ↔
  ∃ o, heap s !! p = Some o ∧ groupData (data o) = Some g ∧ s' = s.
Proof.
  unfold getGroup. rewrite bind_Some. split.
  - intros (o & s1 & Ho%getObj_Some & Hg). destruct Ho as [Ho ->].
    destruct (groupData (data o)) eqn:E; [|done].
    injection Hg as <- <-. eauto.
  - intros (o & Ho & Hg & ->). exists o, s. rewrite Hg.
    split; [by apply getObj_lookup|done].
Qed.

Lemma groupData_with (d : SgData) g g' :
  groupData d = Some g → groupData (with_groupData g' d) = Some g'.
Proof. destruct d; simpl; congruence. Qed.

Lemma owners_insert_length node (l : list ptr) :
  length (owners_insert node l) = S (length l).
Proof.
  induction l as [|q l IH]; simpl; [done|].
  destruct (node <? q)%positive; simpl; by rewrite ?IH.
Qed.

Lemma elem_of_owners_insert node (l : list ptr) q :
  q ∈ owners_insert node l ↔ q = node ∨ q ∈ l.
Proof.
  induction l as [|x l IH]; simpl.
  - rewrite list_elem_of_singleton. set_solver.
  - destruct (node <? x)%positive; [set_solver|].
    rewrite !elem_of_cons, IH. naive_solver.
Qed.

Lemma elem_of_owners_erase node (l : list ptr) q :
  q ∈ owners_erase node l ↔ q ≠ node ∧ q ∈ l.
Proof. unfold owners_erase. by rewrite list_elem_of_filter. Qed.

Lemma connections_app evs evs' :
  connections (evs ++ evs') = connections evs ++ connections evs'.
Proof. unfold connections. apply omap_app. Qed.

(** What addOwner does to the store. *)
Lemma addOwner_eval this node s o :
  heap s !! this = Some o →
  addOwner this node s =
    Some (tt, mkState (<[this := with_owners (owners_insert node) o]> (heap s))
                      (if bool_decide (owners o = [])
                       then events s ++ [SigGraphConnection this true]
                       else events s)).
Proof.
  intros Ho. unfold addOwner.
  rewrite (bind_step _ _ _ _ _ (getObj_lookup _ _ _ Ho)).
  rewrite bind_unfold. simpl.
  rewrite bind_unfold. unfold getObj at 1. simpl. rewrite lookup_insert_eq.
  simpl. rewrite owners_insert_length.
  destruct (owners o) as [|q l]; reflexivity.
Qed.

(** What removeOwner does to the store. *)
Lemma removeOwner_eval this node s o :
  heap s !! this = Some o →
  removeOwner this node s =
    Some (tt, mkState (<[this := with_owners (owners_erase node) o]> (heap s))
                      (if bool_decide (owners_erase node (owners o) = [])
                       then events s ++ [SigGraphConnection this false]
                       else events s)).
Proof.
  intros Ho. unfold removeOwner.
  rewrite (bind_step _ _ _ _ _ (getObj_lookup _ _ _ Ho)).
  rewrite bind_unfold. simpl.
  rewrite bind_unfold. unfold getObj at 1. simpl. rewrite lookup_insert_eq.
  simpl. case_bool_decide; reflexivity.
Qed.

End SgObject.

(** ** Update walks *)

Section Walk.
Context `{Geometry}.
Implicit Types (s : State) (o : SgObj) (p q this node : ptr).

Lemma invalidated_idemp o : invalidated (invalidated o) = invalidated o.
Proof.
  unfold invalidated. destruct o as [n ow d].
  destruct d; simpl; reflexivity.
Qed.

Lemma invalidated_owners o : owners (invalidated o) = owners o.
Proof. unfold invalidated. by destruct (groupData (data o)). Qed.

Lemma invalidated_name o : name_ (invalidated o) = name_ o.
Proof. unfold invalidated. by destruct (groupData (data o)). Qed.

Lemma invalidated_groupData o g :
  groupData (data o) = Some g →
  groupData (data (invalidated o)) =
    Some (mkGroup (children g) false (bboxCache g)).
Proof.
  unfold invalidated. intros Hg. rewrite Hg.
  destruct o as [n ow d]. destruct d; simpl in *; congruence.
Qed.

Lemma invalidated_not_group o :
  groupData (data o) = None → invalidated o = o.
Proof. unfold invalidated. by intros ->. Qed.

Lemma walked_refl s : walked s s.
Proof. split; [by left|done]. Qed.

Lemma walked_trans s1 s2 s3 : walked s1 s2 → walked s2 s3 → walked s1 s3.
Proof.
  intros [H12 E12] [H23 E23]. split; [|congruence].
  intros q. destruct (H12 q) as [Hq|Hq], (H23 q) as [Hq'|Hq'];
    rewrite Hq', Hq; auto.
  right. destruct (heap s1 !! q) as [o|]; simpl; [|done].
  by rewrite invalidated_idemp.
Qed.

(** Once invalidated, an object stays so through further walks. *)
Lemma walked_invalidated s s' q :
  walked s s' →
  (∃ o, heap s !! q = Some (invalidated o)) →
  heap s' !! q = heap s !! q.
Proof.
  intros [Hw _] [o Ho]. destruct (Hw q) as [Hq|Hq]; [done|].
  rewrite Hq, Ho. simpl. by rewrite invalidated_idemp.
Qed.

Lemma walked_lookup s s' q o :
  walked s s' → heap s !! q = Some o →
  heap s' !! q = Some o ∨ heap s' !! q = Some (invalidated o).
Proof. intros [Hw _] Ho. destruct (Hw q) as [Hq|Hq]; rewrite Hq, Ho; auto. Qed.

Lemma walked_lookup_inv s s' q o' :
  walked s s' → heap s' !! q = Some o' →
  ∃ o, heap s !! q = Some o ∧ (o' = o ∨ o' = invalidated o).
Proof.
  intros [Hw _] Ho'. destruct (Hw q) as [Hq|Hq]; rewrite Hq in Ho'.
  - eauto.
  - destruct (heap s !! q) as [o|]; simplify_eq/=. eauto.
Qed.

Lemma walked_owners s s' q :
  walked s s' → owners <$> heap s' !! q = owners <$> heap s !! q.
Proof.
  intros [Hw _]. destruct (Hw q) as [Hq|Hq]; rewrite Hq; [done|].
  destruct (heap s !! q); simpl; [|done]. by rewrite invalidated_owners.
Qed.

Lemma invalidateBoundingBox_eval this s o :
  heap s !! this = Some o → is_Some (groupData (data o)) →
  invalidateBoundingBox this s =
    Some (tt, mkState (<[this := invalidated o]> (heap s)) (events s)).
Proof.
  intros Ho [g Hg]. unfold invalidateBoundingBox.
  assert (getGroup this s = Some (g, s)) as Hgg.
  { apply getGroup_Some. eauto. }
  rewrite (bind_step _ _ _ _ _ Hgg). unfold putGroup.
  rewrite (bind_step _ _ _ _ _ (getObj_lookup _ _ _ Ho)).
  unfold invalidated. rewrite Hg. reflexivity.
Qed.

Lemma walked_insert_invalidated s q o :
  heap s !! q = Some o →
  walked s (mkState (<[q := invalidated o]> (heap s)) (events s)).
Proof.
  intros Ho. split; [|done]. intros q'. simpl.
  destruct (decide (q = q')) as [<-|Hne].
  - right. by rewrite lookup_insert_eq, Ho.
  - left. by rewrite lookup_insert_ne.
Qed.

Lemma walked_emit_updated s p u :
  walked s (mkState (heap s) (events s ++ [SigUpdated p u])).
Proof.
  split; [by left|]. simpl. rewrite connections_app. simpl.
  by rewrite app_nil_r.
Qed.

(** A walk invalidates the object it starts from, and changes the rest of
    the store by invalidations only. *)
Lemma transferUpdate_walked fuel : ∀ this u s s',
  transferUpdate fuel this u s = Some (tt, s') →
  walked s s' ∧ heap s' !! this = invalidated <$> heap s !! this.
Proof.
  induction fuel as [|fuel IH]; intros this u s s' Hrun; [done|].
  simpl in Hrun.
  apply bind_Some in Hrun as (o & ? & [Ho ->]%getObj_Some & Hrun).
  apply bind_Some in Hrun as ([] & s1 & Hinv & Hrun).
  apply bind_Some in Hrun as ([] & s2 & [= <-] & Hrun).
  apply bind_Some in Hrun as (o2 & ? & [Ho2 ->]%getObj_Some & Hrun).
  (* the object after the invalidation step *)
  assert (walked s s1 ∧ heap s1 !! this = Some (invalidated o)) as [Hw1 Hthis1].
  { destruct (groupData (data o)) as [g|] eqn:Hg.
    - rewrite bool_decide_eq_true_2 in Hinv by eauto. simpl in Hinv.
      rewrite (invalidateBoundingBox_eval _ _ o) in Hinv by eauto.
      injection Hinv as <-. split; [by apply walked_insert_invalidated|].
      simpl. by rewrite lookup_insert_eq.
    - rewrite bool_decide_eq_false_2 in Hinv
        by (intros [? ?]; congruence).
      injection Hinv as <-. split; [apply walked_refl|].
      by rewrite invalidated_not_group. }
  set (s2 := mkState (heap s1) (events s1 ++ [SigUpdated this (push this u)]))
    in *.
  assert (walked s s2) as Hw2.
  { eapply walked_trans; [exact Hw1|]. apply walked_emit_updated. }
  assert (heap s2 !! this = Some (invalidated o)) as Hthis2 by done.
  clear Ho2 Hw1 Hthis1.
  revert Hrun. generalize (owners o2). intros l.
  revert Hw2 Hthis2. generalize s2. clear s2.
  induction l as [|q l IHl]; intros s2 Hw2 Hthis2 Hrun.
  - injection Hrun as <-. split; [done|]. by rewrite Hthis2, Ho.
  - simpl in Hrun.
    apply bind_Some in Hrun as ([] & s3 & Hq & Hrun).
    apply IH in Hq as [Hwq _].
    eapply IHl; [| |exact Hrun].
    + by eapply walked_trans.
    + erewrite walked_invalidated; eauto.
Qed.

Lemma forM_transferUpdate_walked fuel u (l : list ptr) : ∀ s s',
  forM_ l (λ p, transferUpdate fuel p u) s = Some (tt, s') →
  walked s s' ∧ ∀ q, q ∈ l → heap s' !! q = invalidated <$> heap s !! q.
Proof.
  induction l as [|p l IHl]; intros s s' Hrun.
  - injection Hrun as <-. split; [apply walked_refl|]. by intros q ?%elem_of_nil.
  - simpl in Hrun.
    apply bind_Some in Hrun as ([] & s1 & Hp & Hrun).
    apply transferUpdate_walked in Hp as [Hw1 Hp].
    apply IHl in Hrun as [Hw2 Hl].
    split; [by eapply walked_trans|].
    intros q [->|Hq]%elem_of_cons.
    + destruct (heap s !! p) as [o|] eqn:Ho; simpl in *.
      * erewrite walked_invalidated; eauto.
      * destruct (proj1 Hw2 p) as [E|E]; rewrite E, Hp; done.
    + rewrite (Hl q Hq). destruct (proj1 Hw1 q) as [E|E]; rewrite E; [done|].
      destruct (heap s !! q); simpl; [|done]. by rewrite invalidated_idemp.
Qed.

(** A walk invalidates every owner of the object it starts from. *)
Lemma transferUpdate_owners fuel this u s s' o q :
  transferUpdate fuel this u s = Some (tt, s') →
  heap s !! this = Some o → q ∈ owners o →
  heap s' !! q = invalidated <$> heap s !! q.
Proof.
  destruct fuel as [|fuel]; [done|]. intros Hrun Ho Hq. simpl in Hrun.
  apply bind_Some in Hrun as (o0 & ? & [Ho0 ->]%getObj_Some & Hrun).
  assert (o0 = o) as -> by congruence.
  apply bind_Some in Hrun as ([] & s1 & Hinv & Hrun).
  apply bind_Some in Hrun as ([] & s2 & [= <-] & Hrun).
  apply bind_Some in Hrun as (o2 & ? & [Ho2 ->]%getObj_Some & Hrun).
  assert (walked s s1 ∧ heap s1 !! this = Some (invalidated o)) as [Hw1 Hthis1].
  { destruct (groupData (data o)) as [g|] eqn:Hg.
    - rewrite bool_decide_eq_true_2 in Hinv by eauto. simpl in Hinv.
      rewrite (invalidateBoundingBox_eval _ _ o) in Hinv by eauto.
      injection Hinv as <-. split; [by apply walked_insert_invalidated|].
      simpl. by rewrite lookup_insert_eq.
    - rewrite bool_decide_eq_false_2 in Hinv
        by (intros [? ?]; congruence).
      injection Hinv as <-. split; [apply walked_refl|].
      by rewrite invalidated_not_group. }
  cbn [heap] in Ho2. rewrite Hthis1 in Ho2. injection Ho2 as <-.
  rewrite invalidated_owners in Hrun.
  apply forM_transferUpdate_walked in Hrun as [_ Hall].
  rewrite (Hall q Hq). cbn [heap].
  destruct (proj1 Hw1 q) as [E|E]; rewrite E; [done|].
  destruct (heap s !! q); simpl; [|done]. by rewrite invalidated_idemp.
Qed.

Lemma walked_ranked rank s s' :
  walked s s' → owners_ranked rank s → owners_ranked rank s'.
Proof.
  intros Hw Hr p o' q Ho' Hq.
  destruct (walked_lookup_inv _ _ _ _ Hw Ho') as (o & Ho & Hoo).
  assert (q ∈ owners o) as Hq'.
  { destruct Hoo as [->| ->]; [done|]. by rewrite invalidated_owners in Hq. }
  destruct (Hr p o q Ho Hq') as [[oq Hoq] Hlt]. split; [|done].
  destruct (walked_lookup _ _ _ _ Hw Hoq) as [E|E]; rewrite E; eauto.
Qed.

(** On a DAG of owner links a walk returns, given fuel above the rank of
    its starting point. *)
Lemma transferUpdate_returns rank fuel : ∀ this u s,
  owners_ranked rank s → is_Some (heap s !! this) → rank this < fuel →
  ∃ s', transferUpdate fuel this u s = Some (tt, s').
Proof.
  induction fuel as [|fuel IH]; intros this u s Hr [o Ho] Hlt; [lia|].
  simpl. rewrite (bind_step _ _ _ _ _ (getObj_lookup _ _ _ Ho)).
  assert (∃ s1, when (bool_decide (is_Some (groupData (data o))))
                     (invalidateBoundingBox this) s = Some (tt, s1) ∧
                walked s s1 ∧ heap s1 !! this = Some (invalidated o))
    as (s1 & -> %(bind_step _ _ _ _ _) & Hw1 & Hthis1).
  { destruct (groupData (data o)) as [g|] eqn:Hg.
    - rewrite bool_decide_eq_true_2 by eauto. simpl.
      rewrite (invalidateBoundingBox_eval _ _ o) by eauto.
      eexists. split; [done|]. split; [by apply walked_insert_invalidated|].
      simpl. by rewrite lookup_insert_eq.
    - rewrite bool_decide_eq_false_2 by (intros [? ?]; congruence).
      exists s. split; [done|]. split; [apply walked_refl|].
      by rewrite invalidated_not_group. }
  rewrite bind_unfold. simpl.
  set (s2 := mkState (heap s1) (events s1 ++ [SigUpdated this (push this u)])).
  assert (walked s s2) as Hw2.
  { eapply walked_trans; [exact Hw1|]. apply walked_emit_updated. }
  assert (heap s2 !! this = Some (invalidated o)) as Hthis2 by done.
  rewrite (bind_step _ _ _ _ _ (getObj_lookup _ _ _ Hthis2)).
  rewrite invalidated_owners.
  assert (∀ q, q ∈ owners o → is_Some (heap s !! q) ∧ rank q < fuel) as Hown.
  { intros q Hq. destruct (Hr this o q Ho Hq). split; [done|lia]. }
  clear Hthis2 Hthis1 Hw1. revert Hown Hw2. generalize s2 (owners o).
  clear s2. intros s2 l. revert s2.
  induction l as [|q l IHl]; intros s2 Hown Hw2; simpl; [eauto|].
  destruct (Hown q) as [[oq Hoq] Hq]; [set_solver|].
  destruct (IH q (push this u) s2) as [s3 Hs3]; [| |done|].
  { by eapply walked_ranked. }
  { destruct (walked_lookup _ _ _ _ Hw2 Hoq) as [E|E]; rewrite E; eauto. }
  rewrite (bind_step _ _ _ _ _ Hs3).
  apply IHl; [set_solver|].
  eapply walked_trans; [exact Hw2|]. by apply transferUpdate_walked in Hs3 as [].
Qed.

End Walk.

(** ** Connectivity notifications *)

Section Connectivity.
Context `{Geometry}.
Implicit Types (s : State) (o : SgObj) (p q this node : ptr).

Lemma owners_rankedb_ok rank s :
  owners_rankedb rank s = true → owners_ranked rank s.
Proof.
  intros Hb%bool_decide_eq_true_1 p o q Ho Hq.
  specialize (Hb p o Ho). simpl in Hb.
  rewrite Forall_forall in Hb. by apply Hb.
Qed.

Lemma fires_nil s s' : fires s s' [] ↔ connections (events s') = connections (events s).
Proof. unfold fires. by rewrite app_nil_r. Qed.

Lemma addOwner_fires this node s o :
  heap s !! this = Some o →
  ∃ s', addOwner this node s = Some (tt, s') ∧
        fires s s' (if bool_decide (owners o = []) then [(this, true)] else []).
Proof.
  intros Ho. rewrite (addOwner_eval _ _ _ _ Ho). eexists. split; [done|].
  unfold fires. simpl. case_bool_decide.
  - rewrite connections_app. reflexivity.
  - by rewrite app_nil_r.
Qed.

Lemma removeOwner_fires this node s o :
  heap s !! this = Some o →
  ∃ s', removeOwner this node s = Some (tt, s') ∧
        fires s s' (if bool_decide (owners_erase node (owners o) = [])
                    then [(this, false)] else []).
Proof.
  intros Ho. rewrite (removeOwner_eval _ _ _ _ Ho). eexists. split; [done|].
  unfold fires. simpl. case_bool_decide.
  - rewrite connections_app. reflexivity.
  - by rewrite app_nil_r.
Qed.

(** The store after [owners.insert(node)] on [this]. *)
Lemma insert_owner_ranked rank this node s o :
  heap s !! this = Some o → owners_ranked rank s →
  is_Some (heap s !! node) → rank node < rank this →
  owners_ranked rank
    (mkState (<[this := with_owners (owners_insert node) o]> (heap s))
             (events s)).
Proof.
  intros Ho Hr [onode Hnode] Hlt p o' q. simpl.
  assert (∀ q', is_Some (heap s !! q') →
    is_Some (<[this := with_owners (owners_insert node) o]> (heap s) !! q'))
    as Hdom.
  { intros q' Hq'. destruct (decide (this = q')) as [<-|Hne].
    - rewrite lookup_insert_eq. eauto.
    - by rewrite lookup_insert_ne. }
  destruct (decide (this = p)) as [<-|Hne].
  - rewrite lookup_insert_eq. intros [= <-]. simpl.
    intros [->|Hq]%elem_of_owners_insert.
    + split; [apply Hdom; eauto|done].
    + destruct (Hr this o q Ho Hq). split; [by apply Hdom|done].
  - rewrite lookup_insert_ne by done. intros Ho' Hq.
    destruct (Hr p o' q Ho' Hq). split; [by apply Hdom|done].
Qed.

Lemma addOwner_update_fires rank fuel this node u s o :
  heap s !! this = Some o → owners_ranked rank s →
  is_Some (heap s !! node) → rank node < rank this < fuel →
  ∃ s', addOwner_update fuel this node u s = Some (tt, s') ∧
        fires s s' (if bool_decide (owners o = []) then [(this, true)] else []).
Proof.
  intros Ho Hr Hnode [Hlt Hfuel]. unfold addOwner_update.
  rewrite (bind_step _ _ _ _ _ (getObj_lookup _ _ _ Ho)).
  rewrite bind_unfold. simpl.
  set (s1 := mkState (<[this := with_owners (owners_insert node) o]> (heap s))
                     (events s)).
  destruct (transferUpdate_returns rank fuel this u s1) as [s2 Hs2];
    [by apply insert_owner_ranked| |done|].
  { simpl. rewrite lookup_insert_eq. eauto. }
  rewrite (bind_step _ _ _ _ _ Hs2).
  apply transferUpdate_walked in Hs2 as [[_ Hev] Hthis].
  simpl in Hthis. rewrite lookup_insert_eq in Hthis. simpl in Hthis.
  rewrite (bind_step _ _ _ _ _ (getObj_lookup _ _ _ Hthis)).
  rewrite invalidated_owners. simpl. rewrite owners_insert_length.
  unfold fires. destruct (owners o) as [|q l]; simpl.
  - eexists. split; [reflexivity|]. simpl. rewrite connections_app, Hev.
    reflexivity.
  - eexists. split; [reflexivity|]. by rewrite Hev, app_nil_r.
Qed.

(** C5. Adding an owner to an object with no owner emits the connectivity
    notification once, with true; removing the last owner emits it once,
    with false; an addition to an object that has an owner and a removal
    that leaves an owner emit none. This holds for both overloads of
    addOwner; the one that propagates an update returns on a DAG of owner
    links. *)
Theorem connectivity_notification rank fuel this node u s o :
  heap s !! this = Some o → owners_ranked rank s →
  is_Some (heap s !! node) → rank node < rank this < fuel →
  (∃ s1 s2 s3,
      addOwner this node s = Some (tt, s1) ∧
      addOwner_update fuel this node u s = Some (tt, s2) ∧
      removeOwner this node s = Some (tt, s3) ∧
      (owners o = [] → fires s s1 [(this, true)] ∧ fires s s2 [(this, true)]) ∧
      (owners o ≠ [] → fires s s1 [] ∧ fires s s2 []) ∧
      (owners o ≠ [] → owners_erase node (owners o) = [] →
         fires s s3 [(this, false)]) ∧
      (owners_erase node (owners o) ≠ [] → fires s s3 [])).
Proof.
  intros Ho Hr Hnode Hlt.
  destruct (addOwner_fires this node s o Ho) as (s1 & Hs1 & F1).
  destruct (addOwner_update_fires rank fuel this node u s o Ho Hr Hnode Hlt)
    as (s2 & Hs2 & F2).
  destruct (removeOwner_fires this node s o Ho) as (s3 & Hs3 & F3).
  exists s1, s2, s3. repeat split; try done.
  - by rewrite bool_decide_eq_true_2 in F1.
  - by rewrite bool_decide_eq_true_2 in F2.
  - by rewrite bool_decide_eq_false_2 in F1.
  - by rewrite bool_decide_eq_false_2 in F2.
  - intros _ E. by rewrite bool_decide_eq_true_2 in F3.
  - intros E. by rewrite bool_decide_eq_false_2 in F3.
Qed.

End Connectivity.

(** ** SgGroup::removeChild *)

Section RemoveChild.
Context `{Geometry}.
Implicit Types (s : State) (o : SgObj) (this node : ptr).

Lemma has_children_getGroup s this cs :
  has_children s this cs → ∃ g, getGroup this s = Some (g, s) ∧ children g = cs.
Proof.
  intros (o & g & Ho & Hg & Hcs). exists g. split; [|done].
  apply getGroup_Some. eauto.
Qed.

Lemma walked_has_children s s' this cs :
  walked s s' → has_children s this cs → has_children s' this cs.
Proof.
  intros Hw (o & g & Ho & Hg & Hcs).
  destruct (walked_lookup _ _ _ _ Hw Ho) as [E|E].
  - by exists o, g.
  - eexists _, _. split; [exact E|]. split; [by apply invalidated_groupData|done].
Qed.

Lemma notify_has_children fuel node a (doNotify : bool) s s' this cs :
  when doNotify (notifyUpdate fuel node a) s = Some (tt, s') →
  has_children s this cs → has_children s' this cs.
Proof.
  destruct doNotify; simpl.
  - intros [Hw _]%transferUpdate_walked. by apply walked_has_children.
  - by intros [= <-].
Qed.

Lemma eraseChildAt_eval s this cs i :
  has_children s this cs →
  ∃ s', eraseChildAt this i s = Some (tt, s') ∧
        has_children s' this (delete i cs) ∧
        events s' = events s ∧
        ∀ q, q ≠ this → heap s' !! q = heap s !! q.
Proof.
  intros (o & g & Ho & Hg & Hcs). unfold eraseChildAt.
  assert (getGroup this s = Some (g, s)) as Hgg by (apply getGroup_Some; eauto).
  rewrite (bind_step _ _ _ _ _ Hgg). unfold putGroup.
  rewrite (bind_step _ _ _ _ _ (getObj_lookup _ _ _ Ho)).
  eexists. split; [reflexivity|]. split; [|split; [done|]].
  - eexists _, _. simpl. rewrite lookup_insert_eq. split; [done|].
    simpl. rewrite (groupData_with _ _ _ Hg). split; [done|].
    simpl. by rewrite Hcs.
  - intros q Hq. simpl. by rewrite lookup_insert_ne.
Qed.

Lemma removeOwner_has_children s s' child node this cs :
  removeOwner child node s = Some (tt, s') →
  has_children s this cs → has_children s' this cs.
Proof.
  intros Hrm (o & g & Ho & Hg & Hcs).
  destruct (heap s !! child) as [oc|] eqn:Hoc.
  - rewrite (removeOwner_eval _ _ _ _ Hoc) in Hrm. injection Hrm as <-.
    destruct (decide (child = this)) as [->|Hne].
    + simplify_eq. eexists _, _. simpl. rewrite lookup_insert_eq.
      split; [done|]. by split.
    + exists o, g. simpl. by rewrite lookup_insert_ne.
  - unfold removeOwner in Hrm. by rewrite bind_unfold, (getObj_None _ _ Hoc) in Hrm.
Qed.

Lemma first_index_prefix node (l : list ptr) i :
  l !! i = Some node → node ∉ take i l → first_index node l = i.
Proof.
  revert i. induction l as [|x l IH]; intros [|i]; simpl; try done.
  - intros [= ->] _. by rewrite decide_True.
  - intros Hi Hnot. rewrite not_elem_of_cons in Hnot. destruct Hnot as [Hne Hnot].
    rewrite decide_False by done. f_equal. by apply IH.
Qed.

Lemma occurrences_cons_eq node (l : list ptr) :
  occurrences node (node :: l) = S (occurrences node l).
Proof. unfold occurrences. by rewrite filter_cons_True. Qed.

Lemma occurrences_cons_ne node x (l : list ptr) :
  x ≠ node → occurrences node (x :: l) = occurrences node l.
Proof. intros Hne. unfold occurrences. by rewrite filter_cons_False. Qed.

Lemma occurrences_pos node (l : list ptr) :
  0 < occurrences node l ↔ node ∈ l.
Proof.
  induction l as [|x l IH].
  - unfold occurrences. simpl. split; [lia|by intros ?%elem_of_nil].
  - destruct (decide (x = node)) as [->|Hne].
    + rewrite occurrences_cons_eq. split; [set_solver|lia].
    + rewrite occurrences_cons_ne by done. set_solver.
Qed.

(** The loop from position [p] on, when no occurrence lies before [p]:
    one step per occurrence, and the children that remain. *)
Lemma removeChild_loop_spec fuel this node doNotify n :
  ∀ p removed s cs,
  has_children s this cs → node ∉ take p cs → length cs ≤ n + p →
  removeChild_loop n fuel this node doNotify p removed s
  = (iterM (occurrences node (drop p cs))
           (removeChild_step fuel this node doNotify);;
     mret (removed || bool_decide (node ∈ drop p cs))) s
  ∧ ∀ r s', removeChild_loop n fuel this node doNotify p removed s
            = Some (r, s') →
            has_children s' this (take p cs ++ filter (λ c, c ≠ node) (drop p cs)).
Proof.
  induction n as [|n IH]; intros p removed s cs Hcs Hpre Hlen.
  - (* no element is left *)
    assert (drop p cs = []) as Hdrop by (apply drop_ge; lia).
    assert (cs !! p = None) as Hp by (apply lookup_ge_None; lia).
    destruct (has_children_getGroup _ _ _ Hcs) as (g & Hg & Hgcs).
    simpl. rewrite (bind_step _ _ _ _ _ Hg), Hgcs, Hp, Hdrop.
    split.
    + rewrite bind_unfold. simpl. by rewrite mret_unfold, orb_false_r.
    + intros r s' [= <- <-]. simpl. rewrite app_nil_r.
      by rewrite take_ge by lia.
  - destruct (has_children_getGroup _ _ _ Hcs) as (g & Hg & Hgcs).
    simpl. rewrite (bind_step _ _ _ _ _ Hg), Hgcs.
    destruct (cs !! p) as [child|] eqn:Hp.
    + pose proof (drop_S _ _ _ Hp) as Hdrop. rewrite Hdrop.
      case_bool_decide as Hchild.
      * (* the element at [p] is [node] *)
        subst child. rewrite occurrences_cons_eq. simpl.
        set (rest := iterM _ _).
        unfold removeChild_step. rewrite !bind_assoc.
        rewrite !(bind_unfold (when _ _)).
        destruct (when doNotify (notifyUpdate fuel node REMOVED) s)
          as [[[] s1]|] eqn:Hnotify; [|by split].
        pose proof (notify_has_children _ _ _ _ _ _ _ _ Hnotify Hcs) as Hcs1.
        destruct (has_children_getGroup _ _ _ Hcs1) as (g1 & Hg1 & Hgcs1).
        rewrite !bind_assoc, (bind_step _ _ _ _ _ Hg1), Hgcs1.
        rewrite (first_index_prefix _ _ _ Hp Hpre).
        destruct (eraseChildAt_eval s1 this cs p Hcs1)
          as (s2 & Herase & Hcs2 & _).
        rewrite !bind_assoc, !(bind_step _ _ _ _ _ Herase).
        rewrite !(bind_unfold (removeOwner _ _)).
        destruct (removeOwner node this s2) as [[[] s3]|] eqn:Hrm; [|by split].
        pose proof (removeOwner_has_children _ _ _ _ _ _ Hrm Hcs2) as Hcs3.
        assert (take p (delete p cs) = take p cs) as Htake.
        { pose proof (lookup_lt_Some _ _ _ Hp). rewrite delete_take_drop.
          rewrite take_app_le by (rewrite length_take; lia).
          rewrite take_take. f_equal. lia. }
        assert (drop p (delete p cs) = drop (S p) cs) as Hdrop'.
        { pose proof (lookup_lt_Some _ _ _ Hp). rewrite delete_take_drop.
          apply drop_app_length'. rewrite length_take. lia. }
        destruct (IH p true s3 (delete p cs)) as [IH1 IH2]; [done| | |].
        { by rewrite Htake. }
        { rewrite (length_delete _ p) by eauto. lia. }
        rewrite Htake, Hdrop' in IH2. rewrite Hdrop' in IH1.
        fold rest in IH1. split.
        -- rewrite IH1. rewrite !bind_unfold.
           destruct (rest s3) as [[[] s4]|]; [|done].
           rewrite !mret_unfold. do 2 f_equal.
           rewrite (bool_decide_eq_true_2 (node ∈ node :: _)) by set_solver.
           by rewrite orb_true_r.
        -- intros r s' Hrun. rewrite filter_cons_False by naive_solver.
           by eapply IH2.
      * (* the element at [p] is another child *)
        rewrite occurrences_cons_ne by done.
        destruct (IH (S p) removed s cs) as [IH1 IH2]; [done| |lia|].
        { rewrite (take_S_r _ _ _ Hp). rewrite not_elem_of_app.
          split; [done|]. by intros ->%list_elem_of_singleton. }
        split.
        -- rewrite IH1. rewrite !bind_unfold.
           destruct (iterM _ _ s) as [[[] s4]|]; [|done].
           rewrite !mret_unfold. do 3 f_equal.
           apply bool_decide_ext. set_solver.
        -- intros r s' Hrun. rewrite filter_cons_True by done.
           rewrite (take_S_r _ _ _ Hp) in IH2.
           rewrite <- app_assoc in IH2. by eapply IH2.
    + assert (drop p cs = []) as Hdrop.
      { apply drop_ge. by apply lookup_ge_None. }
      rewrite Hdrop. split.
      * rewrite bind_unfold. simpl. by rewrite !mret_unfold, orb_false_r.
      * intros r s' [= <- <-]. simpl. rewrite app_nil_r.
        apply lookup_ge_None in Hp. by rewrite take_ge by lia.
Qed.

(** A step that keeps the store's domain and does not add owners keeps
    the ranking of the owner links. *)
Lemma owners_ranked_mono rank s s' :
  (∀ q, is_Some (heap s !! q) → is_Some (heap s' !! q)) →
  (∀ q o', heap s' !! q = Some o' →
           ∃ o, heap s !! q = Some o ∧ owners o' ⊆ owners o) →
  owners_ranked rank s → owners_ranked rank s'.
Proof.
  intros Hdom Hown Hr q o' x Ho' Hx.
  destruct (Hown q o' Ho') as (o & Ho & Hsub).
  destruct (Hr q o x Ho (Hsub x Hx)) as [Hx' Hlt]. split; [by apply Hdom|done].
Qed.

Lemma eraseChildAt_ranked rank s s' this i :
  eraseChildAt this i s = Some (tt, s') →
  (owners_ranked rank s → owners_ranked rank s') ∧
  (∀ q, is_Some (heap s !! q) → is_Some (heap s' !! q)).
Proof.
  unfold eraseChildAt. intros Hrun.
  apply bind_Some in Hrun as (g & ? & (o & Ho & Hg & ->)%getGroup_Some & Hrun).
  unfold putGroup in Hrun.
  rewrite (bind_step _ _ _ _ _ (getObj_lookup _ _ _ Ho)) in Hrun.
  injection Hrun as <-.
  assert (∀ q, is_Some (heap s !! q) →
    is_Some (<[this:=with_data (with_groupData
       (mkGroup (delete i (children g)) (isBboxCacheValid g) (bboxCache g))
       (data o)) o]> (heap s) !! q)) as Hdom.
  { intros q Hq. destruct (decide (this = q)) as [<-|Hne].
    - rewrite lookup_insert_eq. eauto.
    - by rewrite lookup_insert_ne. }
  split; [|done]. apply owners_ranked_mono; [done|].
  intros q o'. simpl. destruct (decide (this = q)) as [<-|Hne].
  - rewrite lookup_insert_eq. intros [= <-]. eauto.
  - rewrite lookup_insert_ne by done. eauto.
Qed.

Lemma removeOwner_ranked rank s s' child node :
  removeOwner child node s = Some (tt, s') →
  (owners_ranked rank s → owners_ranked rank s') ∧
  (∀ q, is_Some (heap s !! q) → is_Some (heap s' !! q)).
Proof.
  intros Hrm. destruct (heap s !! child) as [oc|] eqn:Hoc.
  - rewrite (removeOwner_eval _ _ _ _ Hoc) in Hrm. injection Hrm as <-.
    assert (∀ q, is_Some (heap s !! q) →
      is_Some (<[child:=with_owners (owners_erase node) oc]> (heap s) !! q))
      as Hdom.
    { intros q Hq. destruct (decide (child = q)) as [<-|Hne].
      - rewrite lookup_insert_eq. eauto.
      - by rewrite lookup_insert_ne. }
    split; [|done]. apply owners_ranked_mono; [done|].
    intros q o'. simpl. destruct (decide (child = q)) as [<-|Hne].
    + rewrite lookup_insert_eq. intros [= <-]. exists oc. split; [done|].
      simpl. intros x [_ Hx]%elem_of_owners_erase. done.
    + rewrite lookup_insert_ne by done. eauto.
  - unfold removeOwner in Hrm.
    by rewrite bind_unfold, (getObj_None _ _ Hoc) in Hrm.
Qed.

(** One removal step returns: always without notification, and on a DAG
    of owner links with it. *)
Lemma removeChild_step_returns rank fuel this node (doNotify : bool) s cs :
  has_children s this cs → is_Some (heap s !! node) →
  (doNotify = true → owners_ranked rank s ∧ rank node < fuel) →
  ∃ s', removeChild_step fuel this node doNotify s = Some (tt, s') ∧
        has_children s' this (delete (first_index node cs) cs) ∧
        is_Some (heap s' !! node) ∧
        (owners_ranked rank s → owners_ranked rank s').
Proof.
  intros Hcs Hnode Hnotify. unfold removeChild_step.
  assert (∃ s1, when doNotify (notifyUpdate fuel node REMOVED) s = Some (tt, s1)
                ∧ walked s s1) as (s1 & Hs1 & Hw).
  { destruct doNotify; simpl.
    - destruct Hnotify as [Hr Hlt]; [done|].
      destruct (transferUpdate_returns rank fuel node (SgUpdate_new REMOVED) s)
        as [s1 Hs1]; [done..|].
      exists s1. split; [done|]. by apply transferUpdate_walked in Hs1 as [].
    - exists s. split; [done|apply walked_refl]. }
  rewrite (bind_step _ _ _ _ _ Hs1).
  pose proof (walked_has_children _ _ _ _ Hw Hcs) as Hcs1.
  destruct (has_children_getGroup _ _ _ Hcs1) as (g1 & Hg1 & Hgcs1).
  rewrite (bind_step _ _ _ _ _ Hg1), Hgcs1.
  destruct (eraseChildAt_eval s1 this cs (first_index node cs) Hcs1)
    as (s2 & Herase & Hcs2 & _).
  rewrite (bind_step _ _ _ _ _ Herase).
  destruct (eraseChildAt_ranked rank _ _ _ _ Herase) as [Hr2 Hdom2].
  assert (is_Some (heap s2 !! node)) as [on Hon].
  { apply Hdom2. destruct Hnode as [on Hon].
    destruct (walked_lookup _ _ _ _ Hw Hon) as [E|E]; rewrite E; eauto. }
  rewrite (removeOwner_eval _ _ _ _ Hon). eexists. split; [done|].
  pose proof (removeOwner_eval _ this _ _ Hon) as Hrm.
  destruct (removeOwner_ranked rank _ _ _ _ Hrm) as [Hr3 Hdom3].
  split; [by eapply removeOwner_has_children|].
  split; [apply Hdom3; eauto|].
  intros Hr. apply Hr3, Hr2. by eapply walked_ranked.
Qed.

Lemma occurrences_delete_first node (cs : list ptr) :
  node ∈ cs →
  occurrences node cs = S (occurrences node (delete (first_index node cs) cs)).
Proof.
  induction cs as [|x cs IH]; [by intros ?%elem_of_nil|]. simpl.
  destruct (decide (x = node)) as [->|Hne].
  - intros _. simpl. by rewrite occurrences_cons_eq.
  - intros [?|Hin]%elem_of_cons; [congruence|]. simpl.
    rewrite !occurrences_cons_ne by done. by apply IH.
Qed.

Lemma iterM_step_returns rank fuel this node (doNotify : bool) k :
  ∀ s cs,
  has_children s this cs → occurrences node cs = k →
  is_Some (heap s !! node) →
  (doNotify = true → owners_ranked rank s ∧ rank node < fuel) →
  is_Some (iterM k (removeChild_step fuel this node doNotify) s).
Proof.
  induction k as [|k IH]; intros s cs Hcs Hk Hnode Hnotify; simpl; [eauto|].
  destruct (removeChild_step_returns rank fuel this node doNotify s cs)
    as (s' & Hs' & Hcs' & Hnode' & Hr'); [done..|].
  rewrite (bind_step _ _ _ _ _ Hs').
  eapply IH; [exact Hcs'| |done|].
  - assert (node ∈ cs) as Hin by (apply occurrences_pos; lia).
    rewrite (occurrences_delete_first _ _ Hin) in Hk. lia.
  - intros Hd. destruct (Hnotify Hd). eauto.
Qed.

(** removeChild is one removal step per occurrence. *)
Lemma removeChild_steps fuel this node doNotify s cs :
  has_children s this cs →
  removeChild fuel this node doNotify s
    = (iterM (occurrences node cs) (removeChild_step fuel this node doNotify);;
       mret (bool_decide (node ∈ cs))) s
  ∧ ∀ r s', removeChild fuel this node doNotify s = Some (r, s') →
            has_children s' this (filter (λ c, c ≠ node) cs).
Proof.
  intros Hcs.
  destruct (has_children_getGroup _ _ _ Hcs) as (g & Hg & Hgcs).
  destruct (removeChild_loop_spec fuel this node doNotify (length cs)
              0 false s cs Hcs) as [Heq Hleft].
  { rewrite take_0. by intros ?%elem_of_nil. }
  { lia. }
  rewrite drop_0 in Heq. rewrite take_0, drop_0 in Hleft. simpl in *.
  assert (removeChild fuel this node doNotify s =
          removeChild_loop (length cs) fuel this node doNotify 0 false s) as Hrc.
  { unfold removeChild. by rewrite (bind_step _ _ _ _ _ Hg), Hgcs. }
  rewrite Hrc. by split.
Qed.

(** C10. removeChild(node, doNotify) on a group with children [cs] takes
    one removal step per occurrence of [node] in [cs], each with one call
    of removeOwner on [node]; the children it leaves are those of [cs]
    other than [node], every occurrence gone; it returns true exactly when
    [node] occurred; when [node] is no child the store is as before and the
    result is false. It returns, with notification on a DAG of owner
    links. *)
Theorem removeChild_all_occurrences rank fuel this node doNotify s cs :
  has_children s this cs →
  removeChild fuel this node doNotify s
    = (iterM (occurrences node cs) (removeChild_step fuel this node doNotify);;
       mret (bool_decide (node ∈ cs))) s
  ∧ (∀ r s', removeChild fuel this node doNotify s = Some (r, s') →
       has_children s' this (filter (λ c, c ≠ node) cs) ∧
       (r = true ↔ node ∈ cs))
  ∧ (node ∉ cs → removeChild fuel this node doNotify s = Some (false, s))
  ∧ (is_Some (heap s !! node) →
     (doNotify = true → owners_ranked rank s ∧ rank node < fuel) →
     is_Some (removeChild fuel this node doNotify s)).
Proof.
  intros Hcs.
  destruct (removeChild_steps fuel this node doNotify s cs Hcs) as [Heq Hleft].
  split; [exact Heq|]. split; [|split].
  - intros r s' Hrun. split; [by eapply Hleft|].
    rewrite Heq in Hrun.
    apply bind_Some in Hrun as ([] & s1 & _ & [= <- _]).
    by rewrite bool_decide_eq_true.
  - intros Hnot. rewrite Heq.
    assert (occurrences node cs = 0) as ->.
    { pose proof (occurrences_pos node cs). destruct (occurrences node cs); [done|].
      exfalso. apply Hnot, H0. lia. }
    simpl. by rewrite bool_decide_eq_false_2.
  - intros Hnode Hnotify. rewrite Heq.
    destruct (iterM_step_returns rank fuel this node doNotify
                (occurrences node cs) s cs) as [[[] s'] Hs']; [done..|].
    rewrite (bind_step _ _ _ _ _ Hs'). eauto.
Qed.

End RemoveChild.

Lemma connectivity_notification_witness :
  ∃ s1 s2 s3,
    addOwner 2 1 Sample.group_and_node = Some (tt, s1) ∧
    addOwner_update 3 2 1 (SgUpdate_new ADDED) Sample.group_and_node
      = Some (tt, s2) ∧
    removeOwner 2 1 Sample.group_and_node = Some (tt, s3) ∧
    (owners Sample.plain_node = [] →
       fires Sample.group_and_node s1 [(2%positive, true)] ∧
       fires Sample.group_and_node s2 [(2%positive, true)]) ∧
    (owners Sample.plain_node ≠ [] →
       fires Sample.group_and_node s1 [] ∧ fires Sample.group_and_node s2 []) ∧
    (owners Sample.plain_node ≠ [] →
       owners_erase 1%positive (owners Sample.plain_node) = [] →
       fires Sample.group_and_node s3 [(2%positive, false)]) ∧
    (owners_erase 1%positive (owners Sample.plain_node) ≠ [] →
       fires Sample.group_and_node s3 []).
Proof.
  apply (connectivity_notification Sample.rank_by_address 3 2 1
           (SgUpdate_new ADDED) Sample.group_and_node Sample.plain_node).
  - reflexivity.
  - apply owners_rankedb_ok. vm_compute. reflexivity.
  - eexists. reflexivity.
  - vm_compute. lia.
Defined.

Example removeChild_twice_child :
  ∃ s', removeChild 3 1 2 true Sample.twice_child = Some (true, s') ∧
        has_children s' 1 [3%positive] ∧
        connections (events s') = [(2%positive, false); (2%positive, false)].
Proof.
  eexists. split; [vm_compute; reflexivity|].
  split; [|reflexivity]. eexists _, _. repeat split; reflexivity.
Qed.

Lemma removeChild_all_occurrences_witness :
  removeChild 3 1 2 true Sample.twice_child
    = (iterM (occurrences 2 [2; 3; 2]%positive) (removeChild_step 3 1 2 true);;
       mret (bool_decide (2%positive ∈ [2; 3; 2]%positive))) Sample.twice_child
  ∧ (∀ r s', removeChild 3 1 2 true Sample.twice_child = Some (r, s') →
       has_children s' 1 (filter (λ c, c ≠ 2%positive) [2; 3; 2]%positive) ∧
       (r = true ↔ 2%positive ∈ [2; 3; 2]%positive))
  ∧ (2%positive ∉ [2; 3; 2]%positive →
     removeChild 3 1 2 true Sample.twice_child
       = Some (false, Sample.twice_child))
  ∧ (is_Some (heap Sample.twice_child !! 2%positive) →
     (true = true → owners_ranked Sample.rank_by_address Sample.twice_child ∧
                    Sample.rank_by_address 2 < 3) →
     is_Some (removeChild 3 1 2 true Sample.twice_child)).
Proof.
  apply (removeChild_all_occurrences Sample.rank_by_address 3 1 2 true
           Sample.twice_child [2; 3; 2]%positive).
  eexists _, _. split; [reflexivity|]. split; reflexivity.
Defined.

(** ** accept *)

Section Accept.
Context `{Geometry}.
Implicit Types (s : State) (o : SgObj) (this : ptr).

Lemma liftSg_getObj {X} this s o (x : X) :
  heap s !! this = Some o →
  liftSg (getObj this) (x, s) = Some (o, (x, s)).
Proof. intros Ho. unfold liftSg. simpl. by rewrite (getObj_lookup _ _ _ Ho). Qed.

(** C8, amended. Every node class other than SgFog implements
    accept(visitor) by one call of the visit function of its kind, with the
    node itself as the argument: SgNode calls visitNode, SgGroup
    visitGroup, SgInvariantGroup visitInvariantGroup, SgUnpickableGroup
    visitUnpickableGroup, SgOverlay visitOverlay, SgPosTransform
    visitPosTransform, SgScaleTransform visitScaleTransform, SgShape
    visitShape, SgPointSet visitPointSet, SgLineSet visitLineSet,
    SgPreprocessed visitPreprocessed, every light class visitLight and
    every camera class visitCamera. The accept of SgFog calls no visit
    function. The visit function is specific to the kind: the function that
    accept calls tells the kind of the node. *)
Theorem accept_dispatch this o s :
  heap s !! this = Some o → is_node (data o) = true →
  match data o with
  | DNode => calls s this visitNode
  | DGroup KGroup _ => calls s this visitGroup
  | DGroup KInvariantGroup _ => calls s this visitInvariantGroup
  | DGroup KUnpickableGroup _ => calls s this visitUnpickableGroup
  | DGroup KOverlay _ => calls s this visitOverlay
  | DTransform (KPosTransform _) _ _ => calls s this visitPosTransform
  | DTransform (KScaleTransform _) _ _ => calls s this visitScaleTransform
  | DShape _ => calls s this visitShape
  | DPlot (KPointSet _) _ => calls s this visitPointSet
  | DPlot (KLineSet _) _ => calls s this visitLineSet
  | DPreprocessed => calls s this visitPreprocessed
  | DLight _ _ => calls s this visitLight
  | DCamera _ _ _ => calls s this visitCamera
  | DFog =>
      ∀ V (vis : SceneVisitor V) (v : V), accept this (v, s) = Some (tt, (v, s))
  | _ => False
  end ∧
  ∀ m, calls s this m →
       match m with
       | visitNode => data o = DNode
       | visitGroup => ∃ g, data o = DGroup KGroup g
       | visitInvariantGroup => ∃ g, data o = DGroup KInvariantGroup g
       | visitUnpickableGroup => ∃ g, data o = DGroup KUnpickableGroup g
       | visitOverlay => ∃ g, data o = DGroup KOverlay g
       | visitPosTransform => ∃ T g u, data o = DTransform (KPosTransform T) g u
       | visitScaleTransform =>
           ∃ c g u, data o = DTransform (KScaleTransform c) g u
       | visitShape => ∃ sh, data o = DShape sh
       | visitPointSet => ∃ w pl, data o = DPlot (KPointSet w) pl
       | visitLineSet => ∃ w pl, data o = DPlot (KLineSet w) pl
       | visitPreprocessed => data o = DPreprocessed
       | visitLight => ∃ k l, data o = DLight k l
       | visitCamera => ∃ k n f, data o = DCamera k n f
       end.
Proof.
  intros Ho Hnode.
  assert (∀ V (vis : SceneVisitor V) (v : V),
    accept this (v, s) =
    match data o with
    | DNode => visit visitNode this (v, s)
    | DGroup KGroup _ => visit visitGroup this (v, s)
    | DGroup KInvariantGroup _ => visit visitInvariantGroup this (v, s)
    | DGroup KUnpickableGroup _ => visit visitUnpickableGroup this (v, s)
    | DGroup KOverlay _ => visit visitOverlay this (v, s)
    | DTransform (KPosTransform _) _ _ => visit visitPosTransform this (v, s)
    | DTransform (KScaleTransform _) _ _ =>
        visit visitScaleTransform this (v, s)
    | DShape _ => visit visitShape this (v, s)
    | DPlot (KPointSet _) _ => visit visitPointSet this (v, s)
    | DPlot (KLineSet _) _ => visit visitLineSet this (v, s)
    | DPreprocessed => visit visitPreprocessed this (v, s)
    | DLight _ _ => visit visitLight this (v, s)
    | DCamera _ _ _ => visit visitCamera this (v, s)
    | DFog => Some (tt, (v, s))
    | _ => None
    end) as Hacc.
  { intros V vis v. unfold accept.
    rewrite (bind_step _ _ _ _ _ (liftSg_getObj _ _ _ v Ho)).
    destruct (data o) as [| |[]| [] | | | | | | | | | | | |[]| | | |];
      done. }
  split.
  - destruct (data o) as [| |[]| [] | | | | | | | | | | | |[]| | | |];
      try done;
      (split; [intros V vis v; by rewrite Hacc|by rewrite Hacc]).
  - intros m [_ Hm]. rewrite Hacc in Hm.
    destruct (data o) as [| |[]| [] | | | | | | | | | | | |[]| | | |];
      try done; destruct m; try done; eauto.
Qed.

End Accept.

Lemma accept_dispatch_witness :
  calls Sample.fog_and_shape 2 visitShape ∧
  ∀ m, calls Sample.fog_and_shape 2 m →
       match m with
       | visitNode => DShape (mkShape None None None) = DNode
       | visitGroup => ∃ g, DShape (mkShape None None None) = DGroup KGroup g
       | visitInvariantGroup =>
           ∃ g, DShape (mkShape None None None) = DGroup KInvariantGroup g
       | visitUnpickableGroup =>
           ∃ g, DShape (mkShape None None None) = DGroup KUnpickableGroup g
       | visitOverlay =>
           ∃ g, DShape (mkShape None None None) = DGroup KOverlay g
       | visitPosTransform =>
           ∃ T g u, DShape (mkShape None None None)
                    = DTransform (KPosTransform T) g u
       | visitScaleTransform =>
           ∃ c g u, DShape (mkShape None None None)
                    = DTransform (KScaleTransform c) g u
       | visitShape => ∃ sh, DShape (mkShape None None None) = DShape sh
       | visitPointSet =>
           ∃ w pl, DShape (mkShape None None None) = DPlot (KPointSet w) pl
       | visitLineSet =>
           ∃ w pl, DShape (mkShape None None None) = DPlot (KLineSet w) pl
       | visitPreprocessed => DShape (mkShape None None None) = DPreprocessed
       | visitLight => ∃ k l, DShape (mkShape None None None) = DLight k l
       | visitCamera =>
           ∃ k n f, DShape (mkShape None None None) = DCamera k n f
       end.
Proof.
  apply (accept_dispatch 2 (mkObj "" [] (DShape (mkShape None None None)))
           Sample.fog_and_shape); reflexivity.
Defined.

(** The accept of an SgFog reaches no visit function: a recording visitor
    has recorded nothing afterwards. *)
Lemma accept_fog_no_visit :
  accept (visitor := recorder) 1 ([], Sample.fog_and_shape)
    = Some (tt, ([], Sample.fog_and_shape)) ∧
  ¬ ∃ m, accept (visitor := recorder) 1 ([], Sample.fog_and_shape)
         = Some (tt, ([(m, 1%positive)], Sample.fog_and_shape)).
Proof.
  split; [reflexivity|]. intros [m Hm]. vm_compute in Hm. discriminate.
Qed.

(** ** Boxes: SgMesh::setBox and MeshGenerator::generateBox *)

Section Boxes.
Context `{Geometry} `{!MeshNormals}.
Implicit Types (s : State) (o : SgObj) (this v : ptr).

Lemma fresh_lookup s : heap s !! fresh (dom (heap s)) = None.
Proof. apply not_elem_of_dom, is_fresh. Qed.

Lemma negative_size_spec size :
  negative_size size = true ↔
  negative (vx size) ∨ negative (vy size) ∨ negative (vz size).
Proof.
  unfold negative_size, negative. rewrite !orb_true_iff. tauto.
Qed.

(** The new vertex array is at a fresh address, and the mesh is where it
    was. *)
Lemma SgVertexArray_new_returns this :
  returns (λ s, mesh_in_store s this) SgVertexArray_new
          (λ v s', mesh_in_store s' this ∧
                   ∃ ov, heap s' !! v = Some ov ∧ data ov = DVertexArray []).
Proof.
  intros s (o & mb & tv & pr & Ho & Hd & Hv).
  eexists _, _. split; [reflexivity|]. simpl.
  pose proof (fresh_lookup s) as Hfresh.
  split.
  - exists o, mb, tv, pr. cbn [heap]. split; [|split; [done|]].
    + rewrite lookup_insert_ne; [done|]. intros E. congruence.
    + intros v Hmv. destruct (Hv v Hmv) as [ov Hov].
      rewrite lookup_insert_ne; [eauto|]. intros E. congruence.
  - eexists. cbn [heap]. by rewrite lookup_insert_eq.
Qed.

(** setVertices on a mesh of the store, with a vertex array of the
    store. *)
Lemma setVertices_returns this v :
  returns (λ s, mesh_in_store s this ∧
                ∃ ov l, heap s !! v = Some ov ∧ data ov = DVertexArray l)
          (setMember meshBase_vertices this (Some v))
          (λ _ s', mesh_with_vertices_at s' this v).
Proof.
  intros s [(o & mb & tv & pr & Ho & Hd & Hold) (ov & l & Hov & Hdv)].
  assert (this ≠ v) as Hne by (intros ->; congruence).
  unfold setMember.
  rewrite (bind_step _ _ _ _ _ (getObj_lookup _ _ _ Ho)), Hd. simpl.
  (* releasing the old array *)
  assert (∃ s1 o1 ov1, (match vertices_ mb with
                    | Some q => removeOwner q this
                    | None => mret tt
                    end) s = Some (tt, s1) ∧
                   heap s1 !! this = Some o1 ∧ data o1 = DMesh mb tv pr ∧
                   heap s1 !! v = Some ov1 ∧ data ov1 = DVertexArray l)
    as (s1 & o1 & ov1 & Hs1 & Ho1 & Hd1 & Hov1 & Hdv1).
  { destruct (vertices_ mb) as [q|] eqn:Hq.
    - destruct (Hold q eq_refl) as [oq Hoq].
      rewrite (removeOwner_eval _ _ _ _ Hoq).
      destruct (decide (q = this)) as [->|Hqt];
        [|destruct (decide (q = v)) as [->|Hqv]].
      + simplify_eq. eexists _, _, _. split; [reflexivity|]. cbn [heap].
        rewrite lookup_insert_eq, lookup_insert_ne by done.
        repeat split; done.
      + simplify_eq. eexists _, _, _. split; [reflexivity|]. cbn [heap].
        rewrite lookup_insert_eq, lookup_insert_ne by done.
        repeat split; done.
      + eexists _, _, _. split; [reflexivity|]. cbn [heap].
        rewrite !lookup_insert_ne by done. repeat split; done.
    - exists s, o, ov. repeat split; done. }
  rewrite (bind_step _ _ _ _ _ Hs1).
  rewrite (bind_step _ _ _ _ _ (getObj_lookup _ _ _ Ho1)), Hd1.
  rewrite bind_unfold. simpl.
  erewrite (bind_step (addOwner v this));
    [|apply (addOwner_eval _ _ _ ov1); cbn [heap];
      by rewrite lookup_insert_ne].
  eexists _, _. split; [reflexivity|].
  eexists _, _, _, _, _, _. cbn [heap].
  rewrite lookup_insert_ne, lookup_insert_eq by done.
  rewrite lookup_insert_eq. repeat split; done.
Qed.

Lemma push_back_returns this v x :
  returns (λ s, mesh_with_vertices_at s this v) (push_back v x)
          (λ _ s', mesh_with_vertices_at s' this v).
Proof.
  intros s (o & mb & tv & pr & ov & l & Ho & Hd & Hv & Hov & Hdv).
  assert (this ≠ v) as Hne by (intros ->; congruence).
  unfold push_back.
  rewrite (bind_step _ _ _ _ _ (getObj_lookup _ _ _ Hov)), Hdv.
  eexists _, _. split; [reflexivity|].
  exists o, mb, tv, pr. eexists _, _. simpl.
  rewrite lookup_insert_ne, lookup_insert_eq by done. repeat split; done.
Qed.

Lemma modifyMesh_returns this v f :
  returns (λ s, mesh_with_vertices_at s this v) (modifyMesh this f)
          (λ _ s', mesh_with_vertices_at s' this v).
Proof.
  intros s (o & mb & tv & pr & ov & l & Ho & Hd & Hv & Hov & Hdv).
  assert (this ≠ v) as Hne by (intros ->; congruence).
  unfold modifyMesh.
  rewrite (bind_step _ _ _ _ _ (getObj_lookup _ _ _ Ho)), Hd.
  eexists _, _. split; [reflexivity|].
  eexists _, mb, _, _, ov, l. simpl.
  rewrite lookup_insert_eq, lookup_insert_ne by done. repeat split; done.
Qed.

Lemma updateBoundingBox_returns this :
  returns (λ s, mesh_with_vertices s this) (updateBoundingBox this)
          (λ _ s', mesh_with_vertices s' this).
Proof.
  intros s (v & o & mb & tv & pr & ov & l & Ho & Hd & Hv & Hov & Hdv).
  assert (this ≠ v) as Hne by (intros ->; congruence).
  unfold updateBoundingBox.
  rewrite (bind_step _ _ _ _ _ (getObj_lookup _ _ _ Ho)), Hd. simpl.
  rewrite Hv. rewrite bind_unfold.
  rewrite (bind_step _ _ _ _ _ (getObj_lookup _ _ _ Hov)), Hdv.
  rewrite mret_unfold.
  rewrite (bind_step _ _ _ _ _ (getObj_lookup _ _ _ Ho)), Hd.
  eexists _, _. split; [reflexivity|].
  exists v. eexists _, _, _, _, ov, l. simpl.
  rewrite lookup_insert_eq, lookup_insert_ne by done. repeat split; done.
Qed.

(** The part of setBox and generateBox that fills the mesh: the corners,
    the triangles, the primitive. *)
Lemma fill_box_returns this v size (clear_first : bool) :
  returns (λ s, mesh_with_vertices_at s this v)
          (forM_ (box_corners size) (push_back v);;
           when clear_first (clearTriangles this);;
           forM_ box_triangles (λ t, addTriangle this t.1.1 t.1.2 t.2);;
           setPrimitive this (Box size))
          (λ _ s', mesh_with_vertices_at s' this v).
Proof.
  eapply returns_bind.
  { apply returns_forM_. intros x _. apply push_back_returns. }
  intros []. eapply returns_bind.
  { destruct clear_first; [apply modifyMesh_returns|by apply returns_ret]. }
  intros []. eapply returns_bind.
  { apply returns_forM_. intros x _. apply modifyMesh_returns. }
  intros []. apply modifyMesh_returns.
Qed.

Lemma setBox_returns this size s :
  mesh_in_store s this →
  (∀ a s0, mesh_with_vertices s0 this →
           mesh_with_vertices (MeshNormalGenerator_generateNormals this a s0)
                              this) →
  negative_size size = false →
  ∃ s', setBox this size s = Some (true, s') ∧ mesh_with_vertices s' this.
Proof.
  intros Hmesh Hnormals Hneg. unfold setBox. rewrite Hneg.
  assert (returns (λ s, mesh_in_store s this)
    (v ← SgVertexArray_new;
     setMember meshBase_vertices this (Some v);;
     forM_ (box_corners size) (push_back v);;
     when true (clearTriangles this);;
     forM_ box_triangles (λ t, addTriangle this t.1.1 t.1.2 t.2);;
     setPrimitive this (Box size);;
     modify (MeshNormalGenerator_generateNormals this 0%float);;
     updateBoundingBox this;; mret true)
    (λ r s', r = true ∧ mesh_with_vertices s' this)) as Hret.
  { eapply returns_bind; [apply SgVertexArray_new_returns|].
    intros v. eapply returns_bind.
    { eapply returns_weaken; [apply (setVertices_returns this v)| |].
      - intros s0 [? (ov & ? & ?)]. split; [done|]. eauto.
      - intros a s0 Hs0. exact Hs0. }
    intros ?.
    assert (∀ (m : Sg unit) (k : Sg bool) (Q : bool → State → Prop),
      returns (λ s, mesh_with_vertices_at s this v) m
              (λ _ s, mesh_with_vertices_at s this v) →
      returns (λ s, mesh_with_vertices_at s this v) k Q →
      returns (λ s, mesh_with_vertices_at s this v) (m;; k) Q) as Hseq.
    { intros m k Q Hm Hk. eapply returns_bind; [exact Hm|]. by intros []. }
    apply Hseq.
    { apply returns_forM_. intros x _. apply push_back_returns. }
    apply Hseq; [apply modifyMesh_returns|].
    apply Hseq.
    { apply returns_forM_. intros x _. apply modifyMesh_returns. }
    apply Hseq; [apply modifyMesh_returns|].
    eapply returns_bind.
    { apply (returns_modify _ _ (λ _ s, mesh_with_vertices s this)).
      intros s0 Hs0. apply Hnormals. by exists v. }
    intros []. eapply returns_bind; [apply updateBoundingBox_returns|].
    intros []. by apply returns_ret. }
  destruct (Hret s Hmesh) as (r & s' & Hrun & -> & Hs'). eauto.
Qed.

(** A setter on a null member. *)
Lemma setMember_null_eval f this p s o op :
  heap s !! this = Some o → getMember f (data o) = Some None →
  heap s !! p = Some op → p ≠ this →
  setMember f this (Some p) s
  = Some (Some p,
          mkState (<[p := with_owners (owners_insert this) op]>
                     (<[this := with_data (assignMember f (Some p) (data o)) o]>
                        (heap s)))
                  (if bool_decide (owners op = [])
                   then events s ++ [SigGraphConnection p true]
                   else events s)).
Proof.
  intros Ho Hf Hop Hne. unfold setMember.
  rewrite (bind_step _ _ _ _ _ (getObj_lookup _ _ _ Ho)), Hf.
  rewrite bind_unfold, mret_unfold.
  rewrite (bind_step _ _ _ _ _ (getObj_lookup _ _ _ Ho)).
  rewrite bind_unfold. simpl.
  erewrite (bind_step (addOwner p this)); last first.
  { apply (addOwner_eval _ _ _ op). cbn [heap]. by rewrite lookup_insert_ne. }
  done.
Qed.

Lemma liftSg_step {X A} (m : Sg A) (x : X) s a s' :
  m s = Some (a, s') → liftSg m (x, s) = Some (a, (x, s')).
Proof. intros Hm. unfold liftSg. simpl. by rewrite Hm. Qed.

(** [new SgMesh], [new SgVertexArray()] and setVertices. *)
Lemma mesh_built_start s :
  ∃ mesh v s1,
    (mesh ← SgMesh_new; v ← SgVertexArray_new;
     setMember meshBase_vertices mesh (Some v);; mret (mesh, v)) s
    = Some ((mesh, v), s1) ∧
    mesh_built s s1 mesh v BoundingBox_clear [] Mesh [].
Proof.
  set (M0 := mkObj "" []
               (DMesh (mkMeshBase None None None None [] [] false BoundingBox_clear)
                      [] Mesh)).
  set (V0 := mkObj "" [] (DVertexArray [])).
  set (mesh := fresh (dom (heap s))).
  set (sa := mkState (<[mesh := M0]> (heap s)) (events s)).
  set (v := fresh (dom (heap sa))).
  set (sb := mkState (<[v := V0]> (heap sa)) (events sa)).
  assert (heap s !! mesh = None) as Hmesh by apply fresh_lookup.
  assert (heap sa !! v = None) as Hv by apply fresh_lookup.
  assert (mesh ≠ v) as Hne.
  { intros E. rewrite <- E in Hv. unfold sa in Hv. cbn [heap] in Hv.
    by rewrite lookup_insert_eq in Hv. }
  assert (heap s !! v = None) as Hv0.
  { unfold sa in Hv. cbn [heap] in Hv. by rewrite lookup_insert_ne in Hv. }
  assert (SgMesh_new s = Some (mesh, sa)) as H1 by done.
  assert (SgVertexArray_new sa = Some (v, sb)) as H2 by done.
  assert (heap sb !! mesh = Some M0) as HM.
  { unfold sb, sa. cbn [heap].
    by rewrite lookup_insert_ne, lookup_insert_eq by done. }
  assert (heap sb !! v = Some V0) as HV.
  { unfold sb. cbn [heap]. by rewrite lookup_insert_eq. }
  pose proof (setMember_null_eval meshBase_vertices mesh v sb M0 V0 HM eq_refl HV
                ltac:(done)) as H3.
  eexists mesh, v, _. split.
  { rewrite (bind_step _ _ _ _ _ H1), (bind_step _ _ _ _ _ H2).
    rewrite (bind_step _ _ _ _ _ H3). reflexivity. }
  split; [done|]. split; [done|]. split; [done|]. cbn [heap events].
  split; [by rewrite lookup_insert_ne, lookup_insert_eq by done|].
  split; [by rewrite lookup_insert_eq|]. split; [|done].
  intros p Hp1 Hp2. unfold sb, sa. cbn [heap].
  by rewrite !lookup_insert_ne by done.
Qed.

Lemma push_back_built s s1 mesh v bb tv pr l x :
  mesh_built s s1 mesh v bb tv pr l →
  ∃ s2, push_back v x s1 = Some (tt, s2) ∧
        mesh_built s s2 mesh v bb tv pr (l ++ [x]).
Proof.
  intros (Hm & Hv & Hne & Hm1 & Hv1 & Hfr & Hev). unfold push_back.
  rewrite (bind_step _ _ _ _ _ (getObj_lookup _ _ _ Hv1)). simpl.
  eexists. split; [reflexivity|].
  split; [done|]. split; [done|]. split; [done|]. cbn [heap events].
  split; [by rewrite lookup_insert_ne|].
  split; [by rewrite lookup_insert_eq|]. split; [|done].
  intros p Hp1 Hp2. rewrite lookup_insert_ne by done. by apply Hfr.
Qed.

Lemma forM_push_back_built s mesh v bb tv pr (xs : list Vector3f) : ∀ s1 l,
  mesh_built s s1 mesh v bb tv pr l →
  ∃ s2, forM_ xs (push_back v) s1 = Some (tt, s2) ∧
        mesh_built s s2 mesh v bb tv pr (l ++ xs).
Proof.
  induction xs as [|x xs IH]; intros s1 l Hb.
  - exists s1. split; [done|]. by rewrite app_nil_r.
  - destruct (push_back_built _ _ _ _ _ _ _ _ x Hb) as (s2 & Hrun & Hb2).
    destruct (IH _ _ Hb2) as (s3 & Hrun3 & Hb3).
    exists s3. cbn [forM_]. rewrite (bind_step _ _ _ _ _ Hrun).
    split; [done|]. by rewrite <- app_assoc in Hb3.
Qed.

Lemma modifyMesh_built s s1 mesh v bb tv pr l f :
  mesh_built s s1 mesh v bb tv pr l →
  ∃ s2, modifyMesh mesh f s1 = Some (tt, s2) ∧
        mesh_built s s2 mesh v bb (f tv pr).1 (f tv pr).2 l.
Proof.
  intros (Hm & Hv & Hne & Hm1 & Hv1 & Hfr & Hev). unfold modifyMesh.
  rewrite (bind_step _ _ _ _ _ (getObj_lookup _ _ _ Hm1)). simpl.
  eexists. split; [reflexivity|].
  split; [done|]. split; [done|]. split; [done|]. cbn [heap events].
  split; [by rewrite lookup_insert_eq|].
  split; [by rewrite lookup_insert_ne|]. split; [|done].
  intros p Hp1 Hp2. rewrite lookup_insert_ne by done. by apply Hfr.
Qed.

Lemma forM_addTriangle_built s mesh v bb pr l (ts : list (Z * Z * Z)) :
  ∀ s1 tv,
  mesh_built s s1 mesh v bb tv pr l →
  ∃ s2, forM_ ts (λ t, addTriangle mesh t.1.1 t.1.2 t.2) s1 = Some (tt, s2) ∧
        mesh_built s s2 mesh v bb (tv ++ triangle_indices ts) pr l.
Proof.
  induction ts as [|t ts IH]; intros s1 tv Hb.
  - exists s1. split; [done|]. by rewrite app_nil_r.
  - destruct (modifyMesh_built _ _ _ _ _ _ _ _
                (λ tv pr, (tv ++ [t.1.1; t.1.2; t.2], pr)) Hb)
      as (s2 & Hrun & Hb2).
    destruct (IH _ _ Hb2) as (s3 & Hrun3 & Hb3).
    exists s3. cbn [forM_]. unfold addTriangle at 1.
    rewrite (bind_step _ _ _ _ _ Hrun). split; [done|].
    cbn [fst snd] in Hb3. by rewrite <- app_assoc in Hb3.
Qed.

Lemma updateBoundingBox_built s s1 mesh v bb tv pr l :
  mesh_built s s1 mesh v bb tv pr l →
  ∃ s2, updateBoundingBox mesh s1 = Some (tt, s2) ∧
        mesh_built s s2 mesh v
          (BoundingBox_of_f (fold_left BoundingBoxf_expandBy l BoundingBoxf_clear))
          tv pr l.
Proof.
  intros (Hm & Hv & Hne & Hm1 & Hv1 & Hfr & Hev). unfold updateBoundingBox.
  rewrite (bind_step _ _ _ _ _ (getObj_lookup _ _ _ Hm1)). simpl.
  rewrite bind_unfold.
  rewrite (bind_step _ _ _ _ _ (getObj_lookup _ _ _ Hv1)). simpl.
  rewrite (bind_step _ _ _ _ _ (getObj_lookup _ _ _ Hm1)). simpl.
  eexists. split; [reflexivity|].
  split; [done|]. split; [done|]. split; [done|]. cbn [heap events].
  split; [by rewrite lookup_insert_eq|].
  split; [by rewrite lookup_insert_ne|]. split; [|done].
  intros p Hp1 Hp2. rewrite lookup_insert_ne by done. by apply Hfr.
Qed.

(** generateBox for a size with no negative component: the mesh and its
    vertex array are built in a store [s1], on which the normal generator
    is run if normal generation is enabled. *)
Lemma generateBox_returns size mg s :
  negative_size size = false →
  ∃ mesh v s1,
    mesh_built s s1 mesh v
      (BoundingBox_of_f
         (fold_left BoundingBoxf_expandBy (box_corners size) BoundingBoxf_clear))
      (triangle_indices box_triangles) (Box size) (box_corners size) ∧
    generateBox size (mg, s)
    = Some (Some mesh,
            if isNormanGenerationEnabled_ mg
            then (mkMeshGenerator true true (divisionNumber_ mg),
                  MeshNormalGenerator_generateNormals mesh 0%float s1)
            else (mg, s1)).
Proof.
  intros Hneg. unfold generateBox. rewrite Hneg.
  destruct (mesh_built_start s) as (mesh & v & s1 & Hrun1 & Hb1).
  apply bind_Some in Hrun1 as (mesh' & sa & Hnew & Hrun1).
  apply bind_Some in Hrun1 as (v' & sb & Hnewv & Hrun1).
  apply bind_Some in Hrun1 as (r & sc & Hset & Hrun1).
  rewrite mret_unfold in Hrun1. simplify_eq.
  destruct (forM_push_back_built _ _ _ _ _ _ (box_corners size) _ _ Hb1)
    as (s2 & Hrun2 & Hb2).
  destruct (forM_addTriangle_built _ _ _ _ _ _ box_triangles _ _ Hb2)
    as (s3 & Hrun3 & Hb3).
  destruct (modifyMesh_built _ _ _ _ _ _ _ _ (λ tv _, (tv, Box size)) Hb3)
    as (s4 & Hrun4 & Hb4).
  destruct (updateBoundingBox_built _ _ _ _ _ _ _ _ Hb4) as (s5 & Hrun5 & Hb5).
  cbn [fst snd app] in Hb5.
  exists mesh, v, s5. split; [exact Hb5|].
  rewrite (bind_step _ _ _ _ _ (liftSg_step _ mg _ _ _ Hnew)).
  rewrite (bind_step _ _ _ _ _ (liftSg_step _ mg _ _ _ Hnewv)).
  rewrite (bind_step _ _ _ _ _ (liftSg_step _ mg _ _ _ Hset)).
  rewrite (bind_step _ _ _ _ _ (liftSg_step _ mg _ _ _ Hrun2)).
  rewrite (bind_step _ _ _ _ _ (liftSg_step _ mg _ _ _ Hrun3)).
  unfold setPrimitive.
  rewrite (bind_step _ _ _ _ _ (liftSg_step _ mg _ _ _ Hrun4)).
  rewrite (bind_step _ _ _ _ _ (liftSg_step _ mg _ _ _ Hrun5)).
  unfold MeshGenerator_generateNormals.
  rewrite bind_unfold. rewrite bind_unfold. simpl.
  by destruct mg as [[] ? ?].
Qed.

(** C9. generateBox(size), in any store, returns the null pointer exactly
    when a component of [size] is negative, and then changes nothing;
    otherwise it returns a pointer to a new mesh: an SgMesh at an address
    the store did not use, with the eight corners of the box in a new
    vertex array, the twelve triangles, the primitive Box(size) and the box
    of the corners, built with every other object left as it was, and then
    handed to the normal generator when normal generation is enabled.
    setBox(size), on a mesh of the store, returns false exactly when a
    component of [size] is negative, and then leaves the store as it was;
    otherwise it returns true and the mesh has a vertex array. Neither has
    an undefined result. The normal generator, which is outside the
    sources, is assumed for setBox to leave a mesh with a vertex array
    one. *)
Theorem box_size_check this size s mg :
  let neg := negative (vx size) ∨ negative (vy size) ∨ negative (vz size) in
  (∃ r gs', generateBox size (mg, s) = Some (r, gs') ∧
            (r = None ↔ neg) ∧
            (neg → gs' = (mg, s)) ∧
            (¬ neg →
               ∃ mesh v s1,
                 r = Some mesh ∧
                 mesh_built s s1 mesh v
                   (BoundingBox_of_f
                      (fold_left BoundingBoxf_expandBy (box_corners size)
                                 BoundingBoxf_clear))
                   (triangle_indices box_triangles) (Box size)
                   (box_corners size) ∧
                 gs' = if isNormanGenerationEnabled_ mg
                       then (mkMeshGenerator true true (divisionNumber_ mg),
                             MeshNormalGenerator_generateNormals mesh 0%float s1)
                       else (mg, s1))) ∧
  (mesh_in_store s this →
   (∀ a s0, mesh_with_vertices s0 this →
            mesh_with_vertices (MeshNormalGenerator_generateNormals this a s0)
                               this) →
   ∃ b s', setBox this size s = Some (b, s') ∧
           (b = false ↔ neg) ∧
           (neg → s' = s) ∧
           (¬ neg → mesh_with_vertices s' this)).
Proof.
  intros neg.
  pose proof (negative_size_spec size) as Hspec. fold neg in Hspec.
  destruct (negative_size size) eqn:Hneg.
  - assert neg as Hn by (by apply Hspec). split.
    + exists None, (mg, s). unfold generateBox. rewrite Hneg.
      split; [done|]. split; [done|]. split; [done|]. by intros [].
    + intros _ _. exists false, s. unfold setBox. rewrite Hneg.
      split; [done|]. split; [done|]. split; [done|]. by intros [].
  - assert (¬ neg) as Hn by (intros Hn%Hspec; done). split.
    + destruct (generateBox_returns size mg s Hneg)
        as (mesh & v & s1 & Hb & Hrun).
      eexists _, _. split; [exact Hrun|].
      split; [split; [done|intros ?; done]|].
      split; [intros ?; done|]. intros _. by exists mesh, v, s1.
    + intros Hmesh Hnormals.
      destruct (setBox_returns this size s Hmesh Hnormals Hneg)
        as (s' & Hrun & Hs').
      exists true, s'. split; [done|].
      split; [split; [done|intros ?; done]|].
      split; [intros ?; done|]. done.
Qed.

End Boxes.

Example generateBox_negative :
  generateBox Sample.size_2_m1_3 (MeshGenerator_new, Sample.no_object)
  = Some (None, (MeshGenerator_new, Sample.no_object)).
Proof. reflexivity. Qed.

Example setBox_negative :
  setBox 1 Sample.size_2_m1_3 Sample.one_mesh = Some (false, Sample.one_mesh).
Proof. reflexivity. Qed.

Example setBox_2_2_2 :
  ∃ s' o mb tv,
    setBox 1 Sample.size_2_2_2 Sample.one_mesh = Some (true, s') ∧
    heap s' !! 1%positive = Some o ∧
    data o = DMesh mb tv (Box Sample.size_2_2_2) ∧
    bbox mb = Some (mkVector3 (-1) (-1) (-1), mkVector3 1 1 1).
Proof.
  eexists _, _, _, _. split; [vm_compute; reflexivity|].
  split; [reflexivity|]. split; reflexivity.
Qed.

Lemma box_size_check_witness :
  let size := Sample.size_2_2_2 in
  let s := Sample.one_mesh in
  (∃ mesh v s1,
     generateBox size (MeshGenerator_new, s)
     = Some (Some mesh,
             (mkMeshGenerator true true 20,
              MeshNormalGenerator_generateNormals mesh 0%float s1)) ∧
     mesh_built s s1 mesh v
       (BoundingBox_of_f
          (fold_left BoundingBoxf_expandBy (box_corners size)
                     BoundingBoxf_clear))
       (triangle_indices box_triangles) (Box size) (box_corners size)) ∧
  (∃ s', setBox 1 size s = Some (true, s') ∧ mesh_with_vertices s' 1).
Proof.
  intros size s.
  destruct (box_size_check 1 size s MeshGenerator_new)
    as [(r & gs' & Hrun & _ & _ & Hmesh) Hset].
  assert (¬ (negative (vx size) ∨ negative (vy size) ∨ negative (vz size)))
    as Hn.
  { intros [Hx|[Hy|Hz]]; [vm_compute in Hx|vm_compute in Hy|vm_compute in Hz];
      discriminate. }
  split.
  - destruct (Hmesh Hn) as (mesh & v & s1 & -> & Hb & ->).
    exists mesh, v, s1. split; [exact Hrun|exact Hb].
  - destruct Hset as (b & s' & Hrun' & Hb & _ & Hv).
    + eexists _, _, _, _. split; [reflexivity|]. split; [reflexivity|].
      simpl. discriminate.
    + intros a s0 Hs0. exact Hs0.
    + exists s'. split; [|exact (Hv Hn)].
      destruct b; [exact Hrun'|]. exfalso. apply Hn, Hb. reflexivity.
Defined.

(** ** Bounding boxes *)

Section BoundingBoxes.
Context `{Geometry}.
Implicit Types (s t : State) (o : SgObj) (this : ptr) (b : BoundingBox).

Lemma putGroup_eval this g s o :
  heap s !! this = Some o →
  putGroup this g s =
    Some (tt, mkState (<[this := with_data (with_groupData g (data o)) o]>
                         (heap s)) (events s)).
Proof.
  intros Ho. unfold putGroup.
  by rewrite (bind_step _ _ _ _ _ (getObj_lookup _ _ _ Ho)).
Qed.

Lemma uncached_groupData o g :
  groupData (data o) = Some g →
  groupData (data (uncached o))
  = Some (mkGroup (children g) false BoundingBox_clear).
Proof. unfold uncached. destruct (data o); simpl; congruence. Qed.

Lemma uncached_not_group o :
  groupData (data o) = None → uncached o = o.
Proof. unfold uncached. by destruct (data o). Qed.

Lemma uncached_groupData_inv o g :
  groupData (data (uncached o)) = Some g →
  ∃ g', groupData (data o) = Some g' ∧ children g' = children g.
Proof.
  unfold uncached. destruct o as [n ow d].
  destruct d; simpl; try done; intros [= <-]; eauto.
Qed.

Lemma uncached_with_groupData o g g' :
  groupData (data o) = Some g → children g' = children g →
  uncached (with_data (with_groupData g' (data o)) o) = uncached o.
Proof.
  unfold uncached. destruct o as [n ow d].
  destruct d; simpl; try done; intros [= <-] ->; done.
Qed.

Lemma uncached_is_node o : is_node (data (uncached o)) = is_node (data o).
Proof. unfold uncached. destruct o as [n ow d]. by destruct d. Qed.

Lemma cached_refl s : cached s s.
Proof. by split. Qed.

Lemma cached_trans s1 s2 s3 : cached s1 s2 → cached s2 s3 → cached s1 s3.
Proof. intros [H12 E12] [H23 E23]. split; [|congruence]. intros q. by rewrite H23. Qed.

Lemma cached_has_children s s' this cs :
  cached s s' → has_children s this cs → has_children s' this cs.
Proof.
  intros [Hc _] (o & g & Ho & Hg & Hcs). specialize (Hc this).
  rewrite Ho in Hc. simpl in Hc.
  destruct (heap s' !! this) as [o'|] eqn:Ho'; simplify_eq/=.
  pose proof (uncached_groupData _ _ Hg) as Hu. rewrite <- Hc in Hu.
  apply uncached_groupData_inv in Hu as (g' & Hg' & Hcs').
  by exists o', g'.
Qed.

Lemma cached_sym s s' : cached s s' → cached s' s.
Proof. intros [Hc He]. by split. Qed.

Lemma cached_children_ranked rank s s' :
  cached s s' → children_ranked rank s → children_ranked rank s'.
Proof.
  intros Hc Hr p cs c Hcs Hin. eapply Hr; [|done].
  by eapply cached_has_children; [apply cached_sym|].
Qed.

Lemma cached_lookup_plain s s' q o :
  cached s s' → heap s !! q = Some o → groupData (data o) = None →
  heap s' !! q = Some o.
Proof.
  intros [Hc _] Ho Hg. specialize (Hc q). rewrite Ho in Hc. simpl in Hc.
  destruct (heap s' !! q) as [o'|] eqn:Ho'; simplify_eq/=.
  rewrite (uncached_not_group o) in Hc by done.
  destruct (groupData (data o')) as [g'|] eqn:Hg'.
  - apply uncached_groupData in Hg'. rewrite Hc in Hg'. congruence.
  - rewrite uncached_not_group in Hc by done. by subst.
Qed.

Lemma groupData_is_node (d : SgData) g :
  groupData d = Some g → is_node d = true ∧ ∀ sh, d ≠ DShape sh.
Proof. destruct d; simpl; try done; intros _; split; done. Qed.

Lemma cached_boxable s s' p :
  cached s s' → boxable s p → boxable s' p.
Proof.
  intros Hc (o & Ho & Hnode & Hmesh).
  destruct (groupData (data o)) as [g|] eqn:Hg.
  - assert (has_children s' p (children g)) as (o' & g' & Ho' & Hg' & _).
    { eapply cached_has_children; [done|]. by exists o, g. }
    destruct (groupData_is_node _ _ Hg') as [Hn Hsh].
    exists o'. split; [done|]. split; [done|]. intros sh m Hd. by destruct (Hsh sh).
  - exists o. split; [by eapply cached_lookup_plain|]. split; [done|].
    intros sh m Hd Hm.
    destruct (Hmesh sh m Hd Hm) as (om & mb & tv & pr & Hom & Hdm).
    exists om, mb, tv, pr. split; [|done].
    eapply cached_lookup_plain; [done..|]. by rewrite Hdm.
Qed.

Lemma cached_scene_ok s s' : cached s s' → scene_ok s → scene_ok s'.
Proof.
  intros Hc Hok p cs c Hcs Hin. eapply cached_boxable; [done|].
  eapply Hok; [|done]. by eapply cached_has_children; [apply cached_sym|].
Qed.

(** Assigning the cache of a group changes caches only. *)
Lemma cached_putGroup s this o g g' :
  heap s !! this = Some o → groupData (data o) = Some g →
  children g' = children g →
  cached s (mkState (<[this := with_data (with_groupData g' (data o)) o]>
                       (heap s)) (events s)).
Proof.
  intros Ho Hg Hcs. split; [|done]. intros q. cbn [heap].
  destruct (decide (this = q)) as [<-|Hne].
  - rewrite lookup_insert_eq, Ho. simpl. f_equal.
    by eapply uncached_with_groupData.
  - by rewrite lookup_insert_ne.
Qed.

Lemma with_groupData_twice (d : SgData) g g' :
  with_groupData g (with_groupData g' d) = with_groupData g d.
Proof. by destruct d. Qed.

Lemma forM_childBoxes n this cs s :
  forM_ cs (λ p, b ← boundingBox n p; expandCache this b) s
  = (childBoxes n this cs ≫= λ _, mret tt) s.
Proof.
  revert s. induction cs as [|c cs IH]; intros s; simpl; [done|].
  rewrite !bind_assoc, !bind_unfold.
  destruct (boundingBox n c s) as [[b s1]|]; [|done].
  rewrite !bind_assoc, !bind_unfold.
  destruct (expandCache this b s1) as [[[] s2]|]; [|done].
  rewrite IH, !bind_assoc, !bind_unfold.
  by destruct (childBoxes n this cs s2) as [[bs s3]|].
Qed.

(** The loop over the children of a group whose cache holds [acc]: the
    calls on the children return, and the cache ends as [acc] expanded by
    the boxes they returned, in order. *)
Lemma childBoxes_loop rank n this nm ow d0 g0 cs_all :
  boundingBox_total rank n → groupData d0 = Some g0 →
  ∀ cs t acc,
  children_ranked rank t → scene_ok t →
  heap t !! this
    = Some (mkObj nm ow (with_groupData (mkGroup cs_all false acc) d0)) →
  (∀ c, c ∈ cs → boxable t c ∧ rank c < rank this ∧ rank c < n) →
  ∃ bs t', childBoxes n this cs t = Some (bs, t') ∧ cached t t' ∧
    heap t' !! this
      = Some (mkObj nm ow (with_groupData
                (mkGroup cs_all false (fold_left BoundingBox_expandBy bs acc))
                d0)) ∧
    (∀ q, rank this < rank q → heap t' !! q = heap t !! q).
Proof.
  intros IH Hg0. induction cs as [|c cs IHcs]; intros t acc Hr Hok Hthis Hcs.
  - exists [], t. split; [done|]. split; [apply cached_refl|]. by split.
  - destruct (Hcs c) as (Hbox & Hlt & Hn); [set_solver|].
    destruct (IH c t Hr Hok Hbox Hn) as (b & t1 & Hrun & Hc1 & Hframe1).
    simpl. rewrite (bind_step _ _ _ _ _ Hrun).
    assert (heap t1 !! this = Some (mkObj nm ow
              (with_groupData (mkGroup cs_all false acc) d0))) as Hthis1.
    { by rewrite (Hframe1 this Hlt). }
    assert (groupData (with_groupData (mkGroup cs_all false acc) d0)
            = Some (mkGroup cs_all false acc)) as Hgd
      by (by eapply groupData_with).
    unfold expandCache.
    assert (getGroup this t1 = Some (mkGroup cs_all false acc, t1)) as Hgg.
    { apply getGroup_Some. eexists. split; [exact Hthis1|]. by split. }
    rewrite bind_assoc, (bind_step _ _ _ _ _ Hgg).
    rewrite (bind_step _ _ _ _ _ (putGroup_eval _ _ _ _ Hthis1)).
    cbn [children isBboxCacheValid bboxCache data name_ owners with_data].
    rewrite with_groupData_twice.
    set (t2 := mkState _ _).
    assert (cached t1 t2) as Hc2.
    { pose proof (cached_putGroup t1 this _ _
        (mkGroup cs_all false (BoundingBox_expandBy acc b)) Hthis1 Hgd eq_refl)
        as Hc.
      cbn [data with_data name_ owners] in Hc.
      by rewrite with_groupData_twice in Hc. }
    assert (cached t t2) as Hc by (by eapply cached_trans).
    destruct (IHcs t2 (BoundingBox_expandBy acc b)) as (bs & t' & Hrun' & Hc' & Hthis' & Hframe').
    { by eapply cached_children_ranked. }
    { by eapply cached_scene_ok. }
    { subst t2. cbn [heap]. by rewrite lookup_insert_eq. }
    { intros c' Hc'. destruct (Hcs c') as (? & ? & ?); [set_solver|].
      split; [by eapply cached_boxable|done]. }
    exists (b :: bs), t'. rewrite (bind_step _ _ _ _ _ Hrun').
    split; [done|]. split; [by eapply cached_trans|]. split; [done|].
    intros q Hq. rewrite (Hframe' q Hq). subst t2. cbn [heap].
    rewrite lookup_insert_ne by (intros ->; lia).
    apply Hframe1. lia.
Qed.

(** The store in which the loop of a recomputation starts: the cache of
    [this] cleared. *)
Lemma cleared_start rank n this s o g :
  boundingBox_total rank n → children_ranked rank s → scene_ok s →
  heap s !! this = Some o → groupData (data o) = Some g →
  rank this < S n →
  let s0 := mkState (<[this := mkObj (name_ o) (owners o)
                 (with_groupData (mkGroup (children g) false BoundingBox_clear)
                                 (data o))]> (heap s)) (events s) in
  putGroup this (mkGroup (children g) false BoundingBox_clear) s
    = Some (tt, s0) ∧
  ∃ bs t, childBoxes n this (children g) s0 = Some (bs, t) ∧ cached s t ∧
    heap t !! this
      = Some (mkObj (name_ o) (owners o)
                (with_groupData (mkGroup (children g) false (union_boxes bs))
                                (data o))) ∧
    (∀ q, rank this < rank q → heap t !! q = heap s !! q).
Proof.
  intros IH Hr Hok Ho Hg Hlt s0.
  split; [by rewrite (putGroup_eval _ _ _ _ Ho)|].
  assert (cached s s0) as Hc0.
  { by apply (cached_putGroup s this o g
                (mkGroup (children g) false BoundingBox_clear)). }
  assert (has_children s this (children g)) as Hcs by (by exists o, g).
  destruct (childBoxes_loop rank n this (name_ o) (owners o) (data o) g
              (children g) IH Hg (children g) s0 BoundingBox_clear)
    as (bs & t & Hrun & Hc & Hthis & Hframe).
  { by eapply cached_children_ranked. }
  { by eapply cached_scene_ok. }
  { subst s0. cbn [heap]. by rewrite lookup_insert_eq. }
  { intros c Hin. pose proof (Hr this _ c Hcs Hin).
    split; [|lia]. eapply cached_boxable; [done|]. by eapply Hok. }
  exists bs, t. split; [done|]. split; [by eapply cached_trans|].
  split; [done|]. intros q Hq. rewrite (Hframe q Hq). subst s0. cbn [heap].
  rewrite lookup_insert_ne; [done|]. intros ->. lia.
Qed.

(** SgGroup::boundingBox on a cache that is not valid. *)
Lemma group_recompute rank n this s o k g :
  boundingBox_total rank n → children_ranked rank s → scene_ok s →
  heap s !! this = Some o → data o = DGroup k g →
  isBboxCacheValid g = false → rank this < S n →
  ∃ bs t,
    childBoxes n this (children g)
      (mkState (<[this := mkObj (name_ o) (owners o)
                  (DGroup k (mkGroup (children g) false BoundingBox_clear))]>
                  (heap s)) (events s)) = Some (bs, t) ∧
    boundingBox (S n) this s
      = Some (union_boxes bs,
              mkState (<[this := mkObj (name_ o) (owners o)
                  (DGroup k (mkGroup (children g) true (union_boxes bs)))]>
                  (heap t)) (events t)) ∧
    cached s t ∧
    (∀ q, rank this < rank q → heap t !! q = heap s !! q).
Proof.
  intros IH Hr Hok Ho Hd Hvalid Hlt.
  assert (groupData (data o) = Some g) as Hg by (by rewrite Hd).
  destruct (cleared_start rank n this s o g IH Hr Hok Ho Hg Hlt)
    as (Hput & bs & t & Hrun & Hc & Hthis & Hframe).
  rewrite Hd in Hput, Hrun, Hthis. cbn [with_groupData] in Hput, Hrun, Hthis.
  exists bs, t. split; [done|]. split; [|by split].
  cbn [boundingBox]. rewrite (bind_step _ _ _ _ _ (getObj_lookup _ _ _ Ho)).
  rewrite Hd, Hvalid. rewrite (bind_step _ _ _ _ _ Hput).
  rewrite bind_unfold, forM_childBoxes, (bind_step _ _ _ _ _ Hrun).
  rewrite mret_unfold.
  assert (getGroup this t
          = Some (mkGroup (children g) false (union_boxes bs), t)) as Hgg.
  { apply getGroup_Some. eexists. split; [exact Hthis|]. by split. }
  rewrite (bind_step _ _ _ _ _ Hgg).
  by rewrite (bind_step _ _ _ _ _ (putGroup_eval _ _ _ _ Hthis)).
Qed.

(** SgPosTransform::boundingBox and SgScaleTransform::boundingBox on a
    cache that is not valid. *)
Lemma transform_recompute rank n this s o k g u :
  boundingBox_total rank n → children_ranked rank s → scene_ok s →
  heap s !! this = Some o → data o = DTransform k g u →
  isBboxCacheValid g = false → rank this < S n →
  let T := match k with
           | KPosTransform T_ => T_
           | KScaleTransform scale_ => Affine3_asDiagonal scale_
           end in
  ∃ bs t,
    childBoxes n this (children g)
      (mkState (<[this := mkObj (name_ o) (owners o)
                  (DTransform k (mkGroup (children g) false BoundingBox_clear)
                              u)]>
                  (heap s)) (events s)) = Some (bs, t) ∧
    boundingBox (S n) this s
      = Some (BoundingBox_transform (union_boxes bs) T,
              mkState (<[this := mkObj (name_ o) (owners o)
                  (DTransform k
                     (mkGroup (children g) true
                              (BoundingBox_transform (union_boxes bs) T))
                     (union_boxes bs))]>
                  (heap t)) (events t)) ∧
    cached s t ∧
    (∀ q, rank this < rank q → heap t !! q = heap s !! q).
Proof.
  intros IH Hr Hok Ho Hd Hvalid Hlt T.
  assert (groupData (data o) = Some g) as Hg by (by rewrite Hd).
  destruct (cleared_start rank n this s o g IH Hr Hok Ho Hg Hlt)
    as (Hput & bs & t & Hrun & Hc & Hthis & Hframe).
  rewrite Hd in Hput, Hrun, Hthis. cbn [with_groupData] in Hput, Hrun, Hthis.
  exists bs, t. split; [done|]. split; [|by split].
  cbn [boundingBox]. rewrite (bind_step _ _ _ _ _ (getObj_lookup _ _ _ Ho)).
  rewrite Hd, Hvalid. rewrite (bind_step _ _ _ _ _ Hput).
  rewrite bind_unfold, forM_childBoxes, (bind_step _ _ _ _ _ Hrun).
  rewrite mret_unfold.
  assert (getGroup this t
          = Some (mkGroup (children g) false (union_boxes bs), t)) as Hgg.
  { apply getGroup_Some. eexists. split; [exact Hthis|]. by split. }
  rewrite (bind_step _ _ _ _ _ Hgg).
  by rewrite (bind_step _ _ _ _ _ (getObj_lookup _ _ _ Hthis)).
Qed.

Lemma cached_insert s t this o o' :
  cached s t → heap s !! this = Some o → uncached o' = uncached o →
  cached s (mkState (<[this := o']> (heap t)) (events t)).
Proof.
  intros [Hc He] Ho Hu. split; [|done]. intros q. cbn [heap].
  destruct (decide (this = q)) as [<-|Hne].
  - rewrite lookup_insert_eq, Ho. simpl. by rewrite Hu.
  - by rewrite lookup_insert_ne.
Qed.

(** On a DAG of child links whose nodes are in the store, boundingBox()
    returns, given fuel above the rank of the node. *)
Lemma boundingBox_returns rank n : boundingBox_total rank n.
Proof.
  induction n as [|n IH]; intros p s Hr Hok (o & Ho & Hnode & Hmesh) Hlt;
    [lia|].
  destruct (data o) as [| |k g|k g u| | | | | | | | | | |sh| | | | |] eqn:Hd;
    try done.
  - (* SgNode *)
    exists BoundingBox_clear, s. cbn [boundingBox].
    rewrite (bind_step _ _ _ _ _ (getObj_lookup _ _ _ Ho)), Hd.
    split; [done|]. split; [apply cached_refl|done].
  - (* SgGroup *)
    destruct (isBboxCacheValid g) eqn:Hvalid.
    + exists (bboxCache g), s. cbn [boundingBox].
      rewrite (bind_step _ _ _ _ _ (getObj_lookup _ _ _ Ho)), Hd, Hvalid.
      split; [done|]. split; [apply cached_refl|done].
    + destruct (group_recompute rank n p s o k g IH Hr Hok Ho Hd Hvalid Hlt)
        as (bs & t & _ & Hrun & Hc & Hframe).
      eexists _, _. split; [exact Hrun|]. split.
      * eapply cached_insert; [done..|].
        unfold uncached. rewrite Hd. reflexivity.
      * intros q Hq. cbn [heap]. rewrite lookup_insert_ne by (intros ->; lia).
        by apply Hframe.
  - (* SgPosTransform, SgScaleTransform *)
    destruct (isBboxCacheValid g) eqn:Hvalid.
    + exists (bboxCache g), s. cbn [boundingBox].
      rewrite (bind_step _ _ _ _ _ (getObj_lookup _ _ _ Ho)), Hd, Hvalid.
      split; [done|]. split; [apply cached_refl|done].
    + destruct (transform_recompute rank n p s o k g u IH Hr Hok Ho Hd Hvalid
                  Hlt) as (bs & t & _ & Hrun & Hc & Hframe).
      eexists _, _. split; [exact Hrun|]. split.
      * eapply cached_insert; [done..|].
        unfold uncached. rewrite Hd. reflexivity.
      * intros q Hq. cbn [heap]. rewrite lookup_insert_ne by (intros ->; lia).
        by apply Hframe.
  - (* SgShape *)
    cbn [boundingBox].
    rewrite (bind_step _ _ _ _ _ (getObj_lookup _ _ _ Ho)), Hd.
    destruct (mesh_ sh) as [m|] eqn:Hm.
    + destruct (Hmesh sh m eq_refl Hm) as (om & mb & tv & pr & Hom & Hdm).
      rewrite (bind_step _ _ _ _ _ (getObj_lookup _ _ _ Hom)), Hdm.
      eexists _, _. split; [done|]. split; [apply cached_refl|done].
    + eexists _, _. split; [done|]. split; [apply cached_refl|done].
  - (* SgPlot *)
    eexists _, s. cbn [boundingBox].
    rewrite (bind_step _ _ _ _ _ (getObj_lookup _ _ _ Ho)), Hd.
    split; [done|]. split; [apply cached_refl|done].
  - exists BoundingBox_clear, s. cbn [boundingBox].
    rewrite (bind_step _ _ _ _ _ (getObj_lookup _ _ _ Ho)), Hd.
    split; [done|]. split; [apply cached_refl|done].
  - exists BoundingBox_clear, s. cbn [boundingBox].
    rewrite (bind_step _ _ _ _ _ (getObj_lookup _ _ _ Ho)), Hd.
    split; [done|]. split; [apply cached_refl|done].
  - exists BoundingBox_clear, s. cbn [boundingBox].
    rewrite (bind_step _ _ _ _ _ (getObj_lookup _ _ _ Ho)), Hd.
    split; [done|]. split; [apply cached_refl|done].
  - exists BoundingBox_clear, s. cbn [boundingBox].
    rewrite (bind_step _ _ _ _ _ (getObj_lookup _ _ _ Ho)), Hd.
    split; [done|]. split; [apply cached_refl|done].
Qed.

End BoundingBoxes.

(** ** Cache invalidation *)

Section Invalidation.
Context `{Geometry}.
Implicit Types (s t : State) (o : SgObj) (this node : ptr).

Lemma cache_valid_data s s' q :
  data <$> heap s' !! q = data <$> heap s !! q →
  cache_valid s' q = cache_valid s q.
Proof.
  unfold cache_valid. intros Hd.
  destruct (heap s' !! q) as [o'|], (heap s !! q) as [o|]; simplify_eq/=;
    [|done]. by rewrite Hd.
Qed.

Lemma has_children_data s s' q cs :
  data <$> heap s' !! q = data <$> heap s !! q →
  has_children s q cs → has_children s' q cs.
Proof.
  intros Hd (o & g & Ho & Hg & Hcs). rewrite Ho in Hd.
  destruct (heap s' !! q) as [o'|] eqn:Ho'; simplify_eq/=.
  exists o', g. by rewrite Hd.
Qed.

Lemma cache_valid_walked_false s s' q :
  walked s s' → cache_valid s q = Some false → cache_valid s' q = Some false.
Proof.
  intros [Hw _] Hv. destruct (Hw q) as [E|E]; unfold cache_valid in *;
    rewrite E; [done|].
  destruct (heap s !! q) as [o|]; simplify_eq/=.
  destruct (groupData (data o)) as [g|] eqn:Hg; simplify_eq/=.
  by rewrite (invalidated_groupData _ _ Hg).
Qed.

Lemma cache_valid_invalidated s s' q cs :
  heap s' !! q = invalidated <$> heap s !! q → has_children s q cs →
  cache_valid s' q = Some false ∧ has_children s' q cs.
Proof.
  intros E (o & g & Ho & Hg & Hcs). rewrite Ho in E. simpl in E.
  pose proof (invalidated_groupData _ _ Hg) as Hg'. split.
  - unfold cache_valid. rewrite E. simpl. by rewrite Hg'.
  - eexists _, _. split; [exact E|]. split; [exact Hg'|done].
Qed.

Lemma addOwner_data this node s s' q :
  addOwner this node s = Some (tt, s') →
  data <$> heap s' !! q = data <$> heap s !! q.
Proof.
  intros Hrun. destruct (heap s !! this) as [o|] eqn:Ho.
  - rewrite (addOwner_eval _ _ _ _ Ho) in Hrun. injection Hrun as <-.
    cbn [heap]. destruct (decide (this = q)) as [<-|Hne].
    + by rewrite lookup_insert_eq, Ho.
    + by rewrite lookup_insert_ne.
  - unfold addOwner in Hrun.
    by rewrite bind_unfold, (getObj_None _ _ Ho) in Hrun.
Qed.

Lemma removeOwner_data this node s s' q :
  removeOwner this node s = Some (tt, s') →
  data <$> heap s' !! q = data <$> heap s !! q.
Proof.
  intros Hrun. destruct (heap s !! this) as [o|] eqn:Ho.
  - rewrite (removeOwner_eval _ _ _ _ Ho) in Hrun. injection Hrun as <-.
    cbn [heap]. destruct (decide (this = q)) as [<-|Hne].
    + by rewrite lookup_insert_eq, Ho.
    + by rewrite lookup_insert_ne.
  - unfold removeOwner in Hrun.
    by rewrite bind_unfold, (getObj_None _ _ Ho) in Hrun.
Qed.

Lemma eraseChildAt_cache_valid this i s s' q :
  eraseChildAt this i s = Some (tt, s') → cache_valid s' q = cache_valid s q.
Proof.
  unfold eraseChildAt. intros Hrun.
  apply bind_Some in Hrun as (g & ? & (o & Ho & Hg & ->)%getGroup_Some & Hrun).
  rewrite (putGroup_eval _ _ _ _ Ho) in Hrun. injection Hrun as <-.
  unfold cache_valid. cbn [heap].
  destruct (decide (this = q)) as [<-|Hne].
  - rewrite lookup_insert_eq, Ho. simpl.
    by rewrite (groupData_with _ _ _ Hg), Hg.
  - by rewrite lookup_insert_ne.
Qed.

(** addChild: the children and the flag of the group afterwards. *)
Lemma addChild_result fuel this node (doNotify : bool) s s' cs :
  addChild fuel this (Some node) doNotify s = Some (tt, s') →
  has_children s this cs →
  has_children s' this (cs ++ [node]) ∧
  cache_valid s' this = if doNotify then Some false else cache_valid s this.
Proof.
  intros Hrun Hcs. pose proof Hcs as (o & g & Ho & Hg & Hgcs).
  unfold addChild in Hrun.
  apply bind_Some in Hrun as (g' & ? & (o' & Ho' & Hg' & ->)%getGroup_Some & Hrun).
  assert (o' = o) as -> by congruence.
  assert (g' = g) as -> by congruence. subst cs.
  rewrite bind_unfold, (putGroup_eval _ _ _ _ Ho) in Hrun.
  set (s1 := mkState _ _) in Hrun.
  assert (has_children s1 this (children g ++ [node])) as Hcs1.
  { eexists _, _. subst s1. cbn [heap]. rewrite lookup_insert_eq.
    split; [done|]. cbn [data with_data].
    by rewrite (groupData_with _ _ _ Hg). }
  assert (cache_valid s1 this = cache_valid s this) as Hv1.
  { unfold cache_valid. subst s1. cbn [heap].
    rewrite lookup_insert_eq, Ho. simpl.
    by rewrite (groupData_with _ _ _ Hg), Hg. }
  destruct doNotify.
  - unfold addOwner_update in Hrun.
    apply bind_Some in Hrun as (on & ? & [Hon ->]%getObj_Some & Hrun).
    apply bind_Some in Hrun as ([] & s2 & [= <-] & Hrun).
    apply bind_Some in Hrun as ([] & s3 & Hwalk & Hrun).
    apply bind_Some in Hrun as (on3 & ? & [Hon3 ->]%getObj_Some & Hrun).
    set (s2 := mkState _ _) in Hwalk.
    assert (has_children s2 this (children g ++ [node])) as Hcs2.
    { eapply has_children_data; [|exact Hcs1]. subst s2. cbn [heap].
      destruct (decide (node = this)) as [->|Hne].
      - by rewrite lookup_insert_eq, Hon.
      - by rewrite lookup_insert_ne. }
    assert (heap s3 !! this = invalidated <$> heap s2 !! this) as E.
    { eapply (transferUpdate_owners _ _ _ _ _ _ this Hwalk).
      - subst s2. cbn [heap]. by rewrite lookup_insert_eq.
      - cbn [owners with_owners]. apply elem_of_owners_insert. by left. }
    destruct (cache_valid_invalidated _ _ _ _ E Hcs2) as [Hv3 Hcs3].
    assert (heap s' = heap s3) as Hheap.
    { destruct (bool_decide _); simpl in Hrun; by injection Hrun as <-. }
    split.
    + destruct Hcs3 as (o3 & g3 & ? & ? & ?). exists o3, g3.
      by rewrite Hheap.
    + unfold cache_valid in *. by rewrite Hheap.
  - pose proof (addOwner_data _ _ _ _ this Hrun) as Hd.
    split; [by eapply has_children_data|].
    by rewrite (cache_valid_data _ _ _ Hd).
Qed.

Lemma removeChild_step_cache_valid fuel this node (doNotify : bool) s s' q :
  removeChild_step fuel this node doNotify s = Some (tt, s') →
  (cache_valid s q = Some false → cache_valid s' q = Some false) ∧
  (doNotify = false → cache_valid s' q = cache_valid s q).
Proof.
  unfold removeChild_step. intros Hrun.
  apply bind_Some in Hrun as ([] & s1 & Hnotify & Hrun).
  apply bind_Some in Hrun as (g & ? & (o & Ho & Hg & ->)%getGroup_Some & Hrun).
  apply bind_Some in Hrun as ([] & s2 & Herase & Hrm).
  pose proof (eraseChildAt_cache_valid _ _ _ _ q Herase) as Hv2.
  pose proof (cache_valid_data _ _ _ (removeOwner_data _ _ _ _ q Hrm)) as Hv3.
  rewrite Hv3, Hv2. split.
  - destruct doNotify; simpl in Hnotify.
    + apply transferUpdate_walked in Hnotify as [Hw _].
      by apply cache_valid_walked_false.
    + by injection Hnotify as <-.
  - intros ->. simpl in Hnotify. by injection Hnotify as <-.
Qed.

Lemma iterM_step_cache_valid fuel this node (doNotify : bool) q k :
  ∀ s s',
  iterM k (removeChild_step fuel this node doNotify) s = Some (tt, s') →
  (cache_valid s q = Some false → cache_valid s' q = Some false) ∧
  (doNotify = false → cache_valid s' q = cache_valid s q).
Proof.
  induction k as [|k IH]; intros s s' Hrun; simpl in Hrun.
  - by injection Hrun as <-.
  - apply bind_Some in Hrun as ([] & s1 & Hstep & Hrun).
    destruct (removeChild_step_cache_valid _ _ _ _ _ _ q Hstep) as [H1 H2].
    destruct (IH _ _ Hrun) as [H3 H4]. split.
    + intros Hv. by apply H3, H1.
    + intros Hd. by rewrite (H4 Hd), (H2 Hd).
Qed.

(** removeChild: the flag of the group afterwards. *)
Lemma removeChild_result fuel this node (doNotify : bool) s s' r cs on :
  removeChild fuel this node doNotify s = Some (r, s') →
  has_children s this cs →
  (doNotify = false → cache_valid s' this = cache_valid s this) ∧
  (doNotify = true → node ∈ cs →
   heap s !! node = Some on → this ∈ owners on →
   cache_valid s' this = Some false).
Proof.
  intros Hrun Hcs.
  destruct (removeChild_steps fuel this node doNotify s cs Hcs) as (Heq & _).
  rewrite Heq in Hrun.
  apply bind_Some in Hrun as ([] & s1 & Hiter & Hret).
  assert (s' = s1) as -> by (by injection Hret as _ <-).
  split.
  - intros Hd. by eapply iterM_step_cache_valid.
  - intros -> Hin Hon Hown.
    rewrite (occurrences_delete_first _ _ Hin) in Hiter. simpl in Hiter.
    apply bind_Some in Hiter as ([] & s2 & Hstep & Hiter).
    eapply iterM_step_cache_valid; [exact Hiter|].
    unfold removeChild_step in Hstep.
    apply bind_Some in Hstep as ([] & s3 & Hnotify & Hstep).
    apply bind_Some in Hstep
      as (g & ? & (o & Ho & Hg & ->)%getGroup_Some & Hstep).
    apply bind_Some in Hstep as ([] & s4 & Herase & Hrm).
    rewrite (cache_valid_data _ _ _ (removeOwner_data _ _ _ _ this Hrm)).
    rewrite (eraseChildAt_cache_valid _ _ _ _ this Herase).
    simpl in Hnotify.
    pose proof (transferUpdate_owners _ _ _ _ _ _ this Hnotify Hon Hown) as E.
    by destruct (cache_valid_invalidated _ _ _ _ E Hcs).
Qed.

(** A second call of boundingBox() right after a first one returns the
    same box and leaves the store as it is. *)
Lemma boundingBox_twice n this s b s1 :
  boundingBox n this s = Some (b, s1) → boundingBox n this s1 = Some (b, s1).
Proof.
  destruct n as [|n]; [done|]. cbn [boundingBox]. intros Hrun.
  apply bind_Some in Hrun as (o & ? & [Ho ->]%getObj_Some & Hrun).
  destruct (data o) as [| |k g|k g u| | | | | | | | | | |sh| | | | |] eqn:Hd;
    try done;
    try (injection Hrun as <- <-;
         by rewrite (bind_step _ _ _ _ _ (getObj_lookup _ _ _ Ho)), Hd).
  - destruct (isBboxCacheValid g) eqn:Hvalid.
    + injection Hrun as <- <-.
      by rewrite (bind_step _ _ _ _ _ (getObj_lookup _ _ _ Ho)), Hd, Hvalid.
    + apply bind_Some in Hrun as ([] & s2 & _ & Hrun).
      apply bind_Some in Hrun as ([] & s3 & _ & Hrun).
      apply bind_Some in Hrun
        as (g3 & ? & (o3 & Ho3 & Hg3 & ->)%getGroup_Some & Hrun).
      rewrite bind_unfold, (putGroup_eval _ _ _ _ Ho3) in Hrun.
      injection Hrun as <- <-.
      erewrite bind_step; last first.
      { apply getObj_lookup. cbn [heap]. apply lookup_insert_eq. }
      destruct (data o3); simplify_eq/=; done.
  - destruct (isBboxCacheValid g) eqn:Hvalid.
    + injection Hrun as <- <-.
      by rewrite (bind_step _ _ _ _ _ (getObj_lookup _ _ _ Ho)), Hd, Hvalid.
    + apply bind_Some in Hrun as ([] & s2 & _ & Hrun).
      apply bind_Some in Hrun as ([] & s3 & _ & Hrun).
      apply bind_Some in Hrun
        as (g3 & ? & (o3 & Ho3 & Hg3 & ->)%getGroup_Some & Hrun).
      apply bind_Some in Hrun as (o4 & ? & [Ho4 ->]%getObj_Some & Hrun).
      injection Hrun as <- <-.
      erewrite bind_step; last first.
      { apply getObj_lookup. cbn [heap]. apply lookup_insert_eq. }
      done.
  - destruct (mesh_ sh) as [m|] eqn:Hm.
    + apply bind_Some in Hrun as (om & ? & [Hom ->]%getObj_Some & Hrun).
      destruct (data om) eqn:Hdm; try done. injection Hrun as <- <-.
      rewrite (bind_step _ _ _ _ _ (getObj_lookup _ _ _ Ho)), Hd, Hm.
      by rewrite (bind_step _ _ _ _ _ (getObj_lookup _ _ _ Hom)), Hdm.
    + injection Hrun as <- <-.
      by rewrite (bind_step _ _ _ _ _ (getObj_lookup _ _ _ Ho)), Hd, Hm.
Qed.

(** addChild returns: always without notification, and on a DAG of owner
    links with it. *)
Lemma addChild_returns rank fuel this node (doNotify : bool) s cs :
  has_children s this cs → is_Some (heap s !! node) →
  (doNotify = true → owners_ranked rank s ∧ rank this < rank node < fuel) →
  ∃ s', addChild fuel this (Some node) doNotify s = Some (tt, s').
Proof.
  intros (o & g & Ho & Hg & Hcs) [on Hon] Hnotify. unfold addChild.
  assert (getGroup this s = Some (g, s)) as Hgg by (apply getGroup_Some; eauto).
  rewrite (bind_step _ _ _ _ _ Hgg).
  rewrite (bind_step _ _ _ _ _ (putGroup_eval _ _ _ _ Ho)).
  set (o1 := with_data _ o). set (s1 := mkState _ _).
  assert (∀ q, is_Some (heap s !! q) → is_Some (heap s1 !! q)) as Hdom.
  { intros q Hq. subst s1. cbn [heap].
    destruct (decide (this = q)) as [<-|Hne].
    - rewrite lookup_insert_eq. eauto.
    - by rewrite lookup_insert_ne. }
  destruct (Hdom node) as [on1 Hon1]; [eauto|].
  destruct doNotify.
  - destruct Hnotify as [Hr Hlt]; [done|].
    destruct (addOwner_update_fires rank fuel node this (SgUpdate_new ADDED)
                s1 on1) as (s' & Hs' & _); [done| | |done|eauto].
    + eapply owners_ranked_mono; [exact Hdom| |exact Hr].
      intros q o'. subst s1. cbn [heap].
      destruct (decide (this = q)) as [<-|Hne].
      * rewrite lookup_insert_eq. intros [= <-]. eauto.
      * rewrite lookup_insert_ne by done. eauto.
    + apply Hdom. eauto.
  - rewrite (addOwner_eval _ _ _ _ Hon1). eauto.
Qed.

(** C2, amended. On a DAG of owner links, addChild and removeChild return.
    With notification, addChild leaves the cache of the group not valid,
    and so does removeChild of a child that occurs and has the group among
    its owners; without notification both leave the flag as it was. A
    received update notification leaves the cache not valid. Two calls of
    boundingBox() with nothing in between return the same box. *)
Theorem cache_invalidation rank fuel this node u s cs on :
  has_children s this cs → heap s !! node = Some on →
  owners_ranked rank s → rank this < rank node < fuel →
  (∃ s1 s2,
      addChild fuel this (Some node) true s = Some (tt, s1) ∧
      addChild fuel this (Some node) false s = Some (tt, s2) ∧
      cache_valid s1 this = Some false ∧
      cache_valid s2 this = cache_valid s this) ∧
  (∃ r1 s1 r2 s2,
      removeChild fuel this node true s = Some (r1, s1) ∧
      removeChild fuel this node false s = Some (r2, s2) ∧
      (node ∈ cs → this ∈ owners on → cache_valid s1 this = Some false) ∧
      cache_valid s2 this = cache_valid s this) ∧
  (∃ s', transferUpdate fuel this u s = Some (tt, s') ∧
         cache_valid s' this = Some false) ∧
  (∀ n b s1, boundingBox n this s = Some (b, s1) →
             boundingBox n this s1 = Some (b, s1)).
Proof.
  intros Hcs Hon Hr Hlt. split; [|split; [|split]].
  - destruct (addChild_returns rank fuel this node true s cs) as [s1 Hs1];
      [done|eauto|done|].
    destruct (addChild_returns rank fuel this node false s cs) as [s2 Hs2];
      [done|eauto|done|].
    exists s1, s2. split; [done|]. split; [done|].
    destruct (addChild_result _ _ _ _ _ _ _ Hs1 Hcs) as [_ Hv1].
    destruct (addChild_result _ _ _ _ _ _ _ Hs2 Hcs) as [_ Hv2].
    by split.
  - destruct (removeChild_steps fuel this node true s cs Hcs) as [Heq1 _].
    destruct (removeChild_steps fuel this node false s cs Hcs) as [Heq2 _].
    destruct (iterM_step_returns rank fuel this node true
                (occurrences node cs) s cs) as [[[] s1] Hs1];
      [done|done|eauto|intros _; split; [done|lia]|].
    destruct (iterM_step_returns rank fuel this node false
                (occurrences node cs) s cs) as [[[] s2] Hs2];
      [done|done|eauto|done|].
    rewrite (bind_step _ _ _ _ _ Hs1) in Heq1.
    rewrite (bind_step _ _ _ _ _ Hs2) in Heq2.
    eexists _, s1, _, s2. split; [exact Heq1|]. split; [exact Heq2|].
    destruct (removeChild_result _ _ _ _ _ _ _ _ on Heq1 Hcs) as [_ Hv1].
    destruct (removeChild_result _ _ _ _ _ _ _ _ on Heq2 Hcs) as [Hv2 _].
    split; [|by apply Hv2]. intros Hin Hown. by apply Hv1.
  - pose proof Hcs as (o & g & Ho & Hg & _).
    destruct (transferUpdate_returns rank fuel this u s) as [s' Hs'];
      [done|eauto|lia|].
    exists s'. split; [done|].
    apply transferUpdate_walked in Hs' as [_ E].
    by destruct (cache_valid_invalidated _ _ _ _ E Hcs).
  - intros n b s1. apply boundingBox_twice.
Qed.

End Invalidation.

(** ** The boxes of groups and transforms *)

Section Caches.
Context `{Geometry}.
Implicit Types (s t : State) (o : SgObj) (this : ptr).

Lemma children_rankedb_ok rank s :
  children_rankedb rank s = true → children_ranked rank s.
Proof.
  intros Hb%bool_decide_eq_true_1 p cs c (o & g & Ho & Hg & <-) Hc.
  specialize (Hb p o Ho). simpl in Hb. rewrite Hg in Hb. simpl in Hb.
  rewrite Forall_forall in Hb. by apply Hb.
Qed.

Lemma boxableb_ok s p : boxableb s p = true → boxable s p.
Proof.
  unfold boxableb. destruct (heap s !! p) as [o|] eqn:Ho; [|done].
  intros [Hn Hm]%andb_true_iff. exists o. split; [done|]. split; [done|].
  intros sh m Hd Hsh. rewrite Hd, Hsh in Hm.
  destruct (heap s !! m) as [om|]; [|done]. simpl in Hm.
  destruct (data om) eqn:Hdm; try done. by eexists _, _, _, _.
Qed.

Lemma scene_okb_ok s : scene_okb s = true → scene_ok s.
Proof.
  intros Hb%bool_decide_eq_true_1 p cs c (o & g & Ho & Hg & <-) Hc.
  specialize (Hb p o Ho). simpl in Hb. rewrite Hg in Hb. simpl in Hb.
  rewrite Forall_forall in Hb. by apply boxableb_ok, Hb.
Qed.

(** C4, amended. On a DAG of child links whose nodes are in the store,
    boundingBox() of a group returns. When the cache is valid it returns
    the cached box and leaves the store as it is. When it is not, it
    clears the cache, calls boundingBox() on every child in order, and
    returns the union of the boxes these calls returned, which it stores
    as the cache, now valid. *)
Theorem SgGroup_boundingBox rank n this s o k g :
  children_ranked rank s → scene_ok s →
  heap s !! this = Some o → data o = DGroup k g → rank this < S n →
  (isBboxCacheValid g = true →
     boundingBox (S n) this s = Some (bboxCache g, s)) ∧
  (isBboxCacheValid g = false →
     ∃ bs t,
       childBoxes n this (children g)
         (mkState (<[this := mkObj (name_ o) (owners o)
                     (DGroup k (mkGroup (children g) false BoundingBox_clear))]>
                     (heap s)) (events s)) = Some (bs, t) ∧
       boundingBox (S n) this s
         = Some (union_boxes bs,
                 mkState (<[this := mkObj (name_ o) (owners o)
                     (DGroup k (mkGroup (children g) true (union_boxes bs)))]>
                     (heap t)) (events t))).
Proof.
  intros Hr Hok Ho Hd Hlt. split; intros Hvalid.
  - cbn [boundingBox].
    by rewrite (bind_step _ _ _ _ _ (getObj_lookup _ _ _ Ho)), Hd, Hvalid.
  - destruct (group_recompute rank n this s o k g
                (boundingBox_returns rank n) Hr Hok Ho Hd Hvalid Hlt)
      as (bs & t & Hrun & Hbb & _).
    by exists bs, t.
Qed.

Lemma untransformedBoundingBox_after n this s o k g u b s' o' g' u' :
  heap s !! this = Some o → data o = DTransform k g u →
  (if isBboxCacheValid g then s' = s
   else boundingBox n this s = Some (b, s')) →
  heap s' !! this = Some o' → data o' = DTransform k g' u' →
  untransformedBoundingBox n this s = Some (u', s').
Proof.
  intros Ho Hd Hbb Ho' Hd'. unfold untransformedBoundingBox.
  rewrite (bind_step _ _ _ _ _ (getObj_lookup _ _ _ Ho)), Hd.
  destruct (isBboxCacheValid g); simpl.
  - subst s'. rewrite bind_unfold. simpl.
    by rewrite (bind_step _ _ _ _ _ (getObj_lookup _ _ _ Ho')), Hd'.
  - rewrite !bind_assoc, (bind_step _ _ _ _ _ Hbb). rewrite bind_unfold.
    simpl.
    by rewrite (bind_step _ _ _ _ _ (getObj_lookup _ _ _ Ho')), Hd'.
Qed.

(** C6, amended. On a DAG of child links whose nodes are in the store,
    boundingBox() of a position or scale transform returns. When the cache
    is valid, boundingBox() returns the cached box and
    untransformedBoundingBox() the cached untransformed box. When it is
    not, boundingBox() returns the union of the boxes that boundingBox()
    returned on the children, transformed by the matrix of the node; it
    stores that box and the union itself, and raises the one flag that
    holds for both; untransformedBoundingBox(), called instead or next,
    returns that union. invalidateBoundingBox() lowers the flag. *)
Theorem SgTransform_boundingBox rank n this s o k g u :
  children_ranked rank s → scene_ok s →
  heap s !! this = Some o → data o = DTransform k g u → rank this < S n →
  let T := match k with
           | KPosTransform T_ => T_
           | KScaleTransform scale_ => Affine3_asDiagonal scale_
           end in
  (isBboxCacheValid g = true →
     boundingBox (S n) this s = Some (bboxCache g, s) ∧
     untransformedBoundingBox (S n) this s = Some (u, s)) ∧
  (isBboxCacheValid g = false →
     ∃ bs t,
       childBoxes n this (children g)
         (mkState (<[this := mkObj (name_ o) (owners o)
                     (DTransform k
                        (mkGroup (children g) false BoundingBox_clear) u)]>
                     (heap s)) (events s)) = Some (bs, t) ∧
       let s' := mkState (<[this := mkObj (name_ o) (owners o)
                   (DTransform k
                      (mkGroup (children g) true
                               (BoundingBox_transform (union_boxes bs) T))
                      (union_boxes bs))]> (heap t)) (events t) in
       boundingBox (S n) this s
         = Some (BoundingBox_transform (union_boxes bs) T, s') ∧
       untransformedBoundingBox (S n) this s = Some (union_boxes bs, s') ∧
       untransformedBoundingBox (S n) this s' = Some (union_boxes bs, s')) ∧
  (∃ s1, invalidateBoundingBox this s = Some (tt, s1) ∧
         cache_valid s1 this = Some false).
Proof.
  intros Hr Hok Ho Hd Hlt T. split; [|split].
  - intros Hvalid. split.
    + cbn [boundingBox].
      by rewrite (bind_step _ _ _ _ _ (getObj_lookup _ _ _ Ho)), Hd, Hvalid.
    + eapply (untransformedBoundingBox_after _ _ _ _ _ _ _ BoundingBox_clear);
        [exact Ho|exact Hd| |exact Ho|exact Hd].
      by rewrite Hvalid.
  - intros Hvalid.
    destruct (transform_recompute rank n this s o k g u
                (boundingBox_returns rank n) Hr Hok Ho Hd Hvalid Hlt)
      as (bs & t & Hrun & Hbb & _).
    exists bs, t. split; [done|]. intros s'. split; [done|].
    assert (heap s' !! this = Some (mkObj (name_ o) (owners o)
              (DTransform k
                 (mkGroup (children g) true
                          (BoundingBox_transform (union_boxes bs) T))
                 (union_boxes bs)))) as Ho'.
    { subst s'. cbn [heap]. by rewrite lookup_insert_eq. }
    split.
    + eapply untransformedBoundingBox_after;
        [exact Ho|exact Hd| |exact Ho'|reflexivity].
      rewrite Hvalid. exact Hbb.
    + eapply (untransformedBoundingBox_after _ _ _ _ _ _ _ BoundingBox_clear);
        [exact Ho'|reflexivity| |exact Ho'|reflexivity].
      done.
  - rewrite (invalidateBoundingBox_eval _ _ o Ho) by (rewrite Hd; eauto).
    eexists. split; [done|]. unfold cache_valid. cbn [heap].
    rewrite lookup_insert_eq. simpl.
    by rewrite (invalidated_groupData o g) by (by rewrite Hd).
Qed.

End Caches.

Example boundingBox_fresh_group :
  ∃ s', boundingBox 3 1 Sample.fresh_group
        = Some (Some (mkVector3 (-1) (-1) (-1), mkVector3 1 1 1), s') ∧
        cache_valid s' 1 = Some true.
Proof. eexists. split; [vm_compute; reflexivity|reflexivity]. Qed.

Example boundingBox_fresh_transform :
  ∃ s', boundingBox 3 1 Sample.fresh_transform
        = Some (Some (mkVector3 0 (-1) (-1), mkVector3 2 1 1), s') ∧
        untransformedBoundingBox 3 1 s'
        = Some (Some (mkVector3 (-1) (-1) (-1), mkVector3 1 1 1), s').
Proof. eexists. split; vm_compute; reflexivity. Qed.

Lemma cache_invalidation_witness :
  let s := Sample.fresh_group in
  let on := mkObj "" [1%positive] (DShape (mkShape (Some 3%positive) None None)) in
  (∃ s1 s2,
      addChild 4 1 (Some 2%positive) true s = Some (tt, s1) ∧
      addChild 4 1 (Some 2%positive) false s = Some (tt, s2) ∧
      cache_valid s1 1 = Some false ∧
      cache_valid s2 1 = cache_valid s 1) ∧
  (∃ r1 s1 r2 s2,
      removeChild 4 1 2 true s = Some (r1, s1) ∧
      removeChild 4 1 2 false s = Some (r2, s2) ∧
      (2%positive ∈ [2%positive] → 1%positive ∈ owners on →
       cache_valid s1 1 = Some false) ∧
      cache_valid s2 1 = cache_valid s 1) ∧
  (∃ s', transferUpdate 4 1 (SgUpdate_new MODIFIED) s = Some (tt, s') ∧
         cache_valid s' 1 = Some false) ∧
  (∀ n b s1, boundingBox n 1 s = Some (b, s1) →
             boundingBox n 1 s1 = Some (b, s1)).
Proof.
  intros s on.
  apply (cache_invalidation Sample.rank_by_address 4 1 2
           (SgUpdate_new MODIFIED) s [2%positive] on).
  - eexists _, _. split; [vm_compute; reflexivity|]. split; reflexivity.
  - vm_compute. reflexivity.
  - apply owners_rankedb_ok. vm_compute. reflexivity.
  - vm_compute. lia.
Defined.

(** After [addChild(shape, false)] on a group whose cache is valid, the
    cache is still valid, and boundingBox() returns the box it returned
    before the shape was added. *)
Lemma addChild_without_notification_keeps_cache :
  ∃ b s',
    boundingBox 3 1 Sample.valid_group_and_shape
      = Some (b, Sample.valid_group_and_shape) ∧
    addChild 0 1 (Some 2%positive) false Sample.valid_group_and_shape
      = Some (tt, s') ∧
    has_children s' 1 [2%positive] ∧
    cache_valid s' 1 = Some true ∧
    boundingBox 3 1 s' = Some (b, s').
Proof.
  eexists _, _. split; [vm_compute; reflexivity|].
  split; [vm_compute; reflexivity|]. split.
  - eexists _, _. split; [reflexivity|]. split; reflexivity.
  - split; [reflexivity|]. vm_compute. reflexivity.
Qed.

Lemma SgGroup_boundingBox_witness :
  let s := Sample.fresh_group in
  let g := mkGroup [2%positive] false None in
  let o := mkObj "" [] (DGroup KGroup g) in
  (isBboxCacheValid g = true → boundingBox 11 1 s = Some (bboxCache g, s)) ∧
  (isBboxCacheValid g = false →
     ∃ bs t,
       childBoxes 10 1 (children g)
         (mkState (<[1%positive := mkObj (name_ o) (owners o)
                     (DGroup KGroup
                        (mkGroup (children g) false BoundingBox_clear))]>
                     (heap s)) (events s)) = Some (bs, t) ∧
       boundingBox 11 1 s
         = Some (union_boxes bs,
                 mkState (<[1%positive := mkObj (name_ o) (owners o)
                     (DGroup KGroup
                        (mkGroup (children g) true (union_boxes bs)))]>
                     (heap t)) (events t))).
Proof.
  intros s g o.
  apply (SgGroup_boundingBox Sample.rank_by_depth 10 1 s o KGroup g).
  - apply children_rankedb_ok. vm_compute. reflexivity.
  - apply scene_okb_ok. vm_compute. reflexivity.
  - vm_compute. reflexivity.
  - reflexivity.
  - vm_compute. lia.
Defined.

(** A group whose cache is valid returns it, whatever its children: here
    the empty box, with a child whose box is not empty. *)
Lemma boundingBox_returns_stale_cache :
  ∃ b bc s',
    has_children Sample.stale_group 1 [2%positive] ∧
    boundingBox 3 1 Sample.stale_group = Some (b, Sample.stale_group) ∧
    boundingBox 2 2 Sample.stale_group = Some (bc, s') ∧
    b ≠ union_boxes [bc].
Proof.
  eexists _, _, _. split.
  { eexists _, _. split; [vm_compute; reflexivity|]. split; reflexivity. }
  split; [vm_compute; reflexivity|]. split; [vm_compute; reflexivity|].
  vm_compute. discriminate.
Qed.

Lemma SgTransform_boundingBox_witness :
  let s := Sample.fresh_transform in
  let g := mkGroup [2%positive] false None in
  let k := KPosTransform Sample.shift_x in
  let o := mkObj "" [] (DTransform k g None) in
  let T := Sample.shift_x in
  (isBboxCacheValid g = true →
     boundingBox 11 1 s = Some (bboxCache g, s) ∧
     untransformedBoundingBox 11 1 s = Some (None, s)) ∧
  (isBboxCacheValid g = false →
     ∃ bs t,
       childBoxes 10 1 (children g)
         (mkState (<[1%positive := mkObj (name_ o) (owners o)
                     (DTransform k
                        (mkGroup (children g) false BoundingBox_clear) None)]>
                     (heap s)) (events s)) = Some (bs, t) ∧
       let s' := mkState (<[1%positive := mkObj (name_ o) (owners o)
                   (DTransform k
                      (mkGroup (children g) true
                               (BoundingBox_transform (union_boxes bs) T))
                      (union_boxes bs))]> (heap t)) (events t) in
       boundingBox 11 1 s
         = Some (BoundingBox_transform (union_boxes bs) T, s') ∧
       untransformedBoundingBox 11 1 s = Some (union_boxes bs, s') ∧
       untransformedBoundingBox 11 1 s' = Some (union_boxes bs, s')) ∧
  (∃ s1, invalidateBoundingBox 1 s = Some (tt, s1) ∧
         cache_valid s1 1 = Some false).
Proof.
  intros s g k o T.
  apply (SgTransform_boundingBox Sample.rank_by_depth 10 1 s o k g None).
  - apply children_rankedb_ok. vm_compute. reflexivity.
  - apply scene_okb_ok. vm_compute. reflexivity.
  - vm_compute. reflexivity.
  - reflexivity.
  - vm_compute. lia.
Defined.

(** A transform whose cache is valid returns it, whatever its children:
    here the empty box, with a child whose box is not empty. *)
Lemma transform_returns_stale_cache :
  ∃ b bc s',
    has_children Sample.stale_transform 1 [2%positive] ∧
    boundingBox 3 1 Sample.stale_transform = Some (b, Sample.stale_transform) ∧
    boundingBox 2 2 Sample.stale_transform = Some (bc, s') ∧
    b ≠ BoundingBox_transform (union_boxes [bc]) Sample.shift_x.
Proof.
  eexists _, _, _. split.
  { eexists _, _. split; [vm_compute; reflexivity|]. split; reflexivity. }
  split; [vm_compute; reflexivity|]. split; [vm_compute; reflexivity|].
  vm_compute. discriminate.
Qed.

(** ** Owner/child symmetry *)

Section Symmetry.
Context `{Geometry}.
Implicit Types (s t : State) (o : SgObj) (this node : ptr).

Lemma owner_child_symmetricb_ok s :
  owner_child_symmetricb s = true → owner_child_symmetric s.
Proof.
  intros Hb%bool_decide_eq_true_1 G N [g Hg]. unfold is_group in *.
  destruct (heap s !! G) as [o|] eqn:Ho; [|done]. simpl in Hg.
  destruct (Hb G o Ho) as [Hall Hown]; [eauto|].
  rewrite Forall_forall in Hall. split; [apply Hall|].
  unfold ownersOf. destruct (heap s !! N) as [oN|] eqn:HoN; simpl.
  - by apply Hown.
  - by intros ?%elem_of_nil.
Qed.

End Symmetry.

(** removeChildAt, on a group with one child, takes the group out of the
    owner set of the child: the symmetry holds after it. *)
Example removeChildAt_keeps_symmetry :
  ∃ s', removeChildAt 3 1 0 false Sample.fresh_group = Some (tt, s') ∧
        childrenOf s' 1 = [] ∧ ownersOf s' 2 = [] ∧
        owner_child_symmetric s'.
Proof.
  eexists. split; [vm_compute; reflexivity|].
  split; [reflexivity|]. split; [reflexivity|].
  apply owner_child_symmetricb_ok. vm_compute. reflexivity.
Qed.

(** C1, at an input where it fails. clearChildren, on the same group,
    empties the child list and leaves the group in the owner set of the
    former child: the symmetry that held before does not hold after. *)
Lemma clearChildren_breaks_symmetry :
  owner_child_symmetric Sample.fresh_group ∧
  ∃ s', clearChildren 3 1 false Sample.fresh_group = Some (tt, s') ∧
        childrenOf s' 1 = [] ∧ ownersOf s' 2 = [1%positive] ∧
        ¬ owner_child_symmetric s'.
Proof.
  split.
  { apply owner_child_symmetricb_ok. vm_compute. reflexivity. }
  eexists. split; [vm_compute; reflexivity|].
  split; [reflexivity|]. split; [reflexivity|].
  intros Hsym. destruct (Hsym 1%positive 2%positive) as [_ Hback].
  { eexists. reflexivity. }
  assert (2%positive ∈ @nil positive) as Hin.
  { apply Hback. vm_compute. apply list_elem_of_In. by left. }
  by apply elem_of_nil in Hin.
Qed.

(** ** Cloning *)

Section Cloning.
Context `{Geometry}.
Implicit Types (s t : State) (o : SgObj) (this org : ptr) (cm : SgCloneMap)
  (st : SgCloneMap * State).

Lemma grown_refl ex s : grown ex s s.
Proof. intros p o Ho _. eauto. Qed.

Lemma grown_trans ex s1 s2 s3 :
  grown ex s1 s2 → grown ex s2 s3 → grown ex s1 s3.
Proof.
  intros H12 H23 p o Ho Hp.
  destruct (H12 p o Ho Hp) as (o2 & Ho2 & Hd2 & Hn2).
  destruct (H23 p o2 Ho2 Hp) as (o3 & Ho3 & Hd3 & Hn3).
  exists o3. split; [done|]. split; congruence.
Qed.

Lemma grown_weaken ex s s' : grown None s s' → grown ex s s'.
Proof. intros Hg p o Ho _. by apply Hg. Qed.

(** A store grown around a [this] that the first store does not have. *)
Lemma grown_fresh this s s' :
  grown (Some this) s s' → heap s !! this = None → grown None s s'.
Proof.
  intros Hg Hthis p o Ho _. apply (Hg p o Ho). intros [= ->]. congruence.
Qed.

Lemma grown_None_lookup s s' p :
  grown None s s' → heap s' !! p = None → heap s !! p = None.
Proof.
  intros Hg Hp. destruct (heap s !! p) as [o|] eqn:Ho; [|done].
  destruct (Hg p o Ho) as (o' & Ho' & _); [done|congruence].
Qed.

Lemma member_clone_mono cm cm' v v' :
  cloneMap cm ⊆ cloneMap cm' →
  isNonNodeCloningEnabled_ cm' = isNonNodeCloningEnabled_ cm →
  member_clone cm v v' → member_clone cm' v v'.
Proof.
  intros Hsub Hflag. unfold member_clone. rewrite Hflag.
  destruct v as [x|]; [|done].
  destruct (isNonNodeCloningEnabled_ cm); [|done].
  intros (x' & Hx & ->). exists x'. split; [|done].
  by eapply lookup_weaken.
Qed.

Lemma clone_of_mono cm cm' (d d' : SgData) :
  cloneMap cm ⊆ cloneMap cm' →
  isNonNodeCloningEnabled_ cm' = isNonNodeCloningEnabled_ cm →
  clone_of cm d d' → clone_of cm' d d'.
Proof.
  intros Hsub Hflag. unfold clone_of.
  destruct (groupData d) as [g|].
  - intros (g' & Hg' & Hall). exists g'. split; [done|].
    eapply Forall2_impl; [exact Hall|]. intros x x' Hx. simpl in *.
    by eapply lookup_weaken.
  - intros (Hcl & Hcopy & Hm). split; [done|]. split; [done|].
    intros f Hf. destruct (Hm f Hf) as (v & v' & Hv & Hv' & Hmc).
    exists v, v'. split; [done|]. split; [done|].
    by eapply member_clone_mono.
Qed.

Lemma clone_step_refl s0 rank r ex st :
  clone_inv s0 st → (∀ k c, cloneMap st.1 !! k = Some c → Some c ≠ ex) →
  clone_step s0 rank r ex st st.
Proof.
  intros Hinv Hval. split; [done|]. split; [apply grown_refl|].
  split; [done|]. split; [done|]. split; [by left|]. split; [by left|done].
Qed.

Lemma clone_step_trans s0 rank r ex st1 st2 st3 :
  clone_step s0 rank r ex st1 st2 → clone_step s0 rank r ex st2 st3 →
  clone_step s0 rank r ex st1 st3.
Proof.
  intros (Hi2 & Hg2 & Hs2 & Hf2 & Hk2 & Hv2 & Ht2)
         (Hi3 & Hg3 & Hs3 & Hf3 & Hk3 & Hv3 & Ht3).
  split; [done|]. split; [by eapply grown_trans|].
  split; [by etrans|]. split; [congruence|]. split; [|split; [|done]].
  - intros k Hk. destruct (Hk3 k Hk) as [Hk'|?]; [|by right].
    by apply Hk2.
  - intros k c Hc. destruct (Hv3 k c Hc) as [Hc'|Hc']; [by apply Hv2|].
    right. destruct (heap st1.2 !! c) as [oc|] eqn:Hoc; [|done].
    destruct (decide (Some c = ex)) as [E|Hne].
    + by destruct (Ht3 k c Hc).
    + destruct (Hg2 c oc Hoc Hne) as (? & ? & _). congruence.
Qed.

Lemma new_alloc o s :
  ∃ this s1, new o s = Some (this, s1) ∧ heap s !! this = None ∧
             heap s1 = <[this := o]> (heap s) ∧ events s1 = events s ∧
             grown None s s1.
Proof.
  eexists _, _. split; [reflexivity|].
  pose proof (fresh_lookup s) as Hf. split; [done|]. split; [done|].
  split; [done|]. intros p op Hp _. exists op. cbn [heap].
  rewrite lookup_insert_ne by (intros E; congruence). done.
Qed.

(** A step on the store alone, which leaves every object but [this] with
    its members, is a step of the cloning operation. *)
Lemma clone_step_heap s0 rank r this cm s s' :
  clone_inv s0 (cm, s) → grown (Some this) s s' → heap s0 !! this = None →
  (∀ k c, cloneMap cm !! k = Some c → c ≠ this) →
  clone_step s0 rank r (Some this) (cm, s) (cm, s').
Proof.
  intros [Hg0 Hent] Hg Hthis Hval. split; [|split; [done|]].
  - split.
    + intros p o Ho _. destruct (Hg0 p o Ho) as (o1 & Ho1 & Hd1 & Hn1); [done|].
      destruct (Hg p o1 Ho1) as (o2 & Ho2 & Hd2 & Hn2);
        [intros [= ->]; congruence|].
      exists o2. split; [done|]. split; congruence.
    + intros k c Hc. destruct (Hent k c Hc) as (Hc0 & ok & oc & Hok & Hoc & Hcl).
      split; [done|]. cbn [fst snd] in *.
      destruct (Hg c oc Hoc) as (oc' & Hoc' & Hd' & _).
      { intros [= ->]. by eapply Hval. }
      exists ok, oc'. split; [done|]. split; [done|]. by rewrite Hd'.
  - split; [done|]. split; [done|]. split; [by left|]. split; [by left|].
    intros k c Hc [= ->]. by eapply Hval.
Qed.

(** [addChild(c, false)] on the clone under construction; the group keeps
    its class and the members of the derived class. *)
Lemma addChild_silent this c s l oc :
  has_children s this l → heap s !! c = Some oc → c ≠ this →
  ∃ s', addChild O this (Some c) false s = Some (tt, s') ∧
        has_children s' this (l ++ [c]) ∧ grown (Some this) s s' ∧
        ∀ o, heap s !! this = Some o →
             ∃ o', heap s' !! this = Some o' ∧
                   with_groupData SgGroup_blank (data o')
                   = with_groupData SgGroup_blank (data o).
Proof.
  intros (o & g & Ho & Hg & Hl) Hoc Hne. unfold addChild.
  assert (getGroup this s = Some (g, s)) as Hgg by (apply getGroup_Some; eauto).
  rewrite (bind_step _ _ _ _ _ Hgg).
  rewrite (bind_step _ _ _ _ _ (putGroup_eval _ _ _ _ Ho)).
  erewrite addOwner_eval; last first.
  { cbn [heap]. rewrite lookup_insert_ne by done. exact Hoc. }
  eexists. split; [reflexivity|]. split; [|split].
  - eexists _, _. cbn [heap].
    rewrite lookup_insert_ne, lookup_insert_eq by done.
    split; [done|]. cbn [data with_data].
    rewrite (groupData_with _ _ _ Hg). split; [done|]. simpl. by rewrite Hl.
  - intros p op Hp Hpt. cbn [heap].
    destruct (decide (c = p)) as [<-|Hcp].
    + rewrite lookup_insert_eq. eexists. split; [done|].
      assert (op = oc) as -> by congruence. done.
    + rewrite !lookup_insert_ne by (done || (intros ->; done)). eauto.
  - intros o1 Ho1. assert (o1 = o) as -> by congruence. cbn [heap].
    rewrite lookup_insert_ne, lookup_insert_eq by done.
    eexists. split; [done|]. cbn [data with_data].
    apply with_groupData_twice.
Qed.

Lemma getMember_assign f v (d : SgData) w :
  getMember f d = Some w → getMember f (assignMember f v d) = Some v.
Proof. destruct f, d; simpl; done. Qed.

Lemma getMember_assign_ne f f' v (d : SgData) :
  f ≠ f' → getMember f' (assignMember f v d) = getMember f' d.
Proof. intros Hne. destruct f, d; simpl; try done; destruct f'; done. Qed.

Lemma cloned_members_assign f v (d : SgData) :
  cloned_members (assignMember f v d) = cloned_members d.
Proof. destruct f, d; done. Qed.

Lemma groupData_assign f v (d : SgData) :
  groupData (assignMember f v d) = groupData d.
Proof. destruct f, d; done. Qed.

(** A setter on the clone under construction, for a member that is still
    null. *)
Lemma setMember_null f this v s o :
  heap s !! this = Some o → getMember f (data o) = Some None →
  (∀ q, v = Some q → q ≠ this ∧ is_Some (heap s !! q)) →
  ∃ s' o', setMember f this v s = Some (v, s') ∧
           heap s' !! this = Some o' ∧
           data o' = assignMember f v (data o) ∧
           grown (Some this) s s'.
Proof.
  intros Ho Hf Hv. unfold setMember.
  rewrite (bind_step _ _ _ _ _ (getObj_lookup _ _ _ Ho)), Hf.
  rewrite bind_unfold, mret_unfold.
  rewrite (bind_step _ _ _ _ _ (getObj_lookup _ _ _ Ho)).
  rewrite bind_unfold. simpl.
  destruct v as [q|].
  - destruct (Hv q eq_refl) as [Hne [oq Hoq]].
    erewrite (bind_step (addOwner q this)); last first.
    { apply (addOwner_eval _ _ _ oq). cbn [heap].
      by rewrite lookup_insert_ne. }
    eexists _, _. split; [reflexivity|]. cbn [heap].
    rewrite lookup_insert_ne, lookup_insert_eq by done.
    split; [done|]. split; [done|].
    intros p op Hp Hpt. cbn [heap].
    destruct (decide (q = p)) as [<-|Hqp].
    + rewrite lookup_insert_eq. eexists. split; [done|].
      assert (op = oq) as -> by congruence. done.
    + rewrite !lookup_insert_ne by (done || (intros ->; done)). eauto.
  - eexists _, _. split; [reflexivity|]. cbn [heap].
    rewrite lookup_insert_eq. split; [done|]. split; [done|].
    intros p op Hp Hpt. cbn [heap].
    rewrite lookup_insert_ne by (intros ->; done). eauto.
Qed.

Lemma grown_has_children ex s s' this l :
  grown ex s s' → Some this ≠ ex → has_children s this l →
  has_children s' this l.
Proof.
  intros Hg Hne (o & g & Ho & Hgd & Hl).
  destruct (Hg this o Ho Hne) as (o' & Ho' & Hd' & _).
  exists o', g. by rewrite Hd'.
Qed.

(** A step of a nested call is a step of the construction of [this], an
    object of the store that no entry of the map had for clone. *)
Lemma clone_step_weaken s0 rank r r' this st st' :
  clone_step s0 rank r' None st st' → r' ≤ r →
  is_Some (heap st.2 !! this) →
  (∀ k c, cloneMap st.1 !! k = Some c → c ≠ this) →
  clone_step s0 rank r (Some this) st st'.
Proof.
  intros (Hi & Hg & Hs & Hf & Hk & Hv & _) Hle [othis Hthis] Hval.
  split; [done|]. split; [by apply grown_weaken|]. split; [done|].
  split; [done|]. split; [|split; [done|]].
  - intros k Hk'. destruct (Hk k Hk'); [by left|right; lia].
  - intros k c Hc [= ->]. destruct (Hv k this Hc) as [Hold|Hnew].
    + by eapply Hval.
    + congruence.
Qed.

(** The loop of the cloning constructor of SgGroup: every child is cloned
    through the map and the clone is added to [this], in order. *)
Lemma group_clone_loop s0 rank r getClone this :
  getClone_ok s0 rank r getClone → heap s0 !! this = None →
  ∀ cs st done done' othis,
  clone_inv s0 st →
  (∀ k c, cloneMap st.1 !! k = Some c → c ≠ this) →
  heap st.2 !! this = Some othis →
  has_children st.2 this done' →
  Forall2 (λ x x', cloneMap st.1 !! x = Some x') done done' →
  (∀ c, c ∈ cs → is_Some (heap s0 !! c) ∧ rank c < r) →
  ∃ st' cs' othis',
    forM_ cs (λ p, c ← getClone p; liftSg (addChild O this (Some c) false)) st
      = Some (tt, st') ∧
    clone_step s0 rank r (Some this) st st' ∧
    has_children st'.2 this (done' ++ cs') ∧
    Forall2 (λ x x', cloneMap st'.1 !! x = Some x') (done ++ cs) (done' ++ cs') ∧
    heap st'.2 !! this = Some othis' ∧
    with_groupData SgGroup_blank (data othis')
    = with_groupData SgGroup_blank (data othis).
Proof.
  intros Hget Hthis0. induction cs as [|p cs IH];
    intros st done done' othis Hinv Hval Hothis Hcs Hall Hranked.
  - exists st, [], othis. split; [done|]. rewrite !app_nil_r.
    split; [by apply clone_step_refl; [|intros k c Hc [= ->]; eapply Hval]|].
    by repeat split.
  - destruct (Hranked p) as [Hp0 Hpr]; [set_solver|].
    destruct (Hget p st Hp0 Hinv Hpr) as (c & st1 & Hrun1 & Hstep1 & Hc).
    assert (is_Some (heap st.2 !! this)) as Hthis by eauto.
    assert (clone_step s0 rank r (Some this) st st1) as Hstep1'.
    { eapply clone_step_weaken; [exact Hstep1|lia|done|done]. }
    pose proof (proj1 (proj2 Hstep1)) as Hg1n.
    destruct st1 as [cm1 s1].
    pose proof Hstep1' as (Hi1 & Hg1 & Hs1 & Hf1 & Hk1 & Hv1 & Ht1).
    cbn [fst snd] in *.
    destruct (proj2 Hi1 p c Hc) as (_ & ok & oc & Hok & Hoc & _).
    cbn [fst snd] in *.
    assert (c ≠ this) as Hcthis by (intros ->; by eapply Ht1).
    assert (has_children s1 this done') as Hcs1.
    { by eapply grown_has_children; [exact Hg1n| |]. }
    destruct (Hg1n this othis Hothis) as (othis1 & Hothis1 & Hd1 & _); [done|].
    destruct (addChild_silent this c s1 done' oc Hcs1 Hoc Hcthis)
      as (s2 & Hadd & Hcs2 & Hg2 & Hkind2).
    destruct (Hkind2 othis1 Hothis1) as (othis2 & Hothis2 & Hd2).
    assert (clone_step s0 rank r (Some this) (cm1, s1) (cm1, s2)) as Hstep2.
    { apply clone_step_heap; [done..|].
      intros k c' Hc' ->. by eapply Ht1. }
    destruct (IH (cm1, s2) (done ++ [p]) (done' ++ [c]) othis2) as
      (st' & cs' & othis' & Hrun' & Hstep' & Hcs' & Hall' & Hothis' & Hd').
    { by destruct Hstep2. }
    { intros k c' Hc' ->. by eapply Ht1. }
    { done. }
    { done. }
    { apply Forall2_app; [|by constructor].
      eapply Forall2_impl; [exact Hall|]. intros x x' Hx. cbn in *.
      by eapply lookup_weaken. }
    { intros c' Hc'. apply Hranked. set_solver. }
    exists st', (c :: cs'), othis'.
    split; [|split; [|split; [|split; [|split]]]].
    + simpl. rewrite bind_assoc, (bind_step _ _ _ _ _ Hrun1).
      by rewrite (bind_step _ _ _ _ _ (liftSg_step _ _ _ _ _ Hadd)).
    + eapply clone_step_trans; [|exact Hstep'].
      eapply clone_step_trans; [|exact Hstep2].
      exact Hstep1'.
    + by rewrite <- app_assoc in Hcs'.
    + by rewrite <- !app_assoc in Hall'.
    + done.
    + by rewrite Hd', Hd2, Hd1.
Qed.

(** The members filled by a cloning constructor: every member of [fs],
    null so far in [this], ends related to the one of the original by
    [member_clone]; the other members of [this] stay as they are. *)
Lemma member_clone_loop s0 rank r getClone this org oorg :
  getClone_ok s0 rank r getClone → heap s0 !! this = None →
  heap s0 !! org = Some oorg →
  ∀ fs st othis,
  clone_inv s0 st →
  (∀ k c, cloneMap st.1 !! k = Some c → c ≠ this) →
  heap st.2 !! this = Some othis →
  NoDup fs →
  (∀ f, f ∈ fs → is_Some (getMember f (data oorg)) ∧
                 getMember f (data othis) = Some None) →
  (∀ f x, f ∈ fs → getMember f (data oorg) = Some (Some x) →
          is_Some (heap s0 !! x) ∧ rank x < r) →
  ∃ st' othis',
    forM_ fs (cloneMember getClone (isNonNodeCloningEnabled_ st.1) this org) st
      = Some (tt, st') ∧
    clone_step s0 rank r (Some this) st st' ∧
    heap st'.2 !! this = Some othis' ∧
    (∀ f, f ∈ fs → ∃ v v', getMember f (data oorg) = Some v ∧
                           getMember f (data othis') = Some v' ∧
                           member_clone st'.1 v v') ∧
    (∀ f, f ∉ fs → getMember f (data othis') = getMember f (data othis)) ∧
    cloned_members (data othis') = cloned_members (data othis) ∧
    groupData (data othis') = groupData (data othis).
Proof.
  intros Hget Hthis0 Horg. induction fs as [|f fs IH];
    intros st othis Hinv Hval Hthis Hnodup Hnull Hranked.
  - exists st, othis. split; [done|].
    split; [by apply clone_step_refl; [|intros k c Hc [= ->]; eapply Hval]|].
    split; [done|]. split; [by intros f ?%elem_of_nil|]. by split.
  - apply NoDup_cons in Hnodup as [Hf Hnodup].
    destruct (Hnull f) as [[v Hv] Hfnull]; [set_solver|].
    (* the original is in the store with its members *)
    destruct (proj1 Hinv org oorg Horg) as (oorg' & Horg' & Hdorg & _);
      [done|].
    (* one member *)
    assert (∃ st1 othis1,
      cloneMember getClone (isNonNodeCloningEnabled_ st.1) this org f st
        = Some (tt, st1) ∧
      clone_step s0 rank r (Some this) st st1 ∧
      heap st1.2 !! this = Some othis1 ∧
      (∃ v', getMember f (data othis1) = Some v' ∧ member_clone st1.1 v v') ∧
      (∀ f', f' ≠ f → getMember f' (data othis1) = getMember f' (data othis)) ∧
      cloned_members (data othis1) = cloned_members (data othis) ∧
      groupData (data othis1) = groupData (data othis))
      as (st1 & othis1 & Hrun1 & Hstep1 & Hthis1 & (v' & Hv' & Hmc) & Hoth1
          & Hcl1 & Hgd1).
    { unfold cloneMember. destruct st as [cm s]. cbn [fst snd] in *.
      rewrite (bind_step _ _ _ _ _ (liftSg_step _ _ _ _ _
                 (getObj_lookup _ _ _ Horg'))).
      rewrite Hdorg, Hv.
      destruct (isNonNodeCloningEnabled_ cm) eqn:Hflag.
      - destruct v as [q|].
        + (* the member is cloned through the map *)
          destruct (Hranked f q) as [Hq0 Hqr]; [set_solver|done|].
          destruct (Hget q (cm, s) Hq0 Hinv Hqr)
            as (c & [cm1 s1] & Hrunq & Hstepq & Hc).
          assert (clone_step s0 rank r (Some this) (cm, s) (cm1, s1))
            as Hstepq'.
          { eapply clone_step_weaken; [exact Hstepq|lia|by eauto|done]. }
          pose proof (proj1 (proj2 Hstepq)) as Hgn.
          pose proof Hstepq' as (Hi1 & Hg1 & Hs1 & Hf1 & Hk1 & Hv1 & Ht1).
          cbn [fst snd] in *.
          destruct (proj2 Hi1 q c Hc) as (_ & ok & oc & Hok & Hoc & _).
          cbn [fst snd] in *.
          assert (c ≠ this) as Hcthis by (intros ->; by eapply Ht1).
          destruct (Hgn this othis Hthis) as (othis1 & Hthis1 & Hd1 & _);
            [done|].
          destruct (setMember_null f this (Some c) s1 othis1 Hthis1)
            as (s2 & othis2 & Hset & Hthis2 & Hd2 & Hg2).
          { by rewrite Hd1. }
          { intros ? [= <-]. split; [done|]. eauto. }
          assert (clone_step s0 rank r (Some this) (cm1, s1) (cm1, s2))
            as Hstep2.
          { apply clone_step_heap; [done..|].
            intros k c' Hc' ->. by eapply Ht1. }
          exists (cm1, s2), othis2. split; [|split; [|split; [|split]]].
          * rewrite (bind_step _ _ _ _ _ Hrunq).
            by rewrite (bind_step _ _ _ _ _ (liftSg_step _ _ _ _ _ Hset)).
          * by eapply clone_step_trans.
          * done.
          * exists (Some c). rewrite Hd2, Hd1.
            split; [by eapply getMember_assign|].
            unfold member_clone. cbn [fst]. rewrite Hf1, Hflag. eauto.
          * rewrite Hd2, Hd1. split; [|split].
            -- intros f' Hne. by apply getMember_assign_ne.
            -- apply cloned_members_assign.
            -- apply groupData_assign.
        + (* a null member stays null *)
          exists (cm, s), othis. split; [done|].
          split; [by apply clone_step_refl;
                    [|intros k c Hc [= ->]; eapply Hval]|].
          split; [done|]. split; [by exists None|]. by split.
      - (* the pointer of the original is taken *)
        destruct (setMember_null f this v s othis Hthis Hfnull)
          as (s2 & othis2 & Hset & Hthis2 & Hd2 & Hg2).
        { intros q ->. destruct (Hranked f q) as [[oq Hoq] _];
            [set_solver|done|].
          split; [intros ->; congruence|].
          destruct (proj1 Hinv q oq Hoq) as (? & ? & _); [done|]. eauto. }
        exists (cm, s2), othis2. split; [|split; [|split; [|split]]].
        * by rewrite (bind_step _ _ _ _ _ (liftSg_step _ _ _ _ _ Hset)).
        * by apply clone_step_heap.
        * done.
        * exists v. rewrite Hd2. split; [by eapply getMember_assign|].
          unfold member_clone. cbn [fst]. rewrite Hflag. by destruct v.
        * rewrite Hd2. split; [|split].
          -- intros f' Hne. by apply getMember_assign_ne.
          -- apply cloned_members_assign.
          -- apply groupData_assign. }
    pose proof Hstep1 as (Hi1 & Hg1 & Hs1 & Hf1 & Hk1 & Hv1 & Ht1).
    destruct (IH st1 othis1) as
      (st' & othis' & Hrun' & Hstep' & Hthis' & Hmem' & Hoth' & Hcl' & Hgd').
    { done. }
    { intros k c Hc ->. by eapply Ht1. }
    { done. }
    { done. }
    { intros f' Hf'. destruct (Hnull f') as [? ?]; [set_solver|].
      split; [done|]. rewrite Hoth1; [done|]. intros ->. done. }
    { intros f' x Hf'. apply Hranked. set_solver. }
    exists st', othis'. split; [|split; [|split; [|split; [|split]]]].
    + simpl. rewrite (bind_step _ _ _ _ _ Hrun1). by rewrite <- Hf1.
    + by eapply clone_step_trans.
    + done.
    + intros f' [->|Hf']%elem_of_cons; [|by apply Hmem'].
      exists v, v'. split; [done|]. split; [by rewrite Hoth'|].
      destruct Hstep' as (_ & _ & Hs' & Hf' & _).
      by eapply member_clone_mono.
    + intros f' Hf'. apply not_elem_of_cons in Hf' as [Hne Hf'].
      rewrite Hoth' by done. by apply Hoth1.
    + split; congruence.
Qed.

Lemma grown_insert this o s :
  grown (Some this) s (mkState (<[this := o]> (heap s)) (events s)).
Proof.
  intros p op Hp Hne. exists op. cbn [heap].
  rewrite lookup_insert_ne by (intros ->; done). done.
Qed.

(** A step on the store alone, which keeps every object with its members,
    is a step of the cloning operation. *)
Lemma clone_step_grown s0 rank r cm s s' :
  clone_inv s0 (cm, s) → grown None s s' →
  clone_step s0 rank r None (cm, s) (cm, s').
Proof.
  intros [Hg0 Hent] Hg. split; [|split; [done|]].
  - split.
    + by eapply grown_trans.
    + intros k c Hc. destruct (Hent k c Hc) as (Hc0 & ok & oc & Hok & Hoc & Hcl).
      split; [done|]. cbn [fst snd] in *.
      destruct (Hg c oc Hoc) as (oc' & Hoc' & Hd' & _); [done|].
      exists ok, oc'. split; [done|]. split; [done|]. by rewrite Hd'.
  - split; [done|]. split; [done|]. split; [by left|]. split; [by left|done].
Qed.

(** The construction of a new object [this] is, from outside, a step that
    keeps every object. *)
Lemma clone_step_new s0 rank r this cm s s1 st' :
  grown None s s1 → heap s !! this = None →
  clone_step s0 rank r (Some this) (cm, s1) st' →
  clone_step s0 rank r None (cm, s) st'.
Proof.
  intros Hg Hthis (Hi & Hg' & Hs & Hf & Hk & Hv & Ht). cbn [fst snd] in *.
  split; [done|]. split; [|split; [done|]; split; [done|]; split; [done|]].
  - apply (grown_fresh this); [|done].
    eapply grown_trans; [by apply grown_weaken|done].
  - split; [|done]. intros k c Hc. destruct (Hv k c Hc) as [?|Hnew]; [by left|].
    right. cbn [fst snd] in *. by eapply grown_None_lookup.
Qed.

(** The cloning constructor of SgGroup: the children of the new group are
    the clones, held by the map, of the children of the original. *)
Lemma SgGroup_clone_ctor_spec s0 rank r getClone this org oorg gorg st othis :
  getClone_ok s0 rank r getClone → heap s0 !! this = None →
  heap s0 !! org = Some oorg → groupData (data oorg) = Some gorg →
  (∀ c, c ∈ children gorg → is_Some (heap s0 !! c) ∧ rank c < r) →
  clone_inv s0 st → (∀ k c, cloneMap st.1 !! k = Some c → c ≠ this) →
  heap st.2 !! this = Some othis →
  groupData (data othis) = Some SgGroup_blank →
  ∃ st' othis' g',
    SgGroup_clone_ctor getClone this org st = Some (tt, st') ∧
    clone_step s0 rank r (Some this) st st' ∧
    heap st'.2 !! this = Some othis' ∧
    data othis' = with_groupData g' (data othis) ∧
    Forall2 (λ x x', cloneMap st'.1 !! x = Some x') (children gorg)
            (children g').
Proof.
  intros Hget Hthis0 Horg Hgorg Hranked Hinv Hval Hothis Hblank.
  destruct (proj1 Hinv org oorg Horg) as (oorg1 & Horg1 & Hdorg1 & _); [done|].
  destruct (group_clone_loop s0 rank r getClone this Hget Hthis0
              (children gorg) st [] [] othis)
    as (st' & cs' & othis' & Hrun & Hstep & Hcs' & Hall & Hothis' & Hkind);
    [done|done|done| |done|done|].
  { exists othis, SgGroup_blank. by repeat split. }
  simpl in Hcs', Hall.
  pose proof Hstep as (Hi1 & Hg1 & Hs1 & Hf1 & Hk1 & Hv1 & Ht1).
  destruct (proj1 Hi1 org oorg Horg) as (oorg2 & Horg2 & Hdorg2 & _); [done|].
  destruct Hcs' as (othis'' & g1 & Hothis'' & Hg1d & Hg1c).
  assert (othis'' = othis') as -> by congruence.
  destruct st as [cm s], st' as [cm' s']. cbn [fst snd] in *.
  set (G := mkGroup (children g1) true (bboxCache gorg)).
  set (s'' := mkState (<[this := with_data (with_groupData G (data othis'))
                                   othis']> (heap s')) (events s')).
  exists (cm', s''), (with_data (with_groupData G (data othis')) othis'), G.
  split; [|split; [|split; [|split]]].
  - unfold SgGroup_clone_ctor.
    erewrite bind_step; last first.
    { apply liftSg_step, getGroup_Some. exists oorg1.
      by rewrite Hdorg1. }
    erewrite bind_step; last exact Hrun.
    erewrite bind_step; last first.
    { apply liftSg_step, getGroup_Some. exists oorg2.
      by rewrite Hdorg2. }
    erewrite bind_step; last first.
    { apply liftSg_step, getGroup_Some. by exists othis'. }
    by rewrite (liftSg_step _ _ _ _ _ (putGroup_eval _ _ _ _ Hothis')).
  - eapply clone_step_trans; [exact Hstep|].
    apply clone_step_heap; [done|apply grown_insert|done|].
    intros k c Hc ->. by eapply Ht1.
  - subst s''. cbn [snd heap]. by rewrite lookup_insert_eq.
  - cbn [data with_data].
    rewrite <- (with_groupData_twice (data othis') G SgGroup_blank), Hkind.
    apply with_groupData_twice.
  - by rewrite <- Hg1c in Hall.
Qed.

Lemma cloned_members_get (d : SgData) f :
  f ∈ cloned_members d → is_Some (getMember f d).
Proof.
  destruct d; simpl; intros Hf;
    repeat (apply elem_of_cons in Hf as [->|Hf]);
    try (by apply elem_of_nil in Hf); simpl; eauto.
Qed.

Lemma NoDup_cloned_members (d : SgData) : NoDup (cloned_members d).
Proof.
  destruct d; simpl;
    repeat (apply NoDup_cons; split;
            [rewrite ?elem_of_cons, elem_of_nil; intuition discriminate|]);
    apply NoDup_nil_2.
Qed.

(** The members filled by the cloning constructors of the classes with
    payload. *)
Lemma cloneMembers_spec s0 rank getClone org oorg cm s1 this blank :
  refs_ranked rank s0 → getClone_ok s0 rank (rank org) getClone →
  heap s0 !! org = Some oorg →
  clone_inv s0 (cm, s1) → heap s0 !! this = None →
  (∀ k c, cloneMap cm !! k = Some c → c ≠ this) →
  heap s1 !! this = Some blank →
  groupData (data oorg) = None →
  cloned_members (data oorg) ≠ [] →
  cloned_members (data blank) = cloned_members (data oorg) →
  (∀ f, f ∈ cloned_members (data oorg) →
        getMember f (data blank) = Some None) →
  ∃ st' othis',
    cloneMembers getClone (cloned_members (data oorg)) this org (cm, s1)
      = Some (tt, st') ∧
    clone_step s0 rank (rank org) (Some this) (cm, s1) st' ∧
    heap st'.2 !! this = Some othis' ∧
    clone_of st'.1 (data oorg) (data othis').
Proof.
  intros Hrk Hget Horg Hinv Hthis0 Hval Hblank Hnogroup Hne Hsame Hnull.
  destruct (member_clone_loop s0 rank (rank org) getClone this org oorg
              Hget Hthis0 Horg (cloned_members (data oorg)) (cm, s1) blank)
    as (st' & othis' & Hrun & Hstep & Hothis' & Hmem & _ & Hcl & _);
    [done|done|done|apply NoDup_cloned_members| | |].
  { intros f Hf. split; [by apply cloned_members_get|by apply Hnull]. }
  { intros f x Hf Hx. apply (Hrk org oorg x Horg). right. eauto. }
  exists st', othis'. split; [|split; [done|split; [done|]]].
  - unfold cloneMembers. by rewrite bind_unfold.
  - unfold clone_of. rewrite Hnogroup. split; [congruence|]. by split.
Qed.

(** clone(cloneMap) of an original [org] of the store [s0] returns a new
    object, a clone of [org] with respect to the map, and is a step of the
    cloning operation. *)
Lemma clone_spec s0 rank getClone org oorg st :
  refs_ranked rank s0 → getClone_ok s0 rank (rank org) getClone →
  heap s0 !! org = Some oorg → clone_inv s0 st →
  ∃ c st' oc,
    clone getClone org st = Some (c, st') ∧
    heap st.2 !! c = None ∧ heap st'.2 !! c = Some oc ∧
    clone_of st'.1 (data oorg) (data oc) ∧
    clone_step s0 rank (rank org) None st st'.
Proof.
  intros Hrk Hget Horg Hinv. destruct st as [cm s].
  destruct (proj1 Hinv org oorg Horg) as (oorg1 & Horg1 & Hdorg1 & _); [done|].
  cbn [fst snd] in *. unfold clone.
  rewrite (bind_step _ _ _ _ _
             (liftSg_step _ cm _ _ _ (getObj_lookup _ _ _ Horg1))).
  rewrite Hdorg1.
  assert (∀ o, ∃ this s1,
            new o s = Some (this, s1) ∧ heap s !! this = None ∧
            heap s0 !! this = None ∧ heap s1 !! this = Some o ∧
            clone_inv s0 (cm, s1) ∧ grown None s s1 ∧
            (∀ k c, cloneMap cm !! k = Some c → c ≠ this)) as Hnew.
  { intros o. destruct (new_alloc o s) as (this & s1 & Hn & Hf & Hh & _ & Hg).
    exists this, s1. split; [done|]. split; [done|].
    split; [by eapply grown_None_lookup; [exact (proj1 Hinv)|]|].
    split; [by rewrite Hh, lookup_insert_eq|].
    split; [by destruct (clone_step_grown s0 rank 0 cm s s1 Hinv Hg)|].
    split; [done|]. intros k c Hc ->.
    destruct (proj2 Hinv k this Hc) as (_ & ? & oc & _ & Hoc & _).
    cbn [fst snd] in *. congruence. }
  destruct (data oorg) eqn:Hd;
    match goal with
    | |- context [new ?o] =>
        destruct (Hnew o)
          as (this & s1 & Hn & Hf & Hf0 & Hthis1 & Hinv1 & Hg1 & Hval1)
    end;
    try (exists this, (cm, s1); eexists;
         split; [exact (liftSg_step _ cm _ _ _ Hn)|];
         split; [done|]; split; [exact Hthis1|];
         split; [by unfold clone_of; simpl; repeat split;
                    intros f ?%elem_of_nil|];
         by apply clone_step_grown);
    rewrite (bind_step _ _ _ _ _ (liftSg_step _ cm _ _ _ Hn)).
  (* SgTexture, SgMesh, SgPolygonMesh, SgShape, SgPlot *)
  3-7:
    match goal with
    | Hrk : refs_ranked _ _, Hget : getClone_ok _ _ _ _,
      Horg : heap _ !! _ = Some ?oorg, Hinv1 : clone_inv _ (_, ?s1),
      Hf0 : heap _ !! ?this = None,
      Hval1 : ∀ k c, cloneMap _ !! k = Some c → c ≠ ?this,
      Hthis1 : heap ?s1 !! ?this = Some _, Hd : data ?oorg = _ |- _ =>
        let Hm := fresh "Hm" in
        let Hrun := fresh "Hrun" in
        let st' := fresh "st'" in
        let othis' := fresh "othis'" in
        pose proof (cloneMembers_spec _ _ _ _ _ _ _ _ _
                      Hrk Hget Horg Hinv1 Hf0 Hval1 Hthis1) as Hm;
        rewrite Hd in Hm;
        destruct Hm as (st' & othis' & Hrun & ? & ? & ?);
        [done|done|done|
         let f := fresh "f" in
         let Hf' := fresh "Hf'" in
         simpl; intros f Hf';
         repeat (apply elem_of_cons in Hf' as [->|Hf']);
         try (by apply elem_of_nil in Hf'); done|];
        simpl in Hrun; rewrite (bind_step _ _ _ _ _ Hrun);
        exists this, st', othis'; repeat (split; [done|]);
        by eapply clone_step_new
    end.
  - (* SgGroup and the classes derived from it *)
    assert (groupData (data oorg) = Some g) as HG by (by rewrite Hd).
    assert (∀ c, c ∈ children g → is_Some (heap s0 !! c) ∧ rank c < rank org)
      as HR.
    { intros c Hc. apply (Hrk org oorg c Horg). left. by exists g. }
    destruct (SgGroup_clone_ctor_spec s0 rank (rank org) getClone this org
                oorg g (cm, s1) _ Hget Hf0 Horg HG HR Hinv1 Hval1 Hthis1
                eq_refl)
      as (st' & othis' & g' & Hrun & Hstep & Hothis' & Hdthis' & Hall).
    exists this, st', othis'. rewrite (bind_step _ _ _ _ _ Hrun).
    split; [done|]. split; [done|]. split; [done|]. split.
    + unfold clone_of. simpl. exists g'. by rewrite Hdthis'.
    + by eapply clone_step_new.
  - (* SgTransform and the classes derived from it *)
    assert (groupData (data oorg) = Some g) as HG by (by rewrite Hd).
    assert (∀ c, c ∈ children g → is_Some (heap s0 !! c) ∧ rank c < rank org)
      as HR.
    { intros c Hc. apply (Hrk org oorg c Horg). left. by exists g. }
    destruct (SgGroup_clone_ctor_spec s0 rank (rank org) getClone this org
                oorg g (cm, s1) _ Hget Hf0 Horg HG HR Hinv1 Hval1 Hthis1
                eq_refl)
      as (st' & othis' & g' & Hrun & Hstep & Hothis' & Hdthis' & Hall).
    rewrite (bind_step _ _ _ _ _ Hrun).
    pose proof Hstep as (Hi' & _ & _ & _ & _ & _ & Ht').
    destruct (proj1 Hi' org oorg Horg) as (oorg2 & Horg2 & Hdorg2 & _);
      [done|].
    destruct st' as [cm' s']. cbn [fst snd] in *.
    rewrite (bind_step _ _ _ _ _
               (liftSg_step _ cm' _ _ _ (getObj_lookup _ _ _ Horg2))).
    rewrite (bind_step _ _ _ _ _
               (liftSg_step _ cm' _ _ _ (getObj_lookup _ _ _ Hothis'))).
    rewrite Hdorg2, Hd, Hdthis'. cbn [data with_groupData].
    eexists this, _, _. split; [reflexivity|]. split; [done|].
    split; [cbn [snd heap]; by rewrite lookup_insert_eq|]. split.
    + unfold clone_of. simpl. by exists g'.
    + eapply clone_step_new; [done..|].
      eapply clone_step_trans; [exact Hstep|].
      apply clone_step_heap; [done|apply grown_insert|done|].
      intros k' c Hc ->. by eapply Ht'.
Qed.

(** An object that the map holds is not cloned again: the stored clone is
    returned and nothing changes. *)
Lemma findOrCreateClone_found n x c st :
  cloneMap st.1 !! x = Some c → findOrCreateClone (S n) x st = Some (c, st).
Proof.
  intros Hc. simpl. rewrite bind_unfold. unfold gets. by rewrite Hc.
Qed.

(** findOrCreateClone on an original of rank below the fuel returns a
    clone that the map holds afterwards, and is a step of the cloning
    operation. *)
Lemma findOrCreateClone_spec s0 rank :
  refs_ranked rank s0 → ∀ n, getClone_ok s0 rank n (findOrCreateClone n).
Proof.
  intros Hrk. induction n as [|n IH]; intros y st [oy Hy] Hinv Hlt; [lia|].
  destruct (cloneMap st.1 !! y) as [c|] eqn:Hc.
  - exists c, st. split; [by apply findOrCreateClone_found|].
    split; [|done]. by apply clone_step_refl.
  - assert (getClone_ok s0 rank (rank y) (findOrCreateClone n)) as Hget.
    { intros z st1 Hz Hi Hr. apply IH; [done..|lia]. }
    destruct (clone_spec s0 rank _ y oy st Hrk Hget Hy Hinv)
      as (c & [cm1 s1] & oc & Hrun & Hfresh & Hoc & Hcl & Hstep).
    pose proof Hstep as (Hi1 & Hg1 & Hs1 & Hf1 & Hk1 & Hv1 & _).
    destruct st as [cm s]. cbn [fst snd] in *.
    assert (cloneMap cm1 !! y = None) as Hy1.
    { destruct (cloneMap cm1 !! y) eqn:E; [|done].
      destruct (Hk1 y) as [[? ?]|?]; [by eauto|congruence|lia]. }
    set (cm2 := mkCloneMap (<[y := c]> (cloneMap cm1))
                           (isNonNodeCloningEnabled_ cm1)).
    assert (cloneMap cm1 ⊆ cloneMap cm2) as Hsub.
    { by apply insert_subseteq. }
    exists c, (cm2, s1). split; [|split].
    + simpl. rewrite bind_unfold. unfold gets. cbn [fst]. rewrite Hc.
      by rewrite (bind_step _ _ _ _ _ Hrun).
    + split; [|split; [done|split; [|split; [done|split; [|split]]]]].
      * split; [exact (proj1 Hi1)|]. cbn [fst snd].
        intros k c' Hk'. unfold cm2 in Hk'. cbn [cloneMap] in Hk'.
        apply lookup_insert_Some in Hk' as [[-> ->]|[Hne Hk]].
        -- split; [by eapply grown_None_lookup; [exact (proj1 Hinv)|]|].
           exists oy, oc. split; [done|]. split; [done|].
           by eapply clone_of_mono.
        -- destruct (proj2 Hi1 k c' Hk) as (? & ok & oc' & ? & ? & ?).
           split; [done|]. exists ok, oc'. split; [done|]. split; [done|].
           by eapply clone_of_mono.
      * cbn [fst]. by etrans.
      * cbn [fst]. intros k [c' Hk']. unfold cm2 in Hk'. cbn [cloneMap] in Hk'.
        apply lookup_insert_Some in Hk' as [[-> ->]|[Hne Hk]].
        -- right. lia.
        -- destruct (Hk1 k) as [?|?]; [by eauto|by left|right; lia].
      * cbn [fst snd]. intros k c' Hk'. unfold cm2 in Hk'. cbn [cloneMap] in Hk'.
        apply lookup_insert_Some in Hk' as [[-> ->]|[Hne Hk]].
        -- by right.
        -- by apply Hv1.
      * done.
    + unfold cm2. cbn [fst cloneMap]. by rewrite lookup_insert_eq.
Qed.

Lemma clone_inv_start s0 flag : clone_inv s0 (mkCloneMap ∅ flag, s0).
Proof. split; [apply grown_refl|]. intros k c Hc. by simpl in Hc. Qed.

Lemma refs_rankedb_ok rank s0 :
  refs_rankedb rank s0 = true → refs_ranked rank s0.
Proof.
  intros Hb%bool_decide_eq_true_1 p o x Ho Href.
  specialize (Hb p o Ho). simpl in Hb. rewrite Forall_forall in Hb.
  apply Hb, elem_of_app. destruct Href as [(g & Hg & Hx)|(f & Hf & Hx)].
  - left. by rewrite Hg.
  - right. apply list_elem_of_omap. exists f. split; [done|]. by rewrite Hx.
Qed.

Lemma cloned_members_no_group (d : SgData) f :
  f ∈ cloned_members d → groupData d = None.
Proof. destruct d; simpl; try done; by intros ?%elem_of_nil. Qed.

(** A reference that cloning follows is, in the clone, a reference to the
    clone that the map holds. *)
Lemma clone_of_reference cm (d d' : SgData) x :
  clone_of cm d d' → cloned_reference (isNonNodeCloningEnabled_ cm) d x →
  ∃ x', cloneMap cm !! x = Some x' ∧
        cloned_reference (isNonNodeCloningEnabled_ cm) d' x'.
Proof.
  unfold clone_of. intros Hcl [(g & Hg & Hx)|(Hflag & f & Hf & Hx)].
  - rewrite Hg in Hcl. destruct Hcl as (g' & Hg' & Hall).
    apply list_elem_of_lookup in Hx as [i Hi].
    destruct (Forall2_lookup_l _ _ _ _ _ Hall Hi) as (x' & Hi' & Hx').
    exists x'. split; [done|]. left. exists g'. split; [done|].
    by eapply list_elem_of_lookup_2.
  - rewrite (cloned_members_no_group _ _ Hf) in Hcl.
    destruct Hcl as (Hcm & _ & Hmem).
    destruct (Hmem f Hf) as (v & v' & Hv & Hv' & Hmc).
    assert (v = Some x) as -> by congruence.
    unfold member_clone in Hmc. rewrite Hflag in Hmc.
    destruct Hmc as (x' & Hx' & ->). exists x'. split; [done|].
    right. split; [done|]. exists f. by rewrite Hcm.
Qed.

Lemma putObj_written p o' s : putObj p o' s = Some (tt, written p o' s).
Proof. done. Qed.

(** A computation on the store leaves the map as it is. *)
Lemma liftSg_Some {X A} (m : Sg A) (st : X * State) a (st' : X * State) :
  liftSg m st = Some (a, st') → st'.1 = st.1 ∧ m st.2 = Some (a, st'.2).
Proof.
  unfold liftSg. destruct (m st.2) as [[a' s']|]; [|done].
  by intros [= <- <-].
Qed.

(** With non-node cloning disabled, filling the members of a clone does
    not touch the map. *)
Lemma cloneMember_disabled getClone this org f st r st' :
  cloneMember getClone false this org f st = Some (r, st') → st'.1 = st.1.
Proof.
  unfold cloneMember. intros Hrun.
  apply bind_Some in Hrun as (o & st1 & Ho & Hrun).
  apply liftSg_Some in Ho as [E1 _].
  destruct (getMember f (data o)) as [x|]; [|done].
  apply bind_Some in Hrun as (r1 & st2 & Hset & Hrun).
  apply liftSg_Some in Hset as [E2 _].
  rewrite mret_unfold in Hrun. simplify_eq. congruence.
Qed.

Lemma cloneMembers_disabled getClone fs this org st r st' :
  isNonNodeCloningEnabled_ st.1 = false →
  cloneMembers getClone fs this org st = Some (r, st') → st'.1 = st.1.
Proof.
  unfold cloneMembers. intros Hflag Hrun.
  rewrite bind_unfold in Hrun. unfold gets in Hrun. rewrite Hflag in Hrun.
  clear Hflag. revert st r Hrun.
  induction fs as [|f fs IH]; intros st r Hrun.
  - cbn [forM_] in Hrun. rewrite mret_unfold in Hrun. by simplify_eq.
  - cbn [forM_] in Hrun.
    apply bind_Some in Hrun as (r1 & st1 & Hf & Hrun).
    apply cloneMember_disabled in Hf. apply IH in Hrun. congruence.
Qed.

(** With non-node cloning disabled, clone(cloneMap) of an object that is
    not a group does not touch the map. *)
Lemma clone_disabled getClone org o st c st' :
  heap st.2 !! org = Some o → groupData (data o) = None →
  isNonNodeCloningEnabled_ st.1 = false →
  clone getClone org st = Some (c, st') → st'.1 = st.1.
Proof.
  destruct st as [cm s]. cbn [fst snd]. intros Ho Hg Hflag Hrun.
  unfold clone in Hrun.
  rewrite (bind_step _ _ _ _ _ (liftSg_getObj _ _ _ cm Ho)) in Hrun.
  destruct (data o) eqn:Hd; simpl in Hg; try discriminate;
    try (apply liftSg_Some in Hrun as [E _]; exact E);
    apply bind_Some in Hrun as (this & st1 & Hnew & Hrun);
    apply liftSg_Some in Hnew as [E1 _];
    apply bind_Some in Hrun as (r & st2 & Hmem & Hrun);
    rewrite mret_unfold in Hrun; simplify_eq;
    apply cloneMembers_disabled in Hmem; cbn [fst] in *; congruence.
Qed.

(** With non-node cloning disabled, findOrCreateClone on an object that
    is not a group adds to the map at most the entry of the object. *)
Lemma findOrCreateClone_disabled n org o st c st' :
  heap st.2 !! org = Some o → groupData (data o) = None →
  isNonNodeCloningEnabled_ st.1 = false →
  findOrCreateClone n org st = Some (c, st') →
  ∀ k, k ≠ org → cloneMap st'.1 !! k = cloneMap st.1 !! k.
Proof.
  intros Ho Hg Hflag Hrun k Hk. destruct n as [|n]; [done|].
  simpl in Hrun. rewrite bind_unfold in Hrun. unfold gets in Hrun.
  destruct (cloneMap st.1 !! org) as [c'|].
  - rewrite mret_unfold in Hrun. by simplify_eq.
  - apply bind_Some in Hrun as (c' & st1 & Hcl & Hrun).
    apply (clone_disabled _ _ _ _ _ _ Ho Hg Hflag) in Hcl.
    rewrite bind_unfold in Hrun. unfold modify in Hrun.
    rewrite mret_unfold in Hrun. simplify_eq. cbn [fst cloneMap].
    rewrite lookup_insert_ne by done. by rewrite Hcl.
Qed.

(** C3, amended. Let [A] and [B] be objects of a store whose references
    form a DAG, both referencing [X]. findOrCreateClone applied to [A] and
    then to [B] through one map, empty at first, returns clones held by the
    map. If both reference [X] as a child or, with non-node cloning
    enabled, through a member, the map holds one clone [cX] of [X], a new
    object that is a clone of [X]; the clone of [A] and the clone of [B]
    reference this same [cX] where [A] and [B] reference [X]; and
    findOrCreateClone applied to [X] again returns [cX] and changes neither
    the map nor the store. If non-node cloning is disabled and both
    reference [X] through members, the same members of the clones point to
    [X] itself, which is in the store with the members it had, and the map
    holds no clone of [X]. *)
Theorem clone_sharing rank s0 enabled n A B X oA oB :
  refs_ranked rank s0 →
  heap s0 !! A = Some oA → heap s0 !! B = Some oB →
  references (data oA) X → references (data oB) X →
  rank A < n → rank B < n →
  ∃ cA cB st1 st2 ocA ocB,
    findOrCreateClone n A (setNonNodeCloning enabled SgCloneMap_new, s0)
      = Some (cA, st1) ∧
    findOrCreateClone n B st1 = Some (cB, st2) ∧
    cloneMap st2.1 !! A = Some cA ∧ cloneMap st2.1 !! B = Some cB ∧
    heap st2.2 !! cA = Some ocA ∧ heap st2.2 !! cB = Some ocB ∧
    clone_of st2.1 (data oA) (data ocA) ∧
    clone_of st2.1 (data oB) (data ocB) ∧
    (cloned_reference enabled (data oA) X →
     cloned_reference enabled (data oB) X →
     ∃ cX oX ocX,
       cloneMap st2.1 !! X = Some cX ∧
       cloned_reference enabled (data ocA) cX ∧
       cloned_reference enabled (data ocB) cX ∧
       heap s0 !! X = Some oX ∧ heap s0 !! cX = None ∧
       heap st2.2 !! cX = Some ocX ∧ clone_of st2.1 (data oX) (data ocX) ∧
       ∀ m, findOrCreateClone (S m) X st2 = Some (cX, st2)) ∧
    (enabled = false →
     ∀ fA fB,
       fA ∈ cloned_members (data oA) →
       getMember fA (data oA) = Some (Some X) →
       fB ∈ cloned_members (data oB) →
       getMember fB (data oB) = Some (Some X) →
       getMember fA (data ocA) = Some (Some X) ∧
       getMember fB (data ocB) = Some (Some X) ∧
       cloneMap st2.1 !! X = None ∧
       ∃ oX oX', heap s0 !! X = Some oX ∧ heap st2.2 !! X = Some oX' ∧
                 data oX' = data oX).
Proof.
  intros Hrk HA HB HrA HrB HnA HnB.
  destruct (findOrCreateClone_spec s0 rank Hrk n A
              (setNonNodeCloning enabled SgCloneMap_new, s0))
    as (cA & st1 & Hrun1 & Hstep1 & HcA); [by eauto|apply clone_inv_start|done|].
  pose proof Hstep1 as (Hi1 & _ & _ & Hf1 & _).
  destruct (findOrCreateClone_spec s0 rank Hrk n B st1)
    as (cB & st2 & Hrun2 & Hstep2 & HcB); [by eauto|done|done|].
  pose proof Hstep2 as (Hi2 & _ & Hs2 & Hf2 & _).
  assert (isNonNodeCloningEnabled_ st2.1 = enabled) as Hflag.
  { by rewrite Hf2, Hf1. }
  assert (cloneMap st2.1 !! A = Some cA) as HcA2 by (by eapply lookup_weaken).
  destruct (proj2 Hi2 A cA HcA2) as (_ & oA' & ocA & HA' & HocA & HclA).
  assert (oA' = oA) as -> by congruence.
  destruct (proj2 Hi2 B cB HcB) as (_ & oB' & ocB & HB' & HocB & HclB).
  assert (oB' = oB) as -> by congruence.
  exists cA, cB, st1, st2, ocA, ocB.
  repeat (split; [done|]). split.
  - intros HAX HBX. rewrite <- Hflag in HAX, HBX.
    destruct (clone_of_reference _ _ _ _ HclA HAX) as (cX & HcX & HrefA).
    destruct (clone_of_reference _ _ _ _ HclB HBX) as (cX' & HcX' & HrefB).
    assert (cX' = cX) as -> by congruence.
    destruct (proj2 Hi2 X cX HcX) as (HcX0 & oX & ocX & HX & HocX & HclX).
    rewrite Hflag in HrefA, HrefB.
    exists cX, oX, ocX.
    repeat (split; [done|]). intros m. by apply findOrCreateClone_found.
  - intros -> fA fB HfA HxA HfB HxB.
    pose proof (cloned_members_no_group _ _ HfA) as HgA.
    pose proof (cloned_members_no_group _ _ HfB) as HgB.
    (* the members of the clones *)
    assert (∀ (d d' : SgData) f,
      clone_of st2.1 d d' → f ∈ cloned_members d →
      getMember f d = Some (Some X) → getMember f d' = Some (Some X)) as Hmem.
    { intros d d' f Hcl Hf Hx. unfold clone_of in Hcl.
      rewrite (cloned_members_no_group _ _ Hf) in Hcl.
      destruct Hcl as (_ & _ & Hall).
      destruct (Hall f Hf) as (v & v' & Hv & Hv' & Hmc).
      assert (v = Some X) as -> by congruence.
      unfold member_clone in Hmc. rewrite Hflag in Hmc. congruence. }
    split; [by apply (Hmem _ _ _ HclA)|].
    split; [by apply (Hmem _ _ _ HclB)|].
    (* [X] is below [A] and [B] *)
    destruct (Hrk A oA X HA HrA) as [[oX HX] HXA].
    destruct (Hrk B oB X HB HrB) as [_ HXB].
    assert (X ≠ A) as HneA by (intros ->; lia).
    assert (X ≠ B) as HneB by (intros ->; lia).
    split.
    + destruct (proj1 Hi1 B oB HB) as (oB1 & HB1 & HdB1 & _); [done|].
      rewrite (findOrCreateClone_disabled _ _ oB1 _ _ _ HB1
                 ltac:(by rewrite HdB1) ltac:(by rewrite Hf1) Hrun2 X HneB).
      rewrite (findOrCreateClone_disabled n A oA
                 (setNonNodeCloning false SgCloneMap_new, s0) cA st1
                 HA HgA eq_refl Hrun1 X HneA).
      done.
    + destruct (proj1 Hi2 X oX HX) as (oX' & HX' & HdX' & _); [done|].
      by exists oX, oX'.
Qed.

(** C7. Let [A] be an object of a store whose references form a DAG, with
    a member [f] that cloning carries over and that points to [x].
    findOrCreateClone applied to [A] returns a new object. When non-node
    cloning is enabled, the member [f] of the clone points to a new object,
    a clone of [x], and after any write through that pointer the member
    [f] of [A] still leads to the members that [x] had. When it is
    disabled, the member [f] of the clone is the pointer [x] itself, and
    after any write through it both [A] and the clone see the written
    object behind [f]. *)
Theorem clone_independence rank s0 enabled n A oA f x ox :
  refs_ranked rank s0 → heap s0 !! A = Some oA → rank A < n →
  f ∈ cloned_members (data oA) → getMember f (data oA) = Some (Some x) →
  heap s0 !! x = Some ox →
  ∃ c st oc,
    findOrCreateClone n A (setNonNodeCloning enabled SgCloneMap_new, s0)
      = Some (c, st) ∧
    heap s0 !! c = None ∧ heap st.2 !! c = Some oc ∧
    if enabled then
      ∃ x' ox',
        getMember f (data oc) = Some (Some x') ∧
        heap s0 !! x' = None ∧ heap st.2 !! x' = Some ox' ∧
        clone_of st.1 (data ox) (data ox') ∧
        ∀ o', ∃ o1, payload (written x' o' st.2) A f = Some o1 ∧
                    data o1 = data ox
    else
      getMember f (data oc) = Some (Some x) ∧
      ∀ o', payload (written x o' st.2) A f = Some o' ∧
            payload (written x o' st.2) c f = Some o'.
Proof.
  intros Hrk HA Hn Hf Hx Hox.
  destruct (findOrCreateClone_spec s0 rank Hrk n A
              (setNonNodeCloning enabled SgCloneMap_new, s0))
    as (c & st & Hrun & Hstep & Hc); [by eauto|apply clone_inv_start|done|].
  pose proof Hstep as (Hi & _ & _ & Hfl & _).
  destruct (proj2 Hi A c Hc) as (Hc0 & oA' & oc & HA' & Hoc & Hcl).
  assert (oA' = oA) as -> by congruence.
  unfold clone_of in Hcl. rewrite (cloned_members_no_group _ _ Hf) in Hcl.
  destruct Hcl as (_ & _ & Hmem).
  destruct (Hmem f Hf) as (v & v' & Hv & Hv' & Hmc).
  assert (v = Some x) as -> by congruence.
  unfold member_clone in Hmc. rewrite Hfl in Hmc. cbn [fst] in Hmc.
  destruct (proj1 Hi A oA HA) as (oA1 & HA1 & HdA1 & _); [done|].
  destruct (proj1 Hi x ox Hox) as (ox1 & Hox1 & Hdx1 & _); [done|].
  exists c, st, oc. split; [done|]. split; [done|]. split; [done|].
  destruct enabled; simpl in Hmc.
  - destruct Hmc as (x' & Hx' & ->).
    destruct (proj2 Hi x x' Hx') as (Hx'0 & ox0 & ox' & Hox0 & Hox' & Hclx).
    assert (ox0 = ox) as -> by congruence.
    exists x', ox'. repeat (split; [done|]).
    intros o'. exists ox1. split; [|done].
    unfold payload, written. cbn [heap].
    rewrite lookup_insert_ne by (intros ->; congruence).
    rewrite HA1. simpl. rewrite HdA1, Hx. simpl.
    rewrite lookup_insert_ne by (intros ->; congruence). done.
  - subst v'. split; [done|].
    assert (x ≠ A) as HxA.
    { intros ->. destruct (Hrk A oA A HA) as [_ ?]; [|lia].
      right. eauto. }
    intros o'. unfold payload, written. cbn [heap]. split.
    + rewrite lookup_insert_ne by done.
      rewrite HA1. simpl. rewrite HdA1, Hx. simpl.
      by rewrite lookup_insert_eq.
    + rewrite lookup_insert_ne by (intros ->; congruence).
      rewrite Hoc. simpl. rewrite Hv'. simpl.
      by rewrite lookup_insert_eq.
Qed.

End Cloning.

Lemma clone_sharing_witness :
  let s0 := Sample.two_shapes in
  let oA := mkObj "" [] (DShape (mkShape (Some 3%positive) None None)) in
  (∃ cA cB cX st1 st2 ocA ocB oX ocX,
     findOrCreateClone 10 1 (setNonNodeCloning true SgCloneMap_new, s0)
       = Some (cA, st1) ∧
     findOrCreateClone 10 2 st1 = Some (cB, st2) ∧
     cloneMap st2.1 !! 1%positive = Some cA ∧
     cloneMap st2.1 !! 2%positive = Some cB ∧
     cloneMap st2.1 !! 3%positive = Some cX ∧
     heap st2.2 !! cA = Some ocA ∧ heap st2.2 !! cB = Some ocB ∧
     clone_of st2.1 (data oA) (data ocA) ∧
     clone_of st2.1 (data oA) (data ocB) ∧
     cloned_reference true (data ocA) cX ∧
     cloned_reference true (data ocB) cX ∧
     heap s0 !! 3%positive = Some oX ∧ heap s0 !! cX = None ∧
     heap st2.2 !! cX = Some ocX ∧ clone_of st2.1 (data oX) (data ocX) ∧
     ∀ m, findOrCreateClone (S m) 3 st2 = Some (cX, st2)) ∧
  (∃ cA cB st1 st2 ocA ocB,
     findOrCreateClone 10 1 (setNonNodeCloning false SgCloneMap_new, s0)
       = Some (cA, st1) ∧
     findOrCreateClone 10 2 st1 = Some (cB, st2) ∧
     cloneMap st2.1 !! 1%positive = Some cA ∧
     cloneMap st2.1 !! 2%positive = Some cB ∧
     heap st2.2 !! cA = Some ocA ∧ heap st2.2 !! cB = Some ocB ∧
     getMember shape_mesh (data ocA) = Some (Some 3%positive) ∧
     getMember shape_mesh (data ocB) = Some (Some 3%positive) ∧
     cloneMap st2.1 !! 3%positive = None).
Proof.
  intros s0 oA.
  assert (refs_ranked Sample.rank_by_depth s0) as Hrk.
  { apply refs_rankedb_ok. vm_compute. reflexivity. }
  assert (heap s0 !! 1%positive = Some oA) as H1 by (vm_compute; reflexivity).
  assert (heap s0 !! 2%positive = Some oA) as H2 by (vm_compute; reflexivity).
  assert (shape_mesh ∈ cloned_members (data oA)) as Hin
    by apply list_elem_of_here.
  assert (references (data oA) 3) as Href.
  { right. exists shape_mesh. split; [exact Hin|reflexivity]. }
  assert (Sample.rank_by_depth 1 < 10) as Hr1 by (vm_compute; lia).
  assert (Sample.rank_by_depth 2 < 10) as Hr2 by (vm_compute; lia).
  split.
  - destruct (clone_sharing Sample.rank_by_depth s0 true 10 1 2 3 oA oA
                Hrk H1 H2 Href Href Hr1 Hr2)
      as (cA & cB & st1 & st2 & ocA & ocB & Hrun1 & Hrun2 & HcA & HcB
          & HocA & HocB & HclA & HclB & Hshared & _).
    assert (cloned_reference true (data oA) 3) as Hcref.
    { right. split; [reflexivity|]. exists shape_mesh.
      split; [exact Hin|reflexivity]. }
    destruct (Hshared Hcref Hcref)
      as (cX & oX & ocX & HcX & HrA & HrB & HX & HcX0 & HocX & HclX & Hagain).
    exists cA, cB, cX, st1, st2, ocA, ocB, oX, ocX.
    repeat (split; [assumption|]). exact Hagain.
  - destruct (clone_sharing Sample.rank_by_depth s0 false 10 1 2 3 oA oA
                Hrk H1 H2 Href Href Hr1 Hr2)
      as (cA & cB & st1 & st2 & ocA & ocB & Hrun1 & Hrun2 & HcA & HcB
          & HocA & HocB & _ & _ & _ & Hdisabled).
    destruct (Hdisabled eq_refl shape_mesh shape_mesh Hin eq_refl Hin eq_refl)
      as (HmA & HmB & HX & _).
    exists cA, cB, st1, st2, ocA, ocB.
    repeat (split; [assumption|]). exact HX.
Defined.

(** With non-node cloning disabled, two shapes over one mesh are cloned to
    two shapes that have the mesh of the originals itself for mesh, and
    the map holds no clone of the mesh. *)
Lemma shared_payload_not_cloned :
  ∃ cA cB st1 st2 ocA ocB,
    payload Sample.two_shapes 1 shape_mesh
      = heap Sample.two_shapes !! 3%positive ∧
    payload Sample.two_shapes 2 shape_mesh
      = heap Sample.two_shapes !! 3%positive ∧
    is_Some (heap Sample.two_shapes !! 3%positive) ∧
    findOrCreateClone 10 1
      (setNonNodeCloning false SgCloneMap_new, Sample.two_shapes)
      = Some (cA, st1) ∧
    findOrCreateClone 10 2 st1 = Some (cB, st2) ∧
    heap st2.2 !! cA = Some ocA ∧ heap st2.2 !! cB = Some ocB ∧
    getMember shape_mesh (data ocA) = Some (Some 3%positive) ∧
    getMember shape_mesh (data ocB) = Some (Some 3%positive) ∧
    cloneMap st2.1 !! 3%positive = None.
Proof.
  eexists _, _, _, _, _, _.
  split; [vm_compute; reflexivity|]. split; [vm_compute; reflexivity|].
  split; [vm_compute; eauto|].
  split; [vm_compute; reflexivity|]. split; [vm_compute; reflexivity|].
  split; [vm_compute; reflexivity|]. split; [vm_compute; reflexivity|].
  split; [reflexivity|]. split; [reflexivity|]. vm_compute. reflexivity.
Qed.

Lemma clone_independence_witness :
  let s0 := Sample.shape_over_mesh in
  let ox := mkObj "" [1%positive]
              (DMesh (mkMeshBase None None None None [] [] false None)
                     [] Mesh) in
  (∃ c st oc,
     findOrCreateClone 10 1 (setNonNodeCloning true SgCloneMap_new, s0)
       = Some (c, st) ∧
     heap s0 !! c = None ∧ heap st.2 !! c = Some oc ∧
     ∃ x' ox',
       getMember shape_mesh (data oc) = Some (Some x') ∧
       heap s0 !! x' = None ∧ heap st.2 !! x' = Some ox' ∧
       clone_of st.1 (data ox) (data ox') ∧
       ∀ o', ∃ o1, payload (written x' o' st.2) 1 shape_mesh = Some o1 ∧
                   data o1 = data ox) ∧
  (∃ c st oc,
     findOrCreateClone 10 1 (setNonNodeCloning false SgCloneMap_new, s0)
       = Some (c, st) ∧
     heap s0 !! c = None ∧ heap st.2 !! c = Some oc ∧
     getMember shape_mesh (data oc) = Some (Some 2%positive) ∧
     ∀ o', payload (written 2 o' st.2) 1 shape_mesh = Some o' ∧
           payload (written 2 o' st.2) c shape_mesh = Some o').
Proof.
  intros s0 ox.
  pose (oA := mkObj "" [] (DShape (mkShape (Some 2%positive) None None))).
  split.
  - apply (clone_independence Sample.rank_by_depth s0 true 10 1 oA
             shape_mesh 2 ox).
    + apply refs_rankedb_ok. vm_compute. reflexivity.
    + vm_compute. reflexivity.
    + vm_compute. lia.
    + apply list_elem_of_here.
    + reflexivity.
    + vm_compute. reflexivity.
  - apply (clone_independence Sample.rank_by_depth s0 false 10 1 oA
             shape_mesh 2 ox).
    + apply refs_rankedb_ok. vm_compute. reflexivity.
    + vm_compute. reflexivity.
    + vm_compute. lia.
    + apply list_elem_of_here.
    + reflexivity.
    + vm_compute. reflexivity.
Defined.
